(** * angular-coding-standard: the TTL cache and the session guard

    A shallow embedding of the two pieces of logic of the repository:

    - [CacheService] (the cache service, [set] / [get] / [cleanup] /
      [enforceMaxSize]), and
    - [AuthGuard] and [AuthService] of [guards/auth.guard.ts]
      ([validateAuthState], [login], [logout], [refreshToken], ...).

    Conventions of the embedding.

    - A [Date] is its [getTime()] value, a [Z] number of milliseconds.
      Every call of the source is synchronous between two [await]s; the
      [new Date()] reads made during one call are taken at one instant,
      the argument [now] of the call.  A [Date] built from a number
      outside the range of [JsDate.representable] is an Invalid Date,
      which has no time value; where the code would build one from a
      sum that is too small, the statement carries the range as a
      hypothesis.
    - A JavaScript [Map] is an association list in insertion order with
      unique keys: [Map.prototype.set] on a present key replaces the value
      in place, on a new key it appends.
    - [T | null] is [option T]; truthiness of a string ([""] is falsy) is
      written out where the source relies on it.
    - Calls on collaborators that return nothing (the logger, the
      notification service, the router) are recorded in a list of [Call]s.
*)

From Stdlib Require Import String DecimalString ZArith List Bool Lia
  Permutation.
Import ListNotations.
Local Open Scope Z_scope.

(* ================================================================== *)
(** * Definitions *)
(* ================================================================== *)

(** ** JavaScript [Map] with string keys *)

Module JsMap.
Section WithValue.
Context {V : Type}.

Definition t := list (string * V).

Definition empty : t := [].

Fixpoint get (k : string) (m : t) : option V :=
  match m with
  | [] => None
  | (k', v) :: m' => if String.eqb k k' then Some v else get k m'
  end.

Definition has (k : string) (m : t) : bool :=
  match get k m with Some _ => true | None => false end.

(** [Map.prototype.set]: an existing key keeps its position. *)
Fixpoint set (k : string) (v : V) (m : t) : t :=
  match m with
  | [] => [(k, v)]
  | (k', v') :: m' =>
      if String.eqb k k' then (k', v) :: m' else (k', v') :: set k v m'
  end.

Definition delete (k : string) (m : t) : t :=
  filter (fun e => negb (String.eqb k (fst e))) m.

Definition size (m : t) : Z := Z.of_nat (length m).

Definition keys (m : t) : list string := map fst m.

(** The keys of a [Map] are pairwise distinct. *)
Definition wf (m : t) : Prop := NoDup (keys m).
End WithValue.
Arguments t : clear implicits.
End JsMap.

(** [Array.prototype.slice(0, end)] for an integer [end]: a negative [end]
    counts from the end of the array. *)
Definition slice0 {A : Type} (e : Z) (l : list A) : list A :=
  if e <? 0 then firstn (Z.to_nat (Z.of_nat (length l) + e)) l
  else firstn (Z.to_nat e) l.

(** ** [Date] values

    The time value of a [Date] is an integral number of milliseconds of
    magnitude at most 8.64e15, or [NaN] for an Invalid Date.  [new Date(x)]
    of a number [x] outside that range is an Invalid Date, and [a > b] on
    dates compares the time values: it is false when either is [NaN]. *)

Module JsDate.
Definition maxTime : Z := 8640000000000000.

Definition representable (x : Z) : Prop := - maxTime <= x <= maxTime.

(** The time value of [new Date(x)]; [None] is [NaN]. *)
Definition ofNumber (x : Z) : option Z :=
  if (- maxTime <=? x) && (x <=? maxTime) then Some x else None.

Definition gt (a b : option Z) : bool :=
  match a, b with
  | Some x, Some y => x >? y
  | _, _ => false
  end.
End JsDate.

(** ** The cache service *)

Module CacheService.

Record CacheItem (T : Type) : Type := mkItem {
  key : string;
  data : T;
  timestamp : Z;
  expiresAt : Z;
  accessCount : Z;
  lastAccessed : Z
}.
Arguments mkItem {T}.
Arguments key {T}.
Arguments data {T}.
Arguments timestamp {T}.
Arguments expiresAt {T}.
Arguments accessCount {T}.
Arguments lastAccessed {T}.

Record CacheConfig : Type := mkConfig {
  defaultTtl : Z;
  maxSize : Z;
  cleanupInterval : Z;
  enablePersistence : bool
}.

(** The configuration the service is built with. *)
Definition config : CacheConfig :=
  {| defaultTtl := 5 * 60 * 1000;
     maxSize := 100;
     cleanupInterval := 60 * 1000;
     enablePersistence := true |}.

(** The same configuration with another capacity. *)
Definition withMaxSize (n : Z) (cfg : CacheConfig) : CacheConfig :=
  {| defaultTtl := defaultTtl cfg;
     maxSize := n;
     cleanupInterval := cleanupInterval cfg;
     enablePersistence := enablePersistence cfg |}.

Section WithPayload.
Context {T : Type}.

(** The private field [cache].  [notifyChange] and [saveToStorage] publish
    and persist copies of it and never write it; they are not part of the
    state below. *)
Definition Cache := JsMap.t (CacheItem T).

(** [ttl || this.config.defaultTtl]: an omitted ttl and the falsy number 0
    both select the default. *)
Definition expirationTime (cfg : CacheConfig) (ttl : option Z) : Z :=
  match ttl with
  | Some n => if n =? 0 then defaultTtl cfg else n
  | None => defaultTtl cfg
  end.

Definition isExpired (now : Z) (item : CacheItem T) : bool :=
  now >? expiresAt item.

(** The comparator of [enforceMaxSize],
    [a.lastAccessed.getTime() - b.lastAccessed.getTime()], under the stable
    [Array.prototype.sort]: an item goes before the first item of the
    sorted rest that is not older than it. *)
Fixpoint insertByLastAccessed (x : string * CacheItem T)
    (l : list (string * CacheItem T)) : list (string * CacheItem T) :=
  match l with
  | [] => [x]
  | y :: l' =>
      if lastAccessed (snd x) - lastAccessed (snd y) <=? 0
      then x :: l
      else y :: insertByLastAccessed x l'
  end.

Definition sortByLastAccessed (l : list (string * CacheItem T))
  : list (string * CacheItem T) :=
  fold_right insertByLastAccessed [] l.

Definition deleteAll (ks : list string) (c : Cache) : Cache :=
  fold_left (fun m k => JsMap.delete k m) ks c.

Definition enforceMaxSize (cfg : CacheConfig) (c : Cache) : Cache :=
  if JsMap.size c <=? maxSize cfg then c
  else
    let items := sortByLastAccessed c in
    let itemsToRemove := slice0 (JsMap.size c - maxSize cfg) items in
    deleteAll (map fst itemsToRemove) c.

(** The item [set] builds.  [expiresAt] is the time value of
    [new Date(now.getTime() + expirationTime)] when that sum is
    [JsDate.representable].  A sum above the range gives an Invalid Date,
    which [isExpired] and [cleanup] never find expired, as they never find
    expired the sum itself at any clock reading; a sum below the range gives
    an Invalid Date too, and there the sum is not its time value. *)
Definition newItem (cfg : CacheConfig) (now : Z) (k : string) (d : T)
    (ttl : option Z) : CacheItem T :=
  {| key := k;
     data := d;
     timestamp := now;
     expiresAt := now + expirationTime cfg ttl;
     accessCount := 0;
     lastAccessed := now |}.

Definition set (cfg : CacheConfig) (now : Z) (k : string) (d : T)
    (ttl : option Z) (c : Cache) : Cache :=
  enforceMaxSize cfg (JsMap.set k (newItem cfg now k d ttl) c).

Definition touch (now : Z) (item : CacheItem T) : CacheItem T :=
  {| key := key item;
     data := data item;
     timestamp := timestamp item;
     expiresAt := expiresAt item;
     accessCount := accessCount item + 1;
     lastAccessed := now |}.

Definition get (now : Z) (k : string) (c : Cache) : option T * Cache :=
  match JsMap.get k c with
  | None => (None, c)
  | Some item =>
      if isExpired now item then (None, JsMap.delete k c)
      else (Some (data item), JsMap.set k (touch now item) c)
  end.

Definition has (now : Z) (k : string) (c : Cache) : bool * Cache :=
  match JsMap.get k c with
  | None => (false, c)
  | Some item =>
      if isExpired now item then (false, JsMap.delete k c) else (true, c)
  end.

Definition delete (k : string) (c : Cache) : bool * Cache :=
  (JsMap.has k c, JsMap.delete k c).

Definition clear (c : Cache) : Cache := JsMap.empty.

Definition cleanup (now : Z) (c : Cache) : Cache :=
  let keysToDelete :=
    map fst (filter (fun e => now >? expiresAt (snd e)) c) in
  deleteAll keysToDelete c.

Definition keys (now : Z) (c : Cache) : list string * Cache :=
  let c' := cleanup now c in (JsMap.keys c', c').

Definition size (now : Z) (c : Cache) : Z * Cache :=
  let c' := cleanup now c in (JsMap.size c', c').

(** [loadFromStorage], run by the constructor on the entries parsed from
    the ['cache-service'] item of [localStorage] ([None] when the item is
    absent or does not parse): the entries that expire after [now] are put
    into the cache in their stored order. *)
Definition loadFromStorage (cfg : CacheConfig) (now : Z)
    (parsed : option (list (string * CacheItem T))) (c : Cache) : Cache :=
  if negb (enablePersistence cfg) then c
  else
    match parsed with
    | None => c
    | Some entries =>
        fold_left
          (fun m e =>
             if expiresAt (snd e) >? now then JsMap.set (fst e) (snd e) m
             else m)
          entries c
    end.

(** The cache of a service right after its constructor ran. *)
Definition construct (cfg : CacheConfig) (now : Z)
    (parsed : option (list (string * CacheItem T))) : Cache :=
  loadFromStorage cfg now parsed JsMap.empty.

(** The public operations and the periodic cleanup, as one step function
    on the cache. *)
Inductive Op : Type :=
| OpSet (now : Z) (k : string) (d : T) (ttl : option Z)
| OpGet (now : Z) (k : string)
| OpHas (now : Z) (k : string)
| OpDelete (k : string)
| OpClear
| OpCleanup (now : Z)
| OpKeys (now : Z)
| OpSize (now : Z).

Definition step (cfg : CacheConfig) (c : Cache) (op : Op) : Cache :=
  match op with
  | OpSet now k d ttl => set cfg now k d ttl c
  | OpGet now k => snd (get now k c)
  | OpHas now k => snd (has now k c)
  | OpDelete k => snd (delete k c)
  | OpClear => clear c
  | OpCleanup now => cleanup now c
  | OpKeys now => snd (keys now c)
  | OpSize now => snd (size now c)
  end.

Definition run (cfg : CacheConfig) (ops : list Op) (c : Cache) : Cache :=
  fold_left (step cfg) ops c.

(** The clock reading of an operation, if it reads the clock. *)
Definition opTime (op : Op) : option Z :=
  match op with
  | OpSet now _ _ _ | OpGet now _ | OpHas now _
  | OpCleanup now | OpKeys now | OpSize now => Some now
  | OpDelete _ | OpClear => None
  end.

(** A monotonic clock: the readings of the operations of a run never
    decrease, starting from [now]. *)
Fixpoint clockMonotonic (now : Z) (ops : list Op) : Prop :=
  match ops with
  | [] => True
  | op :: ops' =>
      match opTime op with
      | Some t => now <= t /\ clockMonotonic t ops'
      | None => clockMonotonic now ops'
      end
  end.

(** The last clock reading of a run that starts at [now]. *)
Fixpoint endTime (now : Z) (ops : list Op) : Z :=
  match ops with
  | [] => now
  | op :: ops' =>
      endTime (match opTime op with Some t => t | None => now end) ops'
  end.
End WithPayload.
Arguments Cache : clear implicits.
Arguments Op : clear implicits.

End CacheService.

(** ** Data of [guards/auth.guard.ts] *)

(** [AuthUser]; the [profile] and [settings] sub-records and [lastLogin] are
    never read by the guard or the service and are left out. *)
Module AuthUser.
Record t : Type := mk {
  id : Z;
  email : string;
  roles : list string;
  permissions : list string;
  isActive : bool
}.
End AuthUser.

Module AuthState.
Record t : Type := mk {
  isAuthenticated : bool;
  user : option AuthUser.t;
  token : option string;
  refreshToken : option string;
  expiresAt : option Z;
  loginTime : option Z;
  lastActivity : option Z
}.
End AuthState.

(** The [data] of a route, read through [routeData?.requiredRoles],
    [routeData?.requiredPermissions] and [routeData?.requiresSecureAccess]. *)
Module RouteData.
Record t : Type := mk {
  requiredRoles : option (list string);
  requiredPermissions : option (list string);
  requiresSecureAccess : bool
}.
End RouteData.

(** [expiresAt] is the timestamp [new Date(response.expiresAt)] denotes. *)
Module LoginResponse.
Record t : Type := mk {
  success : bool;
  message : option string;
  user : AuthUser.t;
  token : string;
  refreshToken : string;
  expiresAt : Z;
  sessionId : string
}.
End LoginResponse.

Module RefreshTokenResponse.
Record t : Type := mk {
  success : bool;
  token : string;
  expiresAt : Z;
  sessionId : string
}.
End RefreshTokenResponse.

Inductive LogoutReason : Type :=
| user_logout
| session_timeout
| security_logout.

(** Calls on the logger, the notification service, the router and the HTTP
    client, by method and message (the structured payload of a log call is
    not kept). *)
Inductive Call : Type :=
| LogInfo (msg : string)
| LogWarning (msg : string)
| LogError (msg : string)
| ShowError (title msg : string)
| ShowWarning (title msg : string)
| Navigate (path : string)
| HttpPost (url : string).

(** Truthiness of a [string | null]. *)
Definition truthy (s : option string) : bool :=
  match s with
  | Some EmptyString => false
  | Some _ => true
  | None => false
  end.

Definition isSome {A : Type} (o : option A) : bool :=
  match o with Some _ => true | None => false end.

(** ** The guard *)

Module AuthGuard.
Local Open Scope string_scope.
Local Open Scope Z_scope.

Definition isTokenExpired (now : Z) (expiresAt : option Z) : bool :=
  match expiresAt with
  | None => true
  | Some expiresAt =>
      let bufferTime := 5 * 60 * 1000 in
      now >=? expiresAt - bufferTime
  end.

Definition isSessionExpired (now : Z) (lastActivity : option Z) : bool :=
  match lastActivity with
  | None => false
  | Some lastActivity =>
      let maxInactiveTime := 30 * 60 * 1000 in
      now - lastActivity >? maxInactiveTime
  end.

Definition includes (l : list string) (x : string) : bool :=
  existsb (String.eqb x) l.

Definition hasRequiredRoles (user : AuthUser.t) (requiredRoles : list string)
  : bool :=
  match requiredRoles with
  | [] => true
  | _ => forallb (fun role => includes (AuthUser.roles user) role)
           requiredRoles
  end.

Definition hasRequiredPermissions (user : AuthUser.t)
    (requiredPermissions : list string) : bool :=
  match requiredPermissions with
  | [] => true
  | _ => forallb (fun permission =>
                    includes (AuthUser.permissions user) permission)
           requiredPermissions
  end.

Definition hasSecureAccess (now : Z) (authState : AuthState.t) : bool :=
  match AuthState.loginTime authState with
  | None => false
  | Some loginTime =>
      let secureAccessWindow := 60 * 60 * 1000 in
      now - loginTime <? secureAccessWindow
  end.

(** [routeData?.requiredRoles && !this.hasRequiredRoles(...)] and its two
    siblings. *)
Definition lacksRoles (user : AuthUser.t) (routeData : option RouteData.t)
  : bool :=
  match routeData with
  | Some rd =>
      match RouteData.requiredRoles rd with
      | Some rs => negb (hasRequiredRoles user rs)
      | None => false
      end
  | None => false
  end.

Definition lacksPermissions (user : AuthUser.t)
    (routeData : option RouteData.t) : bool :=
  match routeData with
  | Some rd =>
      match RouteData.requiredPermissions rd with
      | Some ps => negb (hasRequiredPermissions user ps)
      | None => false
      end
  | None => false
  end.

Definition lacksSecureAccess (now : Z) (authState : AuthState.t)
    (routeData : option RouteData.t) : bool :=
  match routeData with
  | Some rd =>
      RouteData.requiresSecureAccess rd && negb (hasSecureAccess now authState)
  | None => false
  end.

(** [validateAuthState]: the boolean it returns and the calls it makes on
    the logger and the notification service, in order. *)
Definition validateAuthState (now : Z) (authState : AuthState.t)
    (routeData : option RouteData.t) : bool * list Call :=
  match AuthState.isAuthenticated authState, AuthState.user authState with
  | true, Some user =>
      if negb (AuthUser.isActive user) then
        (false,
         [ShowError "Account Suspended"
            "Your account has been suspended. Please contact support.";
          LogWarning "Inactive user attempted access"])
      else if isTokenExpired now (AuthState.expiresAt authState) then
        (false, [LogInfo "Token expired"])
      else if isSessionExpired now (AuthState.lastActivity authState) then
        (false,
         [LogInfo "Session expired due to inactivity";
          ShowWarning "Session Expired"
            "Your session has expired due to inactivity. Please log in again."])
      else if lacksRoles user routeData then
        (false, [LogWarning "User lacks required roles"])
      else if lacksPermissions user routeData then
        (false, [LogWarning "User lacks required permissions"])
      else if lacksSecureAccess now authState routeData then
        (false, [LogWarning "Secure access required but not available"])
      else (true, [])
  | _, _ => (false, [LogWarning "User not authenticated"])
  end.

End AuthGuard.

(** ** The session manager *)

Module AuthService.
Local Open Scope string_scope.
Local Open Scope Z_scope.

(** What [localStorage] holds under ['auth-state']: the empty string, a text
    on which the [try] block of [initializeAuthState] throws
    ([JSON.parse] or the reads that follow), or the JSON of a snapshot. *)
Inductive StoredItem : Type :=
| EmptyText
| Unparsable
| Snapshot (a : AuthState.t).

(** Which [localStorage] calls throw during one operation of the service.
    Each call of the source sits in a [try] whose [catch] logs and goes on. *)
Record StorageFaults : Type := mkFaults {
  getItemThrows : bool;
  setItemThrows : bool;
  removeItemThrows : bool
}.

Definition noFaults : StorageFaults := mkFaults false false false.

(** The outcome of an awaited HTTP call: the promise rejects, or resolves
    with a body or with [undefined]. *)
Inductive Reply (A : Type) : Type :=
| Rejects
| Resolves (body : option A).
Arguments Rejects {A}.
Arguments Resolves {A}.

Inductive Failure : Type :=
| Thrown (msg : string)
| HttpFailure.

Inductive Outcome (A : Type) : Type :=
| Returned (a : A)
| Threw (e : Failure).
Arguments Returned {A}.
Arguments Threw {A}.

(** The service: the value of [authStateSubject], the two timer handles, the
    ['auth-state'] item of [localStorage], the timers pending in [window]
    (identifier and due time of each timeout, identifier of each interval),
    and the calls made so far, oldest first. *)
Record t : Type := mk {
  authStateSubject : AuthState.t;
  refreshTokenTimer : option positive;
  activityCheckTimer : option positive;
  localStorage : option StoredItem;
  timeouts : list (positive * Z);
  intervals : list positive;
  nextTimerId : positive;
  calls : list Call
}.

Definition emptyAuthState : AuthState.t :=
  {| AuthState.isAuthenticated := false;
     AuthState.user := None;
     AuthState.token := None;
     AuthState.refreshToken := None;
     AuthState.expiresAt := None;
     AuthState.loginTime := None;
     AuthState.lastActivity := None |}.

Definition next (a : AuthState.t) (s : t) : t :=
  mk a (refreshTokenTimer s) (activityCheckTimer s) (localStorage s)
     (timeouts s) (intervals s) (nextTimerId s) (calls s).

Definition setStorage (v : option StoredItem) (s : t) : t :=
  mk (authStateSubject s) (refreshTokenTimer s) (activityCheckTimer s) v
     (timeouts s) (intervals s) (nextTimerId s) (calls s).

Definition call (c : Call) (s : t) : t :=
  mk (authStateSubject s) (refreshTokenTimer s) (activityCheckTimer s)
     (localStorage s) (timeouts s) (intervals s) (nextTimerId s)
     (calls s ++ [c]).

(** The [timeout] argument of [window.setTimeout] is a 32-bit signed
    integer: the number passed is reduced modulo [2^32] into
    [-2^31 .. 2^31 - 1], and a negative delay counts as zero. *)
Definition toInt32 (x : Z) : Z := (x + 2 ^ 31) mod 2 ^ 32 - 2 ^ 31.

Definition timerDelay (timeout : Z) : Z := Z.max 0 (toInt32 timeout).

(** [window.setTimeout] called at [now], [clearTimeout],
    [window.setInterval], [clearInterval].  A timeout is kept with the time
    at which it is due. *)
Definition setTimeout (now : Z) (timeout : Z) (s : t) : positive * t :=
  let id := nextTimerId s in
  (id, mk (authStateSubject s) (refreshTokenTimer s) (activityCheckTimer s)
          (localStorage s) (timeouts s ++ [(id, now + timerDelay timeout)])
          (intervals s) (Pos.succ id) (calls s)).

Definition clearTimeout (id : positive) (s : t) : t :=
  mk (authStateSubject s) (refreshTokenTimer s) (activityCheckTimer s)
     (localStorage s)
     (filter (fun e => negb (Pos.eqb (fst e) id)) (timeouts s))
     (intervals s) (nextTimerId s) (calls s).

Definition setInterval (s : t) : positive * t :=
  let id := nextTimerId s in
  (id, mk (authStateSubject s) (refreshTokenTimer s) (activityCheckTimer s)
          (localStorage s) (timeouts s) (intervals s ++ [id])
          (Pos.succ id) (calls s)).

Definition clearInterval (id : positive) (s : t) : t :=
  mk (authStateSubject s) (refreshTokenTimer s) (activityCheckTimer s)
     (localStorage s) (timeouts s)
     (filter (fun i => negb (Pos.eqb i id)) (intervals s))
     (nextTimerId s) (calls s).

Definition setRefreshTokenTimer (h : option positive) (s : t) : t :=
  mk (authStateSubject s) h (activityCheckTimer s) (localStorage s)
     (timeouts s) (intervals s) (nextTimerId s) (calls s).

Definition setActivityCheckTimer (h : option positive) (s : t) : t :=
  mk (authStateSubject s) (refreshTokenTimer s) h (localStorage s)
     (timeouts s) (intervals s) (nextTimerId s) (calls s).

Definition clearRefreshTimer (s : t) : t :=
  match refreshTokenTimer s with
  | Some id => setRefreshTokenTimer None (clearTimeout id s)
  | None => s
  end.

Definition clearActivityTimer (s : t) : t :=
  match activityCheckTimer s with
  | Some id => setActivityCheckTimer None (clearInterval id s)
  | None => s
  end.

Definition clearTimers (s : t) : t :=
  clearActivityTimer (clearRefreshTimer s).

Definition isValidStoredAuth (now : Z) (authState : AuthState.t) : bool :=
  AuthState.isAuthenticated authState
  && isSome (AuthState.user authState)
  && truthy (AuthState.token authState)
  && match AuthState.expiresAt authState with
     | Some expiresAt => expiresAt >? now
     | None => false
     end.

Definition storeAuthState (env : StorageFaults) (authState : AuthState.t)
    (s : t) : t :=
  let stateToStore :=
    {| AuthState.isAuthenticated := AuthState.isAuthenticated authState;
       AuthState.user := AuthState.user authState;
       AuthState.token :=
         if AuthState.isAuthenticated authState
         then AuthState.token authState else None;
       AuthState.refreshToken :=
         if AuthState.isAuthenticated authState
         then AuthState.refreshToken authState else None;
       AuthState.expiresAt := AuthState.expiresAt authState;
       AuthState.loginTime := AuthState.loginTime authState;
       AuthState.lastActivity := AuthState.lastActivity authState |} in
  if setItemThrows env then call (LogError "Failed to store auth state") s
  else setStorage (Some (Snapshot stateToStore)) s.

Definition clearStoredAuth (env : StorageFaults) (s : t) : t :=
  if removeItemThrows env then call (LogError "Failed to clear stored auth") s
  else setStorage None s.

Definition updateAuthState (env : StorageFaults) (authState : AuthState.t)
    (s : t) : t :=
  storeAuthState env authState (next authState s).

Definition clearAuthState (env : StorageFaults) (s : t) : t :=
  let clearedState := emptyAuthState in
  clearStoredAuth env (updateAuthState env clearedState s).

(** The timer armed by [scheduleTokenRefresh] is given the delay
    [refreshTime]; its callback is [scheduledRefresh] below. *)
Definition scheduleTokenRefresh (now : Z) (expiresAt : option Z) (s : t) : t :=
  let s := clearRefreshTimer s in
  match expiresAt with
  | None => s
  | Some expiresAt =>
      let refreshTime := expiresAt - now - 10 * 60 * 1000 in
      if refreshTime >? 0 then
        let (id, s) := setTimeout now refreshTime s in
        setRefreshTokenTimer (Some id) s
      else s
  end.

Definition login (env : StorageFaults) (now : Z)
    (reply : Reply LoginResponse.t) (s : t) : Outcome AuthState.t * t :=
  let s := call (LogInfo "Login attempt started") s in
  let s := call (HttpPost "/api/auth/login") s in
  let failed (s : t) :=
    (Threw (Thrown "Login failed. Please check your credentials."),
     call (LogError "Login failed") s) in
  match reply with
  | Resolves (Some response) =>
      if LoginResponse.success response then
        let authState :=
          {| AuthState.isAuthenticated := true;
             AuthState.user := Some (LoginResponse.user response);
             AuthState.token := Some (LoginResponse.token response);
             AuthState.refreshToken :=
               Some (LoginResponse.refreshToken response);
             AuthState.expiresAt := Some (LoginResponse.expiresAt response);
             AuthState.loginTime := Some now;
             AuthState.lastActivity := Some now |} in
        let s := updateAuthState env authState s in
        let s := scheduleTokenRefresh now (AuthState.expiresAt authState) s in
        let s := call (LogInfo "Login successful") s in
        (Returned authState, s)
      else failed s
  | Resolves None => failed s
  | Rejects => failed s
  end.

Definition logout (env : StorageFaults) (reason : LogoutReason)
    (reply : Reply unit) (s : t) : t :=
  let currentState := authStateSubject s in
  let s :=
    if truthy (AuthState.token currentState) then
      let s := call (HttpPost "/api/auth/logout") s in
      match reply with
      | Resolves _ => call (LogInfo "Logout successful") s
      | Rejects => call (LogError "Logout request failed") s
      end
    else s in
  let s := clearAuthState env s in
  let s := clearTimers s in
  call (Navigate "/login") s.

Definition refreshToken (env : StorageFaults) (now : Z)
    (reply : Reply RefreshTokenResponse.t) (s : t)
  : Outcome AuthState.t * t :=
  let currentState := authStateSubject s in
  let failed (error : Failure) (s : t) :=
    (Threw error,
     clearAuthState env (call (LogError "Token refresh failed") s)) in
  if negb (truthy (AuthState.refreshToken currentState)) then
    failed (Thrown "No refresh token available") s
  else
    let s := call (HttpPost "/api/auth/refresh") s in
    match reply with
    | Rejects => failed HttpFailure s
    | Resolves None => failed (Thrown "Token refresh failed") s
    | Resolves (Some response) =>
        if RefreshTokenResponse.success response then
          let newAuthState :=
            {| AuthState.isAuthenticated :=
                 AuthState.isAuthenticated currentState;
               AuthState.user := AuthState.user currentState;
               AuthState.token := Some (RefreshTokenResponse.token response);
               AuthState.refreshToken := AuthState.refreshToken currentState;
               AuthState.expiresAt :=
                 Some (RefreshTokenResponse.expiresAt response);
               AuthState.loginTime := AuthState.loginTime currentState;
               AuthState.lastActivity := Some now |} in
          let s := updateAuthState env newAuthState s in
          let s :=
            scheduleTokenRefresh now (AuthState.expiresAt newAuthState) s in
          let s := call (LogInfo "Token refresh successful") s in
          (Returned newAuthState, s)
        else failed (Thrown "Token refresh failed") s
    end.

Definition updateLastActivity (now : Z) (s : t) : t :=
  let currentState := authStateSubject s in
  if AuthState.isAuthenticated currentState then
    let updatedState :=
      {| AuthState.isAuthenticated := AuthState.isAuthenticated currentState;
         AuthState.user := AuthState.user currentState;
         AuthState.token := AuthState.token currentState;
         AuthState.refreshToken := AuthState.refreshToken currentState;
         AuthState.expiresAt := AuthState.expiresAt currentState;
         AuthState.loginTime := AuthState.loginTime currentState;
         AuthState.lastActivity := Some now |} in
    next updatedState s
  else s.

Definition initializeAuthState (env : StorageFaults) (now : Z) (s : t) : t :=
  let caught (s : t) :=
    clearAuthState env
      (call (LogError "Failed to initialize auth state") s) in
  if getItemThrows env then caught s
  else
    match localStorage s with
    | None => s
    | Some EmptyText => s
    | Some Unparsable => caught s
    | Some (Snapshot authState) =>
        if isValidStoredAuth now authState then
          let s := next authState s in
          let s :=
            scheduleTokenRefresh now (AuthState.expiresAt authState) s in
          call (LogInfo "Auth state restored from storage") s
        else
          let s := clearAuthState env s in
          call (LogInfo "Invalid stored auth state cleared") s
    end.

Definition setupActivityMonitoring (s : t) : t :=
  let (id, s) := setInterval s in
  setActivityCheckTimer (Some id) s.

(** The body of the interval callback of [setupActivityMonitoring]. *)
Definition activityCheck (env : StorageFaults) (now : Z)
    (logoutReply : Reply unit) (s : t) : t :=
  let currentState := authStateSubject s in
  match AuthState.isAuthenticated currentState,
        AuthState.lastActivity currentState with
  | true, Some lastActivity =>
      let maxInactiveTime := 30 * 60 * 1000 in
      if now - lastActivity >? maxInactiveTime then
        let s :=
          call (ShowWarning "Session Expired"
                  "Your session has expired due to inactivity.") s in
        logout env session_timeout logoutReply s
      else s
  | _, _ => s
  end.

(** The body of the timeout callback of [scheduleTokenRefresh]:
    [this.refreshToken().catch(error => { ...; this.logout('session_timeout') })]. *)
Definition scheduledRefresh (env : StorageFaults) (now : Z)
    (reply : Reply RefreshTokenResponse.t) (logoutReply : Reply unit)
    (s : t) : t :=
  match refreshToken env now reply s with
  | (Returned _, s) => s
  | (Threw _, s) =>
      let s := call (LogError "Scheduled token refresh failed") s in
      logout env session_timeout logoutReply s
  end.

(** The service right after its constructor ran, over a [localStorage] that
    holds [stored]. *)
Definition construct (env : StorageFaults) (now : Z)
    (stored : option StoredItem) : t :=
  let s :=
    {| authStateSubject := emptyAuthState;
       refreshTokenTimer := None;
       activityCheckTimer := None;
       localStorage := stored;
       timeouts := [];
       intervals := [];
       nextTimerId := 1%positive;
       calls := [] |} in
  setupActivityMonitoring (initializeAuthState env now s).

(** What can happen to a constructed service: a public method is called, or
    the window fires one of the two timers.  A timeout fires once, when it
    is pending and due; the interval fires while it is set. *)
Inductive Op : Type :=
| OpLogin (reply : Reply LoginResponse.t)
| OpLogout (reason : LogoutReason) (reply : Reply unit)
| OpRefreshToken (reply : Reply RefreshTokenResponse.t)
| OpUpdateLastActivity
| OpClearAuthState
| OpTimeoutFires (id : positive) (reply : Reply RefreshTokenResponse.t)
    (logoutReply : Reply unit)
| OpIntervalFires (id : positive) (logoutReply : Reply unit).

Definition isPendingAt (now : Z) (id : positive) (s : t) : bool :=
  existsb (fun e => Pos.eqb (fst e) id && (snd e <=? now)) (timeouts s).

Definition step (env : StorageFaults) (now : Z) (op : Op) (s : t) : t :=
  match op with
  | OpLogin reply => snd (login env now reply s)
  | OpLogout reason reply => logout env reason reply s
  | OpRefreshToken reply => snd (refreshToken env now reply s)
  | OpUpdateLastActivity => updateLastActivity now s
  | OpClearAuthState => clearAuthState env s
  | OpTimeoutFires id reply logoutReply =>
      if isPendingAt now id s
      then scheduledRefresh env now reply logoutReply (clearTimeout id s)
      else s
  | OpIntervalFires id logoutReply =>
      if existsb (Pos.eqb id) (intervals s)
      then activityCheck env now logoutReply s
      else s
  end.

(** A run: each operation with the storage faults and the clock reading it
    meets. *)
Fixpoint run (ops : list (StorageFaults * Z * Op)) (s : t) : t :=
  match ops with
  | [] => s
  | (env, now, op) :: ops' => run ops' (step env now op s)
  end.

(** [currentState()] of the spec: the latest snapshot. *)
Definition currentState (s : t) : AuthState.t := authStateSubject s.

End AuthService.

(** ** The decision procedure and the invariants, in the words of the
    specification *)

Module Spec.
Local Open Scope string_scope.
Local Open Scope Z_scope.

Inductive DenyReason : Type :=
| NotAuthenticated
| AccountInactive
| TokenExpired
| SessionInactive
| InsufficientRole
| InsufficientPermission
| StepUpRequired.

Inductive Decision : Type :=
| Allow
| Deny (reason : DenyReason).

(** [SessionState] is [AuthState.t] ([principal] is [user], [accessToken]
    is [token], [establishedAt] is [loginTime], [lastActivityAt] is
    [lastActivity]). *)
Record AccessRequest : Type := mkRequest {
  requiredRoles : list string;
  requiredPermissions : list string;
  requiresRecentAuthentication : bool
}.

(** The request a route's data stands for: an absent list requires
    nothing. *)
Definition requestOf (routeData : option RouteData.t) : AccessRequest :=
  match routeData with
  | None => mkRequest [] [] false
  | Some rd =>
      mkRequest
        (match RouteData.requiredRoles rd with Some l => l | None => [] end)
        (match RouteData.requiredPermissions rd with
         | Some l => l | None => [] end)
        (RouteData.requiresSecureAccess rd)
  end.

Definition tokenExpiryBuffer : Z := 5 * 60 * 1000.
Definition maxInactiveDuration : Z := 30 * 60 * 1000.
Definition secureAccessWindow : Z := 60 * 60 * 1000.

(** The invariant of [SessionState]: an authenticated state carries a
    principal, an access token and an expiry. *)
Definition SessionInvariant (state : AuthState.t) : Prop :=
  AuthState.isAuthenticated state = true ->
  AuthState.user state <> None
  /\ AuthState.token state <> None
  /\ AuthState.expiresAt state <> None.

Definition member (x : string) (l : list string) : bool :=
  if in_dec string_dec x l then true else false.

Definition principalRoles (state : AuthState.t) : list string :=
  match AuthState.user state with Some p => AuthUser.roles p | None => [] end.

Definition principalPermissions (state : AuthState.t) : list string :=
  match AuthState.user state with
  | Some p => AuthUser.permissions p
  | None => []
  end.

(** The seven checks of section 4.3, in order, each with the denial it
    stands for.  A comparison on an absent field does not hold.  [within]
    is the comparison of the step-up check: [Z.leb] as the section words
    it. *)
Definition checks (within : Z -> Z -> bool) (state : AuthState.t)
    (request : AccessRequest) (now : Z) : list (bool * DenyReason) :=
  [ (AuthState.isAuthenticated state, NotAuthenticated);
    (match AuthState.user state with
     | Some p => AuthUser.isActive p
     | None => false
     end, AccountInactive);
    (match AuthState.expiresAt state with
     | Some e => now <? e - tokenExpiryBuffer
     | None => false
     end, TokenExpired);
    (match AuthState.lastActivity state with
     | Some l => now - l <=? maxInactiveDuration
     | None => true
     end, SessionInactive);
    (forallb (fun r => member r (principalRoles state))
       (requiredRoles request), InsufficientRole);
    (forallb (fun p => member p (principalPermissions state))
       (requiredPermissions request), InsufficientPermission);
    (if requiresRecentAuthentication request
     then match AuthState.loginTime state with
          | Some e => within (now - e) secureAccessWindow
          | None => false
          end
     else true, StepUpRequired) ].

Definition firstFailure (cs : list (bool * DenyReason)) : Decision :=
  match find (fun c => negb (fst c)) cs with
  | Some (_, reason) => Deny reason
  | None => Allow
  end.

Definition authorizeWith (within : Z -> Z -> bool) (state : AuthState.t)
    (request : AccessRequest) (now : Z) : Decision :=
  firstFailure (checks within state request now).

(** [authorize] as section 4.3 states it. *)
Definition authorize : AuthState.t -> AccessRequest -> Z -> Decision :=
  authorizeWith Z.leb.

(** [authorize] with the step-up window taken strictly. *)
Definition authorizeStrict : AuthState.t -> AccessRequest -> Z -> Decision :=
  authorizeWith Z.ltb.

(** What the guard does for each decision: the boolean it returns and the
    calls of the branch that denies. *)
Definition denialCalls (reason : DenyReason) : list Call :=
  match reason with
  | NotAuthenticated => [LogWarning "User not authenticated"]
  | AccountInactive =>
      [ShowError "Account Suspended"
         "Your account has been suspended. Please contact support.";
       LogWarning "Inactive user attempted access"]
  | TokenExpired => [LogInfo "Token expired"]
  | SessionInactive =>
      [LogInfo "Session expired due to inactivity";
       ShowWarning "Session Expired"
         "Your session has expired due to inactivity. Please log in again."]
  | InsufficientRole => [LogWarning "User lacks required roles"]
  | InsufficientPermission => [LogWarning "User lacks required permissions"]
  | StepUpRequired => [LogWarning "Secure access required but not available"]
  end.

Definition verdict (d : Decision) : bool * list Call :=
  match d with
  | Allow => (true, [])
  | Deny reason => (false, denialCalls reason)
  end.

(** The cache invariant of section 3, together with what a monotonic clock
    gives: keys are unique, the capacity bound holds and no entry was
    accessed after [now]. *)
Definition cacheInv {T : Type} (cfg : CacheService.CacheConfig) (now : Z)
    (c : CacheService.Cache T) : Prop :=
  JsMap.wf c
  /\ JsMap.size c <= CacheService.maxSize cfg
  /\ Forall (fun e => CacheService.lastAccessed (snd e) <= now) c.

(** Durable storage holds a valid authenticated snapshot at [now]: what
    [initializeAuthState] would restore. *)
Definition holdsValidSnapshot (now : Z)
    (stored : option AuthService.StoredItem) : Prop :=
  exists a, stored = Some (AuthService.Snapshot a)
            /\ AuthService.isValidStoredAuth now a = true.


(** Every timeout pending in the window is the one whose identifier the
    service holds in [refreshTokenTimer]: at most one refresh timer is
    pending, and the service can cancel it. *)
Definition refreshTimerTracked (s : AuthService.t) : Prop :=
  forall id due,
    In (id, due) (AuthService.timeouts s) ->
    AuthService.refreshTokenTimer s = Some id.

End Spec.

(** ** The rest of the cache service *)

Module CacheQueries.
Import CacheService.

Section WithItems.
Context {T : Type}.

(** [getOldestItem]: [reduce] without an initial value starts from the first
    value of the map and keeps the accumulator unless the current item is
    strictly older. *)
Definition getOldestItem (c : Cache T) : option (CacheItem T) :=
  match map snd c with
  | [] => None
  | first :: rest =>
      Some (fold_left
              (fun oldest current =>
                 if timestamp current <? timestamp oldest
                 then current else oldest)
              rest first)
  end.

Definition getNewestItem (c : Cache T) : option (CacheItem T) :=
  match map snd c with
  | [] => None
  | first :: rest =>
      Some (fold_left
              (fun newest current =>
                 if timestamp current >? timestamp newest
                 then current else newest)
              rest first)
  end.


(** An entry is coherent between [start] and [now]: it is stored under its
    own key, was created at or after [start], was last accessed between its
    creation and [now], and its access count is not negative. *)
Definition coherentEntry (start now : Z) (e : string * CacheItem T) : Prop :=
  key (snd e) = fst e
  /\ start <= timestamp (snd e)
  /\ timestamp (snd e) <= lastAccessed (snd e)
  /\ lastAccessed (snd e) <= now
  /\ 0 <= accessCount (snd e).
End WithItems.

End CacheQueries.

(** ** What the guard does after a rejection *)

Module GuardRouting.
Local Open Scope string_scope.
Local Open Scope list_scope.

(** A call on the logger or the notifier, [router.navigate([path],
    { queryParams })], or [this.authService.updateLastActivity()]. *)
Inductive Effect : Type :=
| Notify (c : Call)
| NavigateTo (path : string) (queryParams : list (string * string))
| UpdateLastActivity.



Definition handleAuthError (url : string) : list Effect :=
  [Notify (ShowError "Authentication Error"
             "An error occurred while checking authentication. Please try again.");
   NavigateTo "/login" [("returnUrl", url); ("error", "auth_check_failed")]].


End GuardRouting.

(** ** The notifications of the state management service *)

Module StateManagementService.
Local Open Scope string_scope.
Local Open Scope Z_scope.

Inductive NotificationType : Type := info | success | warning | error.

Record NotificationItem : Type := mkNotification {
  id : string;
  type : NotificationType;
  title : string;
  message : string;
  read : bool;
  timestamp : Z
}.

(** [Omit<NotificationItem, 'id'>]. *)
Record NewNotification : Type := mkNew {
  newType : NotificationType;
  newTitle : string;
  newMessage : string;
  newRead : bool;
  newTimestamp : Z
}.

Record NotificationPreferences : Type := mkPreferences {
  email : bool;
  push : bool;
  sound : bool
}.

Record NotificationState : Type := mkNotifications {
  unreadCount : Z;
  items : list NotificationItem;
  preferences : NotificationPreferences
}.

Section WithState.
(** The three other parts of [AppState]; the methods below copy them
    over. *)
Context {UserState UiState DataState : Type}.

Record AppState : Type := mkState {
  user : UserState;
  ui : UiState;
  data : DataState;
  notifications : NotificationState
}.

Definition initialNotifications : NotificationState :=
  {| unreadCount := 0;
     items := [];
     preferences := {| email := true; push := true; sound := false |} |}.

(** [addNotification]; [generatedId] is what [this.generateId()] returns. *)
Definition addNotification (generatedId : string)
    (notification : NewNotification) (currentState : AppState) : AppState :=
  let newNotification :=
    {| id := generatedId;
       type := newType notification;
       title := newTitle notification;
       message := newMessage notification;
       read := newRead notification;
       timestamp := newTimestamp notification |} in
  {| user := user currentState;
     ui := ui currentState;
     data := data currentState;
     notifications :=
       {| unreadCount := unreadCount (notifications currentState) + 1;
          items := newNotification :: items (notifications currentState);
          preferences := preferences (notifications currentState) |} |}.

Definition markRead (item : NotificationItem) : NotificationItem :=
  {| id := id item;
     type := type item;
     title := title item;
     message := message item;
     read := true;
     timestamp := timestamp item |}.

Definition markNotificationAsRead (id' : string) (currentState : AppState)
  : AppState :=
  let items' :=
    map (fun item => if String.eqb (id item) id' then markRead item else item)
      (items (notifications currentState)) in
  let unreadCount' :=
    Z.of_nat (length (filter (fun item => negb (read item)) items')) in
  {| user := user currentState;
     ui := ui currentState;
     data := data currentState;
     notifications :=
       {| unreadCount := unreadCount';
          items := items';
          preferences := preferences (notifications currentState) |} |}.

Definition clearAllNotifications (currentState : AppState) : AppState :=
  {| user := user currentState;
     ui := ui currentState;
     data := data currentState;
     notifications :=
       {| unreadCount := 0;
          items := [];
          preferences := preferences (notifications currentState) |} |}.

Inductive NotificationOp : Type :=
| OpAdd (generatedId : string) (notification : NewNotification)
| OpMarkRead (id' : string)
| OpClearAll.

Definition applyOp (st : AppState) (op : NotificationOp) : AppState :=
  match op with
  | OpAdd generatedId notification =>
      addNotification generatedId notification st
  | OpMarkRead id' => markNotificationAsRead id' st
  | OpClearAll => clearAllNotifications st
  end.

(** The number of notifications not yet read. *)
Definition unread (st : AppState) : Z :=
  Z.of_nat
    (length (filter (fun item => negb (read item))
               (items (notifications st)))).
End WithState.
Arguments AppState : clear implicits.

End StateManagementService.

(* ================================================================== *)
(** * Properties *)
(* ================================================================== *)

(** ** Facts about [JsMap] *)

Section JsMapFacts.
Context {V : Type}.
Implicit Types (m : JsMap.t V) (k : string) (v : V).

Lemma get_set_same k v m : JsMap.get k (JsMap.set k v m) = Some v.
Proof.
  induction m as [|[k' v'] m IH]; simpl.
  - now rewrite String.eqb_refl.
  - destruct (String.eqb k k') eqn:E; simpl; rewrite E; auto.
Qed.

Lemma get_set_other k k' v m :
  k <> k' -> JsMap.get k' (JsMap.set k v m) = JsMap.get k' m.
Proof.
  intros Hne. induction m as [|[k0 v0] m IH]; simpl.
  - destruct (String.eqb k' k) eqn:E; auto.
    apply String.eqb_eq in E. congruence.
  - destruct (String.eqb k k0) eqn:E; simpl.
    + apply String.eqb_eq in E. subst k0.
      destruct (String.eqb k' k) eqn:E'; auto.
      apply String.eqb_eq in E'. congruence.
    + now rewrite IH.
Qed.

Lemma get_None_notin k m :
  JsMap.get k m = None <-> ~ In k (JsMap.keys m).
Proof.
  induction m as [|[k' v'] m IH]; simpl.
  - tauto.
  - destruct (String.eqb k k') eqn:E.
    + apply String.eqb_eq in E. subst. split; [discriminate | tauto].
    + apply String.eqb_neq in E. rewrite IH. split.
      * intros H [H'|H']; [congruence | tauto].
      * tauto.
Qed.

Lemma get_Some_In k v m : JsMap.get k m = Some v -> In (k, v) m.
Proof.
  induction m as [|[k' v'] m IH]; simpl; [discriminate|].
  destruct (String.eqb k k') eqn:E.
  - apply String.eqb_eq in E. subst. intros [= ->]. now left.
  - auto.
Qed.

Lemma In_get k v m : JsMap.wf m -> In (k, v) m -> JsMap.get k m = Some v.
Proof.
  unfold JsMap.wf, JsMap.keys.
  induction m as [|[k' v'] m IH]; simpl; [tauto|].
  intros Hnd [H|H].
  - injection H as -> ->. now rewrite String.eqb_refl.
  - inversion Hnd as [|? ? Hnotin Hnd']; subst.
    destruct (String.eqb k k') eqn:E; auto.
    apply String.eqb_eq in E. subst k'.
    exfalso. apply Hnotin. change k with (fst (k, v)). now apply in_map.
Qed.

Lemma set_absent k v m :
  JsMap.get k m = None -> JsMap.set k v m = m ++ [(k, v)].
Proof.
  induction m as [|[k' v'] m IH]; simpl; auto.
  destruct (String.eqb k k'); [discriminate|].
  intros H. now rewrite IH.
Qed.

Lemma keys_set_present k v m :
  JsMap.get k m <> None -> JsMap.keys (JsMap.set k v m) = JsMap.keys m.
Proof.
  unfold JsMap.keys.
  induction m as [|[k' v'] m IH]; simpl; [congruence|].
  destruct (String.eqb k k'); simpl; auto.
  intros H. now rewrite IH.
Qed.

Lemma length_set_present k v m :
  JsMap.get k m <> None -> length (JsMap.set k v m) = length m.
Proof.
  intros H. apply keys_set_present with (v := v) in H.
  unfold JsMap.keys in H.
  now rewrite <- (length_map fst), H, length_map.
Qed.

Lemma wf_set k v m : JsMap.wf m -> JsMap.wf (JsMap.set k v m).
Proof.
  intros Hwf. destruct (JsMap.get k m) eqn:E.
  - unfold JsMap.wf. rewrite keys_set_present; [assumption | congruence].
  - rewrite set_absent by assumption.
    unfold JsMap.wf, JsMap.keys in *. rewrite map_app. simpl.
    apply NoDup_app; [assumption | repeat constructor; simpl; tauto |].
    intros a Ha [<-|[]]. revert Ha. now apply get_None_notin.
Qed.

Lemma wf_filter (p : string * V -> bool) m :
  JsMap.wf m -> JsMap.wf (filter p m).
Proof.
  unfold JsMap.wf, JsMap.keys.
  induction m as [|e m IH]; simpl; auto.
  intros Hnd. inversion Hnd as [|? ? Hnotin Hnd']; subst.
  destruct (p e); simpl; auto.
  constructor; auto.
  intros Hin. apply Hnotin.
  apply in_map_iff in Hin as [x [Hx Hin]].
  apply filter_In in Hin as [Hin _].
  rewrite <- Hx. now apply in_map.
Qed.

Lemma wf_delete k m : JsMap.wf m -> JsMap.wf (JsMap.delete k m).
Proof. apply wf_filter. Qed.

Lemma get_filter_keys (p : string -> bool) k m :
  JsMap.get k (filter (fun e => p (fst e)) m)
  = if p k then JsMap.get k m else None.
Proof.
  induction m as [|[k' v'] m IH]; simpl.
  - now destruct (p k).
  - destruct (p k') eqn:Ep; simpl.
    + destruct (String.eqb k k') eqn:E; auto.
      apply String.eqb_eq in E. subst. now rewrite Ep.
    + rewrite IH. destruct (String.eqb k k') eqn:E; auto.
      apply String.eqb_eq in E. subst. now rewrite Ep.
Qed.

Lemma get_delete_same k m : JsMap.get k (JsMap.delete k m) = None.
Proof.
  unfold JsMap.delete.
  rewrite (get_filter_keys (fun x => negb (String.eqb k x))).
  now rewrite String.eqb_refl.
Qed.

Lemma get_delete_other k k' m :
  k <> k' -> JsMap.get k' (JsMap.delete k m) = JsMap.get k' m.
Proof.
  intros Hne. unfold JsMap.delete.
  rewrite (get_filter_keys (fun x => negb (String.eqb k x))).
  apply String.eqb_neq in Hne. now rewrite Hne.
Qed.

Lemma length_delete_le k m : (length (JsMap.delete k m) <= length m)%nat.
Proof. apply filter_length_le. Qed.

Lemma delete_absent k m : JsMap.get k m = None -> JsMap.delete k m = m.
Proof.
  unfold JsMap.delete.
  induction m as [|[k' v'] m IH]; simpl; auto.
  destruct (String.eqb k k') eqn:E; [discriminate|]. simpl.
  intros H. now rewrite IH.
Qed.

(** Deleting the key of one entry of a well-formed map removes that entry
    and nothing else. *)
Lemma delete_middle k v (m1 m2 : JsMap.t V) :
  JsMap.wf (m1 ++ (k, v) :: m2) ->
  JsMap.delete k (m1 ++ (k, v) :: m2) = m1 ++ m2.
Proof.
  unfold JsMap.wf, JsMap.keys, JsMap.delete. intros Hnd.
  rewrite map_app in Hnd. simpl in Hnd.
  pose proof (NoDup_remove_2 _ _ _ Hnd) as Hnotin.
  rewrite filter_app. simpl. rewrite String.eqb_refl. simpl.
  assert (Hkeep : forall l : JsMap.t V,
             ~ In k (map fst l) ->
             filter (fun e => negb (String.eqb k (fst e))) l = l).
  { induction l as [|[k' v'] l IH]; simpl; auto.
    intros Hn. destruct (String.eqb k k') eqn:E.
    - apply String.eqb_eq in E. subst k'. tauto.
    - simpl. rewrite IH; [reflexivity | tauto]. }
  rewrite !Hkeep; auto; intros H; apply Hnotin, in_or_app; tauto.
Qed.
End JsMapFacts.

(** Closed comparisons of numbers are settled by evaluation. *)
Ltac ground := vm_compute; first [reflexivity | discriminate].

(** ** Facts about lists used below *)

Section ListFacts.
Context {A : Type}.

Lemma filter_twice (p q : A -> bool) (l : list A) :
  filter p (filter q l) = filter (fun x => q x && p x) l.
Proof.
  induction l as [|x l IH]; simpl; auto.
  destruct (q x); simpl; [destruct (p x)|]; now rewrite IH.
Qed.

Lemma filter_length_perm (p : A -> bool) (l l' : list A) :
  Permutation l l' -> length (filter p l) = length (filter p l').
Proof.
  induction 1 as [|x l l' _ IH|x y l|l l' l'' _ IH1 _ IH2]; simpl.
  - reflexivity.
  - destruct (p x); simpl; now rewrite IH.
  - destruct (p x), (p y); reflexivity.
  - now rewrite IH1.
Qed.

Lemma filter_none (p : A -> bool) (l : list A) :
  (forall x, In x l -> p x = false) -> filter p l = [].
Proof.
  induction l as [|x l IH]; simpl; auto.
  intros H. rewrite (H x) by now left. apply IH. intros y Hy. apply H.
  now right.
Qed.

Lemma forallb_pointwise (p q : A -> bool) (l : list A) :
  (forall x, p x = q x) -> forallb p l = forallb q l.
Proof.
  intros H. induction l as [|x l IH]; simpl; [reflexivity|].
  now rewrite H, IH.
Qed.

Lemma slice0_firstn (e : Z) (l : list A) :
  0 <= e -> slice0 e l = firstn (Z.to_nat e) l.
Proof.
  intros He. unfold slice0.
  destruct (e <? 0) eqn:E; [apply Z.ltb_lt in E; lia | reflexivity].
Qed.
End ListFacts.

(** ** Facts about the cache *)

Section CacheFacts.
Import CacheService.
Context {T : Type}.
Implicit Types (c : Cache T) (cfg : CacheConfig) (k : string)
  (e : string * CacheItem T).

Lemma deleteAll_filter (ks : list string) c :
  deleteAll ks c
  = filter (fun e => negb (existsb (String.eqb (fst e)) ks)) c.
Proof.
  unfold deleteAll. revert c.
  induction ks as [|k ks IH]; intros c; simpl.
  - now rewrite filter_true.
  - rewrite IH. unfold JsMap.delete. rewrite filter_twice.
    apply filter_ext. intros [k' v]. simpl.
    rewrite (String.eqb_sym k' k). now rewrite negb_orb.
Qed.

Lemma get_deleteAll (ks : list string) k c :
  JsMap.get k (deleteAll ks c)
  = if existsb (String.eqb k) ks then None else JsMap.get k c.
Proof.
  rewrite deleteAll_filter.
  rewrite (get_filter_keys (fun x => negb (existsb (String.eqb x) ks))).
  now destruct (existsb (String.eqb k) ks).
Qed.

Lemma wf_deleteAll (ks : list string) c :
  JsMap.wf c -> JsMap.wf (deleteAll ks c).
Proof. rewrite deleteAll_filter. apply wf_filter. Qed.

Lemma length_deleteAll_le (ks : list string) c :
  (length (deleteAll ks c) <= length c)%nat.
Proof. rewrite deleteAll_filter. apply filter_length_le. Qed.

(** [cleanup] keeps exactly the entries that are not expired. *)
Lemma cleanup_filter (now : Z) c :
  JsMap.wf c ->
  cleanup now c = filter (fun e => negb (now >? expiresAt (snd e))) c.
Proof.
  intros Hwf. unfold cleanup. rewrite deleteAll_filter.
  apply filter_ext_in. intros [k item] Hin. simpl. f_equal.
  destruct (now >? expiresAt item) eqn:E.
  - apply existsb_exists. exists k. split; [|apply String.eqb_refl].
    apply in_map_iff. exists (k, item). split; auto.
    apply filter_In. auto.
  - apply not_true_is_false. intros H.
    apply existsb_exists in H as [k' [Hk' Heq]].
    apply String.eqb_eq in Heq. subst k'.
    apply in_map_iff in Hk' as [[k' item'] [Hfst Hin']]. simpl in Hfst.
    subst k'. apply filter_In in Hin' as [Hin' Hexp]. simpl in Hexp.
    apply (In_get _ _ _ Hwf) in Hin. apply (In_get _ _ _ Hwf) in Hin'.
    congruence.
Qed.

Lemma wf_cleanup (now : Z) c : JsMap.wf c -> JsMap.wf (cleanup now c).
Proof. apply wf_deleteAll. Qed.

Lemma length_cleanup_le (now : Z) c :
  (length (cleanup now c) <= length c)%nat.
Proof. apply length_deleteAll_le. Qed.

Lemma sort_perm (l : list (string * CacheItem T)) :
  Permutation (sortByLastAccessed l) l.
Proof.
  assert (Hins : forall (x : string * CacheItem T) s,
             Permutation (insertByLastAccessed x s) (x :: s)).
  { intros x s. induction s as [|y s IH]; simpl; auto.
    destruct (lastAccessed (snd x) - lastAccessed (snd y) <=? 0); auto.
    rewrite IH. apply perm_swap. }
  induction l as [|x l IH]; simpl; auto.
  rewrite Hins. now constructor.
Qed.

(** The head of the sorted entries is the first entry, in insertion
    order, whose [lastAccessed] is least. *)
Lemma sort_head (l : list (string * CacheItem T)) :
  l <> [] ->
  exists victim rest before after,
    sortByLastAccessed l = victim :: rest
    /\ l = before ++ victim :: after
    /\ (forall x, In x before ->
          lastAccessed (snd victim) < lastAccessed (snd x))
    /\ (forall x, In x after ->
          lastAccessed (snd victim) <= lastAccessed (snd x)).
Proof.
  induction l as [|x l IH]; [congruence|]. intros _.
  destruct l as [|y l].
  - exists x, [], [], []. simpl. repeat split; intros ? [].
  - destruct IH as (v & rest & before & after & Hs & Hl & Hb & Ha);
      [discriminate|].
    change (sortByLastAccessed (x :: y :: l))
      with (insertByLastAccessed x (sortByLastAccessed (y :: l))).
    rewrite Hs. simpl.
    destruct (lastAccessed (snd x) - lastAccessed (snd v) <=? 0) eqn:E.
    + apply Z.leb_le in E.
      exists x, (v :: rest), [], (y :: l). repeat split; auto.
      * intros ? [].
      * intros z Hz. rewrite Hl in Hz.
        apply in_app_or in Hz as [Hz|[Hz|Hz]].
        -- specialize (Hb z Hz). lia.
        -- subst z. lia.
        -- specialize (Ha z Hz). lia.
    + apply Z.leb_gt in E.
      exists v, (insertByLastAccessed x rest), (x :: before), after.
      repeat split; auto.
      * rewrite Hl. reflexivity.
      * intros z [Hz|Hz]; [subst z; lia | now apply Hb].
Qed.

(** [enforceMaxSize] leaves at most [maxSize] entries. *)
Lemma enforceMaxSize_bound cfg c :
  0 <= maxSize cfg -> JsMap.size (enforceMaxSize cfg c) <= maxSize cfg.
Proof.
  intros Hmax. unfold enforceMaxSize.
  destruct (JsMap.size c <=? maxSize cfg) eqn:E.
  - now apply Z.leb_le in E.
  - apply Z.leb_gt in E. unfold JsMap.size in *.
    rewrite slice0_firstn by lia.
    set (n := Z.to_nat (Z.of_nat (length c) - maxSize cfg)).
    set (s := sortByLastAccessed c).
    rewrite deleteAll_filter.
    set (p := fun e => negb (existsb (String.eqb (fst e))
                               (map fst (firstn n s)))).
    rewrite (filter_length_perm p c s) by (symmetry; apply sort_perm).
    rewrite <- (firstn_skipn n s) at 1. rewrite filter_app.
    rewrite (filter_none p (firstn n s)).
    + simpl. pose proof (filter_length_le p (skipn n s)) as Hle.
      rewrite length_skipn in Hle.
      assert (length s = length c)
        by (apply Permutation_length, sort_perm).
      lia.
    + intros x Hx. unfold p. apply negb_false_iff.
      apply existsb_exists. exists (fst x).
      split; [now apply in_map | apply String.eqb_refl].
Qed.

Lemma enforceMaxSize_fits cfg c :
  JsMap.size c <= maxSize cfg -> enforceMaxSize cfg c = c.
Proof.
  intros H. unfold enforceMaxSize.
  apply Z.leb_le in H. now rewrite H.
Qed.

Lemma wf_enforceMaxSize cfg c :
  JsMap.wf c -> JsMap.wf (enforceMaxSize cfg c).
Proof.
  intros H. unfold enforceMaxSize.
  destruct (JsMap.size c <=? maxSize cfg); auto using wf_deleteAll.
Qed.

Lemma length_enforceMaxSize_le cfg c :
  (length (enforceMaxSize cfg c) <= length c)%nat.
Proof.
  unfold enforceMaxSize.
  destruct (JsMap.size c <=? maxSize cfg); auto using length_deleteAll_le.
Qed.

End CacheFacts.

Section CacheClaims.
Import CacheService.
Context {T : Type}.
Implicit Types (c : Cache T) (cfg : CacheConfig) (k : string) (d : T).

Lemma size_app_one c (e : string * CacheItem T) :
  JsMap.size (c ++ [e]) = JsMap.size c + 1.
Proof. unfold JsMap.size. rewrite length_app. simpl. lia. Qed.

Lemma step_bound cfg c (op : Op T) :
  0 <= maxSize cfg ->
  JsMap.size c <= maxSize cfg ->
  JsMap.size (step cfg c op) <= maxSize cfg.
Proof.
  intros Hmax Hsz. unfold JsMap.size in *.
  destruct op as [now k d ttl|now k|now k|k| |now|now|now]; simpl.
  - apply enforceMaxSize_bound, Hmax.
  - unfold get. destruct (JsMap.get k c) as [item|] eqn:E; simpl; auto.
    destruct (isExpired now item); simpl.
    + pose proof (length_delete_le k c). lia.
    + rewrite length_set_present; [assumption | congruence].
  - unfold has. destruct (JsMap.get k c) as [item|]; simpl; auto.
    destruct (isExpired now item); simpl; auto.
    pose proof (length_delete_le k c). lia.
  - pose proof (length_delete_le k c). lia.
  - exact Hmax.
  - pose proof (length_cleanup_le now c). lia.
  - pose proof (length_cleanup_le now c). lia.
  - pose proof (length_cleanup_le now c). lia.
Qed.








(** After [set], the cache holds the new item under its key, as long as
    the cache was within a capacity of at least one and no entry was
    accessed later than [now]. *)
Lemma get_after_set cfg now k d ttl c :
  JsMap.size c <= maxSize cfg ->
  1 <= maxSize cfg ->
  Forall (fun e => lastAccessed (snd e) <= now) c ->
  JsMap.get k (set cfg now k d ttl c) = Some (newItem cfg now k d ttl).
Proof.
  intros Hsz Hmax Hla. unfold set.
  set (item := newItem cfg now k d ttl).
  destruct (JsMap.get k c) as [old|] eqn:Hk.
  - rewrite enforceMaxSize_fits; [apply get_set_same|].
    unfold JsMap.size in *.
    rewrite length_set_present; [assumption | congruence].
  - assert (Hget : JsMap.get k (c ++ [(k, item)]) = Some item)
      by (rewrite <- set_absent by assumption; apply get_set_same).
    rewrite set_absent by assumption.
    destruct (Z.le_gt_cases (JsMap.size (c ++ [(k, item)])) (maxSize cfg))
      as [Hfit|Hover].
    + now rewrite enforceMaxSize_fits.
    + unfold enforceMaxSize.
      rewrite (proj2 (Z.leb_gt _ _)) by lia.
      rewrite size_app_one in *.
      rewrite slice0_firstn by lia.
      replace (Z.to_nat (JsMap.size c + 1 - maxSize cfg)) with 1%nat by lia.
      destruct (sort_head (c ++ [(k, item)]))
        as (v & rest & before & after & Hs & Hl & Hb & _).
      { destruct c; discriminate. }
      rewrite Hs. simpl firstn. simpl map.
      rewrite get_deleteAll. simpl existsb. rewrite orb_false_r.
      replace (String.eqb k (fst v)) with false; [exact Hget|].
      symmetry. apply String.eqb_neq. intros Heq.
      destruct (exists_last (l := v :: after)) as (pre & z & Hlast);
        [discriminate|].
      rewrite Hlast, app_assoc in Hl.
      apply app_inj_tail in Hl as [Hc Hz].
      destruct pre as [|v' pre]; simpl in Hlast.
      * injection Hlast as Hv _. subst v z.
        rewrite app_nil_r in Hc. subst before.
        destruct c as [|x c']; [unfold JsMap.size in *; simpl in *; lia|].
        specialize (Hb x (or_introl eq_refl)).
        apply Forall_inv in Hla. simpl in Hb. lia.
      * injection Hlast as Hv _. subst v'.
        apply get_None_notin in Hk. apply Hk.
        rewrite Hc, Heq. apply in_map. apply in_or_app. right. now left.
Qed.

(** C6 (amended).  Round trip at one instant: when the effective
    time-to-live is not negative ([ttl] is omitted, zero or positive, the
    default not being negative), a [set] immediately followed by [get] on
    the same key with [now] unchanged returns the value that was set, in
    every cache that satisfies its invariant at [now] and has a capacity
    of at least one. *)
Theorem set_get_round_trip cfg now k d ttl c :
  Spec.cacheInv cfg now c ->
  1 <= maxSize cfg ->
  0 <= expirationTime cfg ttl ->
  fst (get now k (set cfg now k d ttl c)) = Some d.
Proof.
  intros (_ & Hsz & Hla) Hmax Httl. unfold get.
  rewrite get_after_set by assumption.
  unfold isExpired. simpl expiresAt.
  replace (now >? now + expirationTime cfg ttl) with false; [reflexivity|].
  symmetry. rewrite Z.gtb_ltb. apply Z.ltb_ge. lia.
Qed.



(** On a representable expiry, [isExpired] is the comparison of dates
    [new Date() > item.expiresAt]. *)
Lemma isExpired_on_dates (now : Z) (item : CacheItem T) :
  JsDate.representable (expiresAt item) ->
  JsDate.gt (Some now) (JsDate.ofNumber (expiresAt item))
  = isExpired now item.
Proof.
  intros [Hlo Hhi]. unfold JsDate.ofNumber, JsDate.gt, isExpired.
  rewrite (proj2 (Z.leb_le _ _) Hlo), (proj2 (Z.leb_le _ _) Hhi).
  reflexivity.
Qed.

(** An expiry built from a number outside the range is an Invalid Date, and
    no clock reading is after it. *)
Lemma unrepresentable_expiry_never_expires (now x : Z) :
  ~ JsDate.representable x ->
  JsDate.gt (Some now) (JsDate.ofNumber x) = false.
Proof.
  intros Hout. unfold JsDate.ofNumber, JsDate.gt.
  destruct (- JsDate.maxTime <=? x) eqn:Hlo; [|reflexivity].
  destruct (x <=? JsDate.maxTime) eqn:Hhi; [|reflexivity].
  exfalso. apply Hout. apply Z.leb_le in Hlo, Hhi. now split.
Qed.


(** C3 (amended).  An entry whose [expiresAt] is strictly before [now] is
    not returned: [get] answers absent and deletes the key, and a [size()]
    or [keys()] that follows, at any time, does not count the key.
    [cleanup] keeps exactly the entries with [expiresAt >= now] and
    removes all the others. *)
Theorem expired_entries_are_dropped now k c item :
  JsMap.get k c = Some item ->
  expiresAt item < now ->
  get now k c = (None, JsMap.delete k c)
  /\ (forall now',
        let c' := snd (get now k c) in
        fst (size now' c') = JsMap.size (snd (size now' c'))
        /\ JsMap.get k (snd (size now' c')) = None
        /\ ~ In k (fst (keys now' c')))
  /\ (JsMap.wf c ->
      cleanup now c = filter (fun e => now <=? expiresAt (snd e)) c
      /\ JsMap.get k (cleanup now c) = None).
Proof.
  intros Hk Hexp.
  assert (Hgt : (now >? expiresAt item) = true)
    by (rewrite Z.gtb_ltb; apply Z.ltb_lt; lia).
  assert (Hget : get now k c = (None, JsMap.delete k c)).
  { unfold get, isExpired. now rewrite Hk, Hgt. }
  split; [exact Hget|]. split.
  - intros now'. rewrite Hget. simpl.
    assert (Hgone : JsMap.get k (cleanup now' (JsMap.delete k c)) = None).
    { unfold cleanup. rewrite get_deleteAll.
      destruct (existsb _ _); [reflexivity | apply get_delete_same]. }
    repeat split; auto.
    now apply get_None_notin.
  - intros Hwf.
    assert (Hc : cleanup now c
                 = filter (fun e => now <=? expiresAt (snd e)) c).
    { rewrite cleanup_filter by assumption. apply filter_ext.
      intros e. rewrite Z.gtb_ltb. now rewrite Z.leb_antisym. }
    split; [exact Hc|].
    unfold cleanup. rewrite get_deleteAll.
    replace (existsb _ _) with true; [reflexivity|].
    symmetry. apply existsb_exists. exists k.
    split; [|apply String.eqb_refl].
    apply in_map_iff. exists (k, item).
    split; [reflexivity|]. apply filter_In.
    split; [now apply get_Some_In | exact Hgt].
Qed.
End CacheClaims.

Section CacheEviction.
Import CacheService.
Context {T : Type}.
Implicit Types (c : Cache T) (cfg : CacheConfig) (k : string) (d : T).

Lemma Forall_set (P : string * CacheItem T -> Prop) k
    (item : CacheItem T) c :
  (forall k' old, In (k', old) c -> P (k', item)) ->
  P (k, item) -> Forall P c -> Forall P (JsMap.set k item c).
Proof.
  intros Hrep Hnew. induction c as [|[k' v'] c IH]; simpl; intros Hall.
  - now constructor.
  - inversion Hall as [|? ? Hx Hc]; subst.
    destruct (String.eqb k k').
    + constructor; [|assumption]. apply (Hrep k' v'). now left.
    + constructor; [assumption|]. apply IH; auto.
      intros k0 old Hin. apply (Hrep k0 old). now right.
Qed.

Lemma Forall_filter (P : string * CacheItem T -> Prop)
    (p : string * CacheItem T -> bool) c :
  Forall P c -> Forall P (filter p c).
Proof.
  rewrite !Forall_forall. intros H x Hx.
  apply filter_In in Hx. now apply H.
Qed.

Lemma Forall_enforceMaxSize (P : string * CacheItem T -> Prop) cfg c :
  Forall P c -> Forall P (enforceMaxSize cfg c).
Proof.
  intros H. unfold enforceMaxSize.
  destruct (JsMap.size c <=? maxSize cfg); auto.
  rewrite deleteAll_filter. now apply Forall_filter.
Qed.

Lemma cacheInv_later cfg now now' c :
  now <= now' -> Spec.cacheInv cfg now c -> Spec.cacheInv cfg now' c.
Proof.
  intros Hle (Hwf & Hsz & Hla). repeat split; auto.
  eapply Forall_impl; [|exact Hla]. simpl. intros. lia.
Qed.

(** Every operation keeps the invariant, at its own clock reading. *)
Lemma step_cacheInv cfg now c (op : Op T) :
  0 <= maxSize cfg ->
  Spec.cacheInv cfg now c ->
  (forall t, opTime op = Some t -> now <= t) ->
  Spec.cacheInv cfg
    (match opTime op with Some t => t | None => now end) (step cfg c op).
Proof.
  intros Hmax Hinv Hclock.
  assert (Hsz' : JsMap.size (step cfg c op) <= maxSize cfg)
    by (apply step_bound; [assumption | apply Hinv]).
  split; [|split; [exact Hsz'|]]; clear Hsz';
    destruct op as [t k d ttl|t k|t k|k| |t|t|t]; simpl;
    try (specialize (Hclock t eq_refl);
         apply (cacheInv_later cfg now t c Hclock) in Hinv);
    destruct Hinv as (Hwf & Hsz & Hla).
  - unfold set. now apply wf_enforceMaxSize, wf_set.
  - unfold get. destruct (JsMap.get k c) as [item|]; simpl; auto.
    destruct (isExpired t item); simpl; auto using wf_delete, wf_set.
  - unfold has. destruct (JsMap.get k c) as [item|]; simpl; auto.
    destruct (isExpired t item); simpl; auto using wf_delete.
  - now apply wf_delete.
  - constructor.
  - now apply wf_cleanup.
  - now apply wf_cleanup.
  - now apply wf_cleanup.
  - unfold set. apply Forall_enforceMaxSize.
    apply Forall_set; simpl; auto; intros; lia.
  - unfold get. destruct (JsMap.get k c) as [item|]; simpl; auto.
    destruct (isExpired t item); simpl.
    + now apply Forall_filter.
    + apply Forall_set; simpl; auto; intros; lia.
  - unfold has. destruct (JsMap.get k c) as [item|]; simpl; auto.
    destruct (isExpired t item); simpl; auto.
    now apply Forall_filter.
  - now apply Forall_filter.
  - constructor.
  - unfold cleanup. rewrite deleteAll_filter. now apply Forall_filter.
  - unfold cleanup. rewrite deleteAll_filter. now apply Forall_filter.
  - unfold cleanup. rewrite deleteAll_filter. now apply Forall_filter.
Qed.

(** The invariant holds along every run under a monotonic clock. *)
Lemma run_cacheInv cfg (ops : list (Op T)) now c :
  0 <= maxSize cfg ->
  Spec.cacheInv cfg now c ->
  clockMonotonic now ops ->
  Spec.cacheInv cfg (endTime now ops) (run cfg ops c).
Proof.
  intros Hmax. unfold run. revert now c.
  induction ops as [|op ops IH]; intros now c Hinv Hclock; simpl; auto.
  simpl in Hclock. apply IH.
  - apply step_cacheInv; auto.
    intros t Ht. rewrite Ht in Hclock. tauto.
  - destruct (opTime op); tauto.
Qed.

Lemma cacheInv_empty cfg now :
  0 <= maxSize cfg -> Spec.cacheInv cfg now (@JsMap.empty (CacheItem T)).
Proof. intros H. repeat split; auto; constructor. Qed.

(** A [set] of a new key into a full cache removes one entry: the first
    one, in insertion order, whose [lastAccessed] is least. *)
Lemma set_evicts_lru cfg now k d ttl c :
  JsMap.wf c ->
  JsMap.get k c = None ->
  JsMap.size c = maxSize cfg ->
  exists victim before after,
    c ++ [(k, newItem cfg now k d ttl)] = before ++ victim :: after
    /\ set cfg now k d ttl c = before ++ after
    /\ (forall x, In x before ->
          lastAccessed (snd victim) < lastAccessed (snd x))
    /\ (forall x, In x after ->
          lastAccessed (snd victim) <= lastAccessed (snd x)).
Proof.
  intros Hwf Hk Hfull. unfold set.
  set (item := newItem cfg now k d ttl).
  pose proof (wf_set k item c Hwf) as Hwf'.
  rewrite set_absent in * by assumption.
  unfold enforceMaxSize. rewrite size_app_one.
  rewrite (proj2 (Z.leb_gt _ _)) by lia.
  rewrite slice0_firstn by lia.
  replace (Z.to_nat (JsMap.size c + 1 - maxSize cfg)) with 1%nat by lia.
  destruct (sort_head (c ++ [(k, item)]))
    as (v & rest & before & after & Hs & Hl & Hb & Ha).
  { destruct c; discriminate. }
  exists v, before, after. rewrite Hs. simpl.
  repeat split; auto.
  rewrite Hl in *. destruct v as [kv iv]. simpl.
  now apply delete_middle.
Qed.
End CacheEviction.

Section CacheEvictionClaim.
Import CacheService.
Context {T : Type}.
Implicit Types (c : Cache T) (cfg : CacheConfig) (k : string) (d : T).

Lemma eviction_scenario (da db dc : T) (t0 t1 t2 t3 : Z) :
  t1 < t2 -> t1 <= t3 -> t2 <= t0 + defaultTtl config ->
  JsMap.keys
    (run (withMaxSize 2 config)
       [OpSet t0 "a"%string da None; OpSet t1 "b"%string db None;
        OpGet t2 "a"%string; OpSet t3 "c"%string dc None] JsMap.empty)
  = ["a"%string; "c"%string].
Proof.
  intros H12 H13 Httl.
  unfold run, fold_left, step.
  unfold set at 3. unfold JsMap.set, JsMap.empty.
  rewrite enforceMaxSize_fits by (vm_compute; discriminate).
  unfold set at 2. cbn [JsMap.set String.eqb Ascii.eqb Bool.eqb].
  rewrite enforceMaxSize_fits by (vm_compute; discriminate).
  unfold get. cbn [JsMap.get String.eqb Ascii.eqb Bool.eqb].
  unfold isExpired, newItem. cbn [expiresAt expirationTime].
  replace (t2 >? t0 + defaultTtl (withMaxSize 2 config)) with false
    by (symmetry; rewrite Z.gtb_ltb; apply Z.ltb_ge; exact Httl).
  cbn [snd JsMap.set String.eqb Ascii.eqb Bool.eqb].
  unfold set. cbn [JsMap.set String.eqb Ascii.eqb Bool.eqb].
  unfold enforceMaxSize.
  replace (JsMap.size _ <=? maxSize (withMaxSize 2 config)) with false
    by reflexivity.
  unfold sortByLastAccessed, fold_right, touch, newItem.
  cbn [insertByLastAccessed snd lastAccessed].
  replace (t1 - t3 <=? 0) with true by (symmetry; apply Z.leb_le; lia).
  cbn [insertByLastAccessed snd lastAccessed].
  replace (t2 - t1 <=? 0) with false by (symmetry; apply Z.leb_gt; lia).
  destruct (t2 - t3 <=? 0); reflexivity.
Qed.

(** C5 (amended).  Eviction happens only when a [set] would leave more
    than [maxSize] entries.  A [set] of a new key into a full cache then
    removes exactly one entry, the least recently used one by
    [lastAccessed]; among entries with the same [lastAccessed] it is the
    one that comes first in the insertion order of the map.  With
    [maxSize = 2], [set a], [set b], [get a], [set c] at clock readings
    [t0], [t1], [t2], [t3], where [b] was set before [a] was read
    ([t1 < t2]), not after [c] was set ([t1 <= t3]), and [a] had not
    expired when read, evict [b] and keep [a] and [c]. *)
Theorem eviction_is_least_recently_used cfg now k d ttl c :
  JsMap.wf c ->
  (JsMap.size (JsMap.set k (newItem cfg now k d ttl) c) <= maxSize cfg ->
   set cfg now k d ttl c = JsMap.set k (newItem cfg now k d ttl) c)
  /\ (JsMap.get k c = None ->
      JsMap.size c = maxSize cfg ->
      exists victim before after,
        c ++ [(k, newItem cfg now k d ttl)] = before ++ victim :: after
        /\ set cfg now k d ttl c = before ++ after
        /\ (forall x, In x before ->
              lastAccessed (snd victim) < lastAccessed (snd x))
        /\ (forall x, In x after ->
              lastAccessed (snd victim) <= lastAccessed (snd x)))
  /\ (forall (da db dc : T) (t0 t1 t2 t3 : Z),
        t1 < t2 -> t1 <= t3 -> t2 <= t0 + defaultTtl config ->
        JsMap.keys
          (run (withMaxSize 2 config)
             [OpSet t0 "a"%string da None; OpSet t1 "b"%string db None;
              OpGet t2 "a"%string; OpSet t3 "c"%string dc None]
             JsMap.empty)
        = ["a"%string; "c"%string]).
Proof.
  intros Hwf. split; [|split].
  - intros Hfit. unfold set. now apply enforceMaxSize_fits.
  - intros Hk Hfull. now apply set_evicts_lru.
  - apply eviction_scenario.
Qed.
End CacheEvictionClaim.

(** ** Concrete runs of the cache *)

Section CacheRuns.
Import CacheService.
Local Open Scope string_scope.
Local Open Scope Z_scope.
Local Open Scope list_scope.





(** C3, refuted as stated: at [now = expiresAt] the entry is not expired;
    [get] returns its value, [cleanup] keeps it and [size()] counts it. *)
Lemma expiry_boundary_counterexample :
  let c := set config 0 "k" 7 (Some 1000) JsMap.empty in
  let now := 1000 in
  (exists item, JsMap.get "k" c = Some item /\ now >= expiresAt item)
  /\ fst (get now "k" c) = Some 7
  /\ cleanup now c = c
  /\ fst (size now (snd (get now "k" c))) = 1.
Proof.
  simpl. repeat split.
  eexists. split; [reflexivity|]. simpl. lia.
Qed.

Lemma expired_entries_are_dropped_witness :
  let c := set config 0 "k" 7 (Some 1000) JsMap.empty in
  get 1001 "k" c = (None, JsMap.delete "k" c)
  /\ fst (size 1001 (snd (get 1001 "k" c))) = 0
  /\ cleanup 1001 c = [].
Proof.
  intros c.
  assert (Hk : JsMap.get "k" c
               = Some (newItem config 0 "k" 7 (Some 1000)))
    by reflexivity.
  assert (Hexp : expiresAt (newItem config 0 "k" 7 (Some 1000)) < 1001)
    by ground.
  assert (Hwf : JsMap.wf c) by (repeat constructor; simpl; tauto).
  destruct (expired_entries_are_dropped 1001 "k" c _ Hk Hexp)
    as (Hget & Hsize & Hclean).
  split; [exact Hget|]. split.
  - destruct (Hsize 1001) as (Hn & _). rewrite Hn. reflexivity.
  - destruct (Hclean Hwf) as [Hc _]. rewrite Hc. reflexivity.
Defined.

(** C5, refuted as stated.  First, the scenario run within one
    millisecond: all entries tie on [lastAccessed], and ["a"], the first
    inserted, is evicted while ["b"] stays.  Second, a tie that
    [createdAt] would decide the other way: ["a"] is set, ["b"] is set,
    ["a"] is set again (it keeps its place in the map and gets the later
    [timestamp]) and ["b"] is read at the same instant; the next [set]
    evicts ["a"], although ["b"] has the same [lastAccessed] and the
    earlier [timestamp]. *)
Lemma eviction_tie_counterexample :
  let cfg := withMaxSize 2 config in
  JsMap.keys
    (run cfg [OpSet 0 "a" 1 None; OpSet 0 "b" 2 None; OpGet 0 "a";
              OpSet 0 "c" 3 None] JsMap.empty) = ["b"; "c"]
  /\ let c := run cfg [OpSet 0 "a" 1 None; OpSet 1 "b" 2 None;
                       OpSet 2 "a" 1 None; OpGet 2 "b"] JsMap.empty in
     exists a b,
       JsMap.get "a" c = Some a /\ JsMap.get "b" c = Some b
       /\ lastAccessed a = lastAccessed b
       /\ timestamp b < timestamp a
       /\ JsMap.keys (set cfg 3 "c" 3 None c) = ["b"; "c"].
Proof.
  split; [reflexivity|].
  simpl. do 2 eexists. repeat split.
Qed.

Lemma eviction_is_least_recently_used_witness :
  let a := mkItem "a" 1 0 300000 1 2 in
  let b := mkItem "b" 2 1 300001 0 1 in
  let cfg := withMaxSize 2 config in
  exists victim before after,
    [("a", a); ("b", b)] ++ [("c", newItem cfg 3 "c" 3 None)]
    = before ++ victim :: after
    /\ set cfg 3 "c" 3 None [("a", a); ("b", b)] = before ++ after
    /\ (forall x, In x before ->
          lastAccessed (snd victim) < lastAccessed (snd x))
    /\ (forall x, In x after ->
          lastAccessed (snd victim) <= lastAccessed (snd x)).
Proof.
  intros a b cfg.
  assert (Hwf : JsMap.wf [("a", a); ("b", b)])
    by (repeat constructor; simpl; intuition discriminate).
  destruct (eviction_is_least_recently_used cfg 3 "c" 3 None
              [("a", a); ("b", b)] Hwf) as (_ & Hevict & _).
  apply Hevict; reflexivity.
Defined.

(** C6, refuted as stated: with a negative [ttl] the entry is expired at
    the very instant it is set, and the [get] that follows returns
    absent. *)
Lemma round_trip_negative_ttl_counterexample :
  fst (get 1000 "k" (set config 1000 "k" 7 (Some (-1)) JsMap.empty)) = None.
Proof. reflexivity. Qed.

Lemma set_get_round_trip_witness :
  fst (get 1000 "k" (set config 1000 "k" 7 (Some 0) JsMap.empty)) = Some 7.
Proof.
  apply (set_get_round_trip config 1000 "k" 7 (Some 0)).
  - apply cacheInv_empty. ground.
  - ground.
  - ground.
Defined.
End CacheRuns.

(** ** The guard against the decision procedure *)

Section GuardFacts.
Import AuthGuard Spec.
Local Open Scope Z_scope.

Lemma includes_member (l : list string) (x : string) :
  includes l x = member x l.
Proof.
  unfold includes, member.
  destruct (in_dec string_dec x l) as [Hin|Hnot].
  - apply existsb_exists. exists x. split; [assumption|].
    apply String.eqb_refl.
  - apply not_true_is_false. intros H.
    apply existsb_exists in H as [y [Hy Heq]].
    apply String.eqb_eq in Heq. now subst y.
Qed.

Lemma hasRequiredRoles_forallb (u : AuthUser.t) (rs : list string) :
  hasRequiredRoles u rs
  = forallb (fun r => member r (AuthUser.roles u)) rs.
Proof.
  unfold hasRequiredRoles. destruct rs as [|r rs]; [reflexivity|].
  apply forallb_pointwise. intros x. apply includes_member.
Qed.

Lemma hasRequiredPermissions_forallb (u : AuthUser.t) (ps : list string) :
  hasRequiredPermissions u ps
  = forallb (fun p => member p (AuthUser.permissions u)) ps.
Proof.
  unfold hasRequiredPermissions. destruct ps as [|p ps]; [reflexivity|].
  apply forallb_pointwise. intros x. apply includes_member.
Qed.

Lemma isTokenExpired_check (now : Z) (e : option Z) :
  isTokenExpired now e
  = negb match e with
         | Some e => now <? e - tokenExpiryBuffer
         | None => false
         end.
Proof.
  unfold isTokenExpired, tokenExpiryBuffer.
  destruct e as [e|]; [|reflexivity]. cbv zeta.
  rewrite Z.geb_leb. apply Z.leb_antisym.
Qed.

Lemma isSessionExpired_check (now : Z) (l : option Z) :
  isSessionExpired now l
  = negb match l with
         | Some l => now - l <=? maxInactiveDuration
         | None => true
         end.
Proof.
  unfold isSessionExpired, maxInactiveDuration.
  destruct l as [l|]; [|reflexivity]. cbv zeta.
  rewrite Z.gtb_ltb. apply Z.ltb_antisym.
Qed.

Lemma lacksRoles_check (st : AuthState.t) (u : AuthUser.t)
    (rd : option RouteData.t) :
  AuthState.user st = Some u ->
  lacksRoles u rd
  = negb (forallb (fun r => member r (principalRoles st))
            (requiredRoles (requestOf rd))).
Proof.
  intros Hu. unfold lacksRoles, principalRoles, requestOf. rewrite Hu.
  destruct rd as [rd|]; [|reflexivity]. simpl.
  destruct (RouteData.requiredRoles rd); [|reflexivity].
  now rewrite hasRequiredRoles_forallb.
Qed.

Lemma lacksPermissions_check (st : AuthState.t) (u : AuthUser.t)
    (rd : option RouteData.t) :
  AuthState.user st = Some u ->
  lacksPermissions u rd
  = negb (forallb (fun p => member p (principalPermissions st))
            (requiredPermissions (requestOf rd))).
Proof.
  intros Hu.
  unfold lacksPermissions, principalPermissions, requestOf. rewrite Hu.
  destruct rd as [rd|]; [|reflexivity]. simpl.
  destruct (RouteData.requiredPermissions rd); [|reflexivity].
  now rewrite hasRequiredPermissions_forallb.
Qed.

Lemma lacksSecureAccess_check (now : Z) (st : AuthState.t)
    (rd : option RouteData.t) :
  lacksSecureAccess now st rd
  = negb (if requiresRecentAuthentication (requestOf rd)
          then match AuthState.loginTime st with
               | Some e => now - e <? secureAccessWindow
               | None => false
               end
          else true).
Proof.
  unfold lacksSecureAccess, hasSecureAccess, requestOf.
  destruct rd as [rd|]; [|reflexivity]. simpl.
  destruct (RouteData.requiresSecureAccess rd); reflexivity.
Qed.

(** The guard is the first failing check of the list, with the window of
    the step-up check taken strictly. *)
Lemma validateAuthState_firstFailure (now : Z) (st : AuthState.t)
    (rd : option RouteData.t) :
  SessionInvariant st ->
  validateAuthState now st rd
  = verdict (authorizeStrict st (requestOf rd) now).
Proof.
  intros Hinv. unfold validateAuthState, authorizeStrict, authorizeWith.
  unfold checks, firstFailure.
  destruct (AuthState.isAuthenticated st) eqn:Hauth; [|reflexivity].
  destruct (AuthState.user st) as [u|] eqn:Hu;
    [|destruct (Hinv Hauth) as [H _]; congruence].
  rewrite isTokenExpired_check, isSessionExpired_check.
  rewrite (lacksRoles_check st u rd Hu).
  rewrite (lacksPermissions_check st u rd Hu).
  rewrite lacksSecureAccess_check.
  cbn [find fst negb].
  destruct (AuthUser.isActive u); cbn [negb]; [|reflexivity].
  repeat match goal with
         | |- context [if negb ?b then _ else _] =>
             destruct b; cbn [negb]; [|reflexivity]
         end.
  reflexivity.
Qed.

Lemma firstFailure_Allow (cs : list (bool * DenyReason)) :
  firstFailure cs = Allow <-> forall c, In c cs -> fst c = true.
Proof.
  unfold firstFailure. induction cs as [|[b r] cs IH]; simpl.
  - split; [intros _ c [] | reflexivity].
  - destruct b; simpl.
    + rewrite IH. split; [intros H c [<-|Hc]; auto | auto].
    + split; [discriminate|]. intros H.
      specialize (H (false, r) (or_introl eq_refl)). discriminate.
Qed.

(** Short-circuit: the decision is the denial of the first check that
    fails, whatever the later checks say. *)
Lemma firstFailure_Deny (pre post : list (bool * DenyReason))
    (r : DenyReason) :
  (forall c, In c pre -> fst c = true) ->
  firstFailure (pre ++ (false, r) :: post) = Deny r.
Proof.
  unfold firstFailure. induction pre as [|[b r'] pre IH]; simpl; intros H.
  - reflexivity.
  - pose proof (H (b, r') (or_introl eq_refl)) as Hb. simpl in Hb.
    subst b. simpl. apply IH. auto.
Qed.

Lemma denialCalls_injective (r r' : DenyReason) :
  denialCalls r = denialCalls r' -> r = r'.
Proof. destruct r, r'; simpl; intros H; congruence || discriminate. Qed.

(** C1 (amended).  For every session state that satisfies its invariant,
    every route data and every [now], [validateAuthState] returns [true]
    exactly when the seven checks of section 4.3 hold, the step-up check
    being [now - establishedAt < secureAccessWindow] (strict, and failing
    when [establishedAt] is absent).  The checks are taken in the order
    authenticated, account active, token not expired, session not
    inactive, roles, permissions, step-up window: when a check fails and
    all checks before it hold, the guard returns [false] and makes the
    calls of that check's denial and no other, whatever the later checks
    say. *)
Theorem validateAuthState_decides (now : Z) (st : AuthState.t)
    (rd : option RouteData.t) :
  SessionInvariant st ->
  validateAuthState now st rd
  = verdict (authorizeStrict st (requestOf rd) now)
  /\ (fst (validateAuthState now st rd) = true <->
      forall c, In c (checks Z.ltb st (requestOf rd) now) -> fst c = true)
  /\ (forall pre r post,
        checks Z.ltb st (requestOf rd) now = pre ++ (false, r) :: post ->
        (forall c, In c pre -> fst c = true) ->
        validateAuthState now st rd = (false, denialCalls r)).
Proof.
  intros Hinv.
  pose proof (validateAuthState_firstFailure now st rd Hinv) as Heq.
  split; [exact Heq|]. split.
  - rewrite Heq. unfold authorizeStrict, authorizeWith.
    rewrite <- firstFailure_Allow.
    destruct (firstFailure _); simpl; split; congruence.
  - intros pre r post Hcs Hpre. rewrite Heq.
    unfold authorizeStrict, authorizeWith.
    rewrite Hcs, firstFailure_Deny by assumption. reflexivity.
Qed.

(** C9 (amended).  With the step-up flag set and every earlier check
    passing, the guard allows exactly when [loginTime] is present and
    [now - loginTime < secureAccessWindow] (one hour, strictly); otherwise
    it denies with the calls of the step-up denial. *)
Theorem step_up_window_is_strict (now : Z) (st : AuthState.t)
    (u : AuthUser.t) (rd : RouteData.t) :
  AuthState.isAuthenticated st = true ->
  AuthState.user st = Some u ->
  AuthUser.isActive u = true ->
  isTokenExpired now (AuthState.expiresAt st) = false ->
  isSessionExpired now (AuthState.lastActivity st) = false ->
  lacksRoles u (Some rd) = false ->
  lacksPermissions u (Some rd) = false ->
  RouteData.requiresSecureAccess rd = true ->
  (validateAuthState now st (Some rd) = (true, []) <->
   exists t, AuthState.loginTime st = Some t
             /\ now - t < secureAccessWindow)
  /\ (validateAuthState now st (Some rd) = (true, [])
      \/ validateAuthState now st (Some rd)
         = (false, denialCalls StepUpRequired)).
Proof.
  intros Hauth Hu Hact Htok Hses Hrol Hper Hsec.
  unfold validateAuthState.
  rewrite Hauth, Hu, Hact, Htok, Hses, Hrol, Hper. cbn [negb].
  unfold lacksSecureAccess, hasSecureAccess. rewrite Hsec. cbn [andb].
  destruct (AuthState.loginTime st) as [t|]; cbn [negb].
  - change (60 * 60 * 1000) with secureAccessWindow.
    destruct (now - t <? secureAccessWindow) eqn:E; cbn [negb].
    + apply Z.ltb_lt in E. split; [|now left].
      split; [intros _; now exists t | reflexivity].
    + apply Z.ltb_ge in E. split; [|now right].
      split; [discriminate|]. intros (t' & [= <-] & Hlt). lia.
  - split; [|now right].
    split; [discriminate|]. intros (t' & Ht & _). discriminate.
Qed.
End GuardFacts.

(** ** Concrete decisions of the guard *)

Section GuardRuns.
Import AuthGuard Spec.
Local Open Scope string_scope.
Local Open Scope Z_scope.
Local Open Scope list_scope.

(** C1, refuted as stated: a session established exactly one hour ago
    passes all the checks of section 4.3 ([now - establishedAt <=
    secureAccessWindow] holds), so [authorize] allows, yet the guard
    returns [false] on a route that requires secure access. *)
Lemma authorize_boundary_counterexample :
  let user := AuthUser.mk 7 "ann@example.org" ["user"] ["read"] true in
  let state :=
    AuthState.mk true (Some user) (Some "tok") (Some "ref")
      (Some 10000000) (Some 0) (Some 3600000) in
  let routeData := RouteData.mk (Some ["user"]) (Some ["read"]) true in
  let now := 3600000 in
  SessionInvariant state
  /\ (forall c, In c (checks Z.leb state (requestOf (Some routeData)) now)
                -> fst c = true)
  /\ authorize state (requestOf (Some routeData)) now = Allow
  /\ fst (validateAuthState now state (Some routeData)) = false.
Proof.
  simpl. repeat split; try discriminate.
  intros c H. repeat (destruct H as [<-|H]; [reflexivity|]). destruct H.
Qed.

Lemma validateAuthState_decides_witness :
  let user := AuthUser.mk 7 "ann@example.org" ["user"] ["read"] true in
  let state :=
    AuthState.mk true (Some user) (Some "tok") (Some "ref")
      (Some 10000000) (Some 0) (Some 3600000) in
  let routeData := RouteData.mk (Some ["admin"]) (Some ["read"]) true in
  validateAuthState 3600000 state (Some routeData)
  = (false, [LogWarning "User lacks required roles"]).
Proof.
  intros user state routeData.
  assert (Hinv : SessionInvariant state)
    by (intros _; repeat split; discriminate).
  destruct (validateAuthState_decides 3600000 state (Some routeData) Hinv)
    as (_ & _ & Hflip).
  apply (Hflip [(true, NotAuthenticated); (true, AccountInactive);
                (true, TokenExpired); (true, SessionInactive)]
               InsufficientRole
               [(true, InsufficientPermission); (false, StepUpRequired)]).
  - reflexivity.
  - intros c H. repeat (destruct H as [<-|H]; [reflexivity|]). destruct H.
Defined.

(** C9, refuted as stated: at [now - loginTime = secureAccessWindow] the
    claim's condition [now - establishedAt <= secureAccessWindow] holds
    and every earlier check passes, yet the guard denies. *)
Lemma secure_access_boundary_counterexample :
  let user := AuthUser.mk 3 "bob@example.org" [] [] true in
  let state :=
    AuthState.mk true (Some user) (Some "tok") None
      (Some 9000000) (Some 1000) (Some 3601000) in
  let routeData := RouteData.mk None None true in
  let now := 3601000 in
  now - 1000 <= secureAccessWindow
  /\ isTokenExpired now (AuthState.expiresAt state) = false
  /\ isSessionExpired now (AuthState.lastActivity state) = false
  /\ lacksRoles user (Some routeData) = false
  /\ lacksPermissions user (Some routeData) = false
  /\ validateAuthState now state (Some routeData)
     = (false, denialCalls StepUpRequired).
Proof. simpl. repeat split. discriminate. Qed.

Lemma step_up_window_is_strict_witness :
  let user := AuthUser.mk 3 "bob@example.org" [] [] true in
  let state :=
    AuthState.mk true (Some user) (Some "tok") None
      (Some 9000000) (Some 1000) (Some 3600999) in
  let routeData := RouteData.mk None None true in
  validateAuthState 3600999 state (Some routeData) = (true, []).
Proof.
  intros user state routeData.
  destruct (step_up_window_is_strict 3600999 state user routeData
              eq_refl eq_refl eq_refl eq_refl eq_refl eq_refl eq_refl
              eq_refl) as [Hiff _].
  apply Hiff. exists 1000. split; [reflexivity | ground].
Defined.
End GuardRuns.

(** ** Facts about the session manager *)

Section ServiceFacts.
Import AuthService Spec.
Local Open Scope Z_scope.
Implicit Types (s : AuthService.t) (env : StorageFaults) (now : Z).

(** *** What each helper does to the current snapshot *)

Lemma subject_call (c : Call) s :
  authStateSubject (call c s) = authStateSubject s.
Proof. reflexivity. Qed.

Lemma subject_storeAuthState env a s :
  authStateSubject (storeAuthState env a s) = authStateSubject s.
Proof. unfold storeAuthState. now destruct (setItemThrows env). Qed.

Lemma subject_clearStoredAuth env s :
  authStateSubject (clearStoredAuth env s) = authStateSubject s.
Proof. unfold clearStoredAuth. now destruct (removeItemThrows env). Qed.

Lemma subject_updateAuthState env a s :
  authStateSubject (updateAuthState env a s) = a.
Proof. unfold updateAuthState. now rewrite subject_storeAuthState. Qed.

Lemma subject_clearAuthState env s :
  authStateSubject (clearAuthState env s) = emptyAuthState.
Proof.
  unfold clearAuthState.
  now rewrite subject_clearStoredAuth, subject_updateAuthState.
Qed.

Lemma subject_clearRefreshTimer s :
  authStateSubject (clearRefreshTimer s) = authStateSubject s.
Proof. unfold clearRefreshTimer. now destruct (refreshTokenTimer s). Qed.

Lemma subject_clearActivityTimer s :
  authStateSubject (clearActivityTimer s) = authStateSubject s.
Proof. unfold clearActivityTimer. now destruct (activityCheckTimer s). Qed.

Lemma subject_clearTimers s :
  authStateSubject (clearTimers s) = authStateSubject s.
Proof.
  unfold clearTimers.
  now rewrite subject_clearActivityTimer, subject_clearRefreshTimer.
Qed.

Lemma subject_scheduleTokenRefresh now e s :
  authStateSubject (scheduleTokenRefresh now e s) = authStateSubject s.
Proof.
  unfold scheduleTokenRefresh. destruct e as [e|].
  - destruct (e - now - 10 * 60 * 1000 >? 0); simpl;
      apply subject_clearRefreshTimer.
  - apply subject_clearRefreshTimer.
Qed.

Lemma subject_logout env reason reply s :
  authStateSubject (logout env reason reply s) = emptyAuthState.
Proof.
  unfold logout.
  now rewrite subject_call, subject_clearTimers, subject_clearAuthState.
Qed.

(** *** What each helper does to durable storage *)

Lemma storage_call (c : Call) s : localStorage (call c s) = localStorage s.
Proof. reflexivity. Qed.

Lemma storage_clearTimers s :
  localStorage (clearTimers s) = localStorage s.
Proof.
  unfold clearTimers, clearActivityTimer, clearRefreshTimer.
  destruct (refreshTokenTimer s); simpl;
    destruct (activityCheckTimer s); reflexivity.
Qed.

(** After [clearAuthState] the storage is empty, or holds the cleared
    snapshot, or is untouched when both writes threw. *)
Lemma storage_clearAuthState env s :
  localStorage (clearAuthState env s)
  = if removeItemThrows env
    then if setItemThrows env
         then localStorage s
         else Some (Snapshot emptyAuthState)
    else None.
Proof.
  unfold clearAuthState, clearStoredAuth, updateAuthState, storeAuthState.
  destruct (removeItemThrows env), (setItemThrows env); reflexivity.
Qed.

Lemma empty_is_not_valid now : isValidStoredAuth now emptyAuthState = false.
Proof. reflexivity. Qed.

Lemma cleared_storage_not_valid env now s :
  removeItemThrows env = false \/ setItemThrows env = false ->
  ~ holdsValidSnapshot now (localStorage (clearAuthState env s)).
Proof.
  intros Hok (a & Hst & Hvalid). rewrite storage_clearAuthState in Hst.
  destruct (removeItemThrows env); [|discriminate].
  destruct (setItemThrows env); [destruct Hok; discriminate|].
  injection Hst as <-. discriminate.
Qed.

(** *** The invariant of the snapshot *)

Lemma invariant_empty : SessionInvariant emptyAuthState.
Proof. intros H. discriminate. Qed.

Lemma invariant_login env now reply s :
  SessionInvariant (authStateSubject s) ->
  SessionInvariant (authStateSubject (snd (login env now reply s))).
Proof.
  intros Hinv. unfold login. cbv beta zeta.
  destruct reply as [|[response|]]; cbn [snd]; auto.
  destruct (LoginResponse.success response); cbn [snd]; auto.
  rewrite subject_call, subject_scheduleTokenRefresh,
    subject_updateAuthState.
  intros _. simpl. repeat split; discriminate.
Qed.

Lemma invariant_refreshToken env now reply s :
  SessionInvariant (authStateSubject s) ->
  SessionInvariant (authStateSubject (snd (refreshToken env now reply s))).
Proof.
  intros Hinv. unfold refreshToken. cbv beta zeta.
  destruct (negb (truthy (AuthState.refreshToken (authStateSubject s))));
    cbn [snd]; [rewrite subject_clearAuthState; apply invariant_empty|].
  destruct reply as [|[response|]]; cbn [snd];
    try (rewrite subject_clearAuthState; apply invariant_empty).
  destruct (RefreshTokenResponse.success response); cbn [snd];
    [|rewrite subject_clearAuthState; apply invariant_empty].
  rewrite subject_call, subject_scheduleTokenRefresh,
    subject_updateAuthState.
  intros Hauth. simpl in *. destruct (Hinv Hauth) as (Hu & _).
  repeat split; [exact Hu | discriminate | discriminate].
Qed.

Lemma invariant_updateLastActivity now s :
  SessionInvariant (authStateSubject s) ->
  SessionInvariant (authStateSubject (updateLastActivity now s)).
Proof.
  intros Hinv. unfold updateLastActivity.
  destruct (AuthState.isAuthenticated (authStateSubject s)) eqn:E; auto.
  intros _. simpl. now apply Hinv.
Qed.

Lemma invariant_initializeAuthState env now s :
  SessionInvariant (authStateSubject s) ->
  SessionInvariant (authStateSubject (initializeAuthState env now s)).
Proof.
  intros Hinv. unfold initializeAuthState.
  destruct (getItemThrows env);
    [rewrite subject_clearAuthState; apply invariant_empty|].
  destruct (localStorage s) as [[| |a]|]; auto;
    try (rewrite subject_clearAuthState; apply invariant_empty).
  destruct (isValidStoredAuth now a) eqn:Hvalid.
  - rewrite subject_call, subject_scheduleTokenRefresh. simpl.
    unfold isValidStoredAuth in Hvalid.
    apply andb_prop in Hvalid as [Hvalid He].
    apply andb_prop in Hvalid as [Hvalid Ht].
    apply andb_prop in Hvalid as [_ Hu].
    intros _. repeat split.
    + destruct (AuthState.user a); [discriminate | discriminate Hu].
    + destruct (AuthState.token a); [discriminate | discriminate Ht].
    + destruct (AuthState.expiresAt a); [discriminate | discriminate He].
  - rewrite subject_call, subject_clearAuthState. apply invariant_empty.
Qed.

Lemma invariant_step env now (op : Op) s :
  SessionInvariant (authStateSubject s) ->
  SessionInvariant (authStateSubject (step env now op s)).
Proof.
  intros Hinv.
  destruct op as [reply|reason reply|reply| | |id reply lreply|id lreply];
    unfold step.
  - now apply invariant_login.
  - rewrite subject_logout. apply invariant_empty.
  - now apply invariant_refreshToken.
  - now apply invariant_updateLastActivity.
  - rewrite subject_clearAuthState. apply invariant_empty.
  - destruct (isPendingAt now id s); auto.
    unfold scheduledRefresh.
    pose proof (invariant_refreshToken env now reply (clearTimeout id s)
                  Hinv) as Hr.
    destruct (refreshToken env now reply (clearTimeout id s)) as [[a|e] s'];
      cbn [snd] in Hr; cbv beta iota zeta; auto.
    rewrite subject_logout. apply invariant_empty.
  - destruct (existsb (Pos.eqb id) (intervals s)); auto.
    unfold activityCheck.
    destruct (AuthState.isAuthenticated (authStateSubject s)); auto.
    destruct (AuthState.lastActivity (authStateSubject s)) as [l|]; auto.
    cbv zeta. destruct (now - l >? 30 * 60 * 1000); auto.
    rewrite subject_logout. apply invariant_empty.
Qed.

Lemma invariant_construct env now stored :
  SessionInvariant (authStateSubject (construct env now stored)).
Proof.
  unfold construct, setupActivityMonitoring. simpl.
  apply invariant_initializeAuthState. apply invariant_empty.
Qed.

(** C7.  The invariant of the session state -- an authenticated snapshot
    carries a user, a token and an expiry -- holds for the snapshot the
    constructor leaves (restored from storage or empty), is kept by
    [login], [refreshToken], [updateLastActivity], [clearAuthState] and
    [initializeAuthState] and by every other operation of the service
    ([logout] and the two timer callbacks), and so holds after every run
    of a constructed service. *)
Theorem session_invariant_preserved :
  (forall env now stored,
      SessionInvariant (currentState (construct env now stored)))
  /\ (forall env now s,
        SessionInvariant (currentState s) ->
        (forall reply,
            SessionInvariant (currentState (snd (login env now reply s))))
        /\ (forall reply,
              SessionInvariant
                (currentState (snd (refreshToken env now reply s))))
        /\ SessionInvariant (currentState (updateLastActivity now s))
        /\ SessionInvariant (currentState (clearAuthState env s))
        /\ SessionInvariant (currentState (initializeAuthState env now s))
        /\ (forall op, SessionInvariant (currentState (step env now op s))))
  /\ (forall env now stored ops,
        SessionInvariant
          (currentState (run ops (construct env now stored)))).
Proof.
  unfold currentState. split; [|split].
  - apply invariant_construct.
  - intros env now s Hinv.
    split; [intros reply; now apply invariant_login|].
    split; [intros reply; now apply invariant_refreshToken|].
    split; [now apply invariant_updateLastActivity|].
    split; [rewrite subject_clearAuthState; apply invariant_empty|].
    split; [now apply invariant_initializeAuthState|].
    intros op. now apply invariant_step.
  - intros env now stored ops.
    generalize (invariant_construct env now stored).
    generalize (construct env now stored).
    induction ops as [|[[env' now'] op] ops IH]; intros s Hinv; simpl; auto.
    apply IH. now apply invariant_step.
Qed.
End ServiceFacts.


(** ** Logout and failed refresh *)

Section ServiceClaims.
Import AuthService Spec.
Local Open Scope Z_scope.
Implicit Types (s : AuthService.t) (env : StorageFaults) (now : Z).

(** The refresh timer after [logout]: the handle is reset and the timeout
    it named is no longer pending. *)
Lemma timers_logout env reason reply s :
  refreshTokenTimer (logout env reason reply s) = None
  /\ timeouts (logout env reason reply s)
     = match refreshTokenTimer s with
       | Some id => filter (fun e => negb (Pos.eqb (fst e) id)) (timeouts s)
       | None => timeouts s
       end.
Proof.
  unfold logout, clearAuthState, clearStoredAuth, updateAuthState,
    storeAuthState, clearTimers, clearActivityTimer, clearRefreshTimer.
  destruct (truthy (AuthState.token (authStateSubject s)));
    destruct reply; destruct (setItemThrows env);
    destruct (removeItemThrows env); simpl;
    destruct (refreshTokenTimer s) eqn:Hh; simpl;
    destruct (activityCheckTimer s) eqn:Ha; simpl;
    rewrite ?Hh, ?Ha; simpl; rewrite ?Hh; split; reflexivity.
Qed.

Lemma storage_logout env reason reply s :
  localStorage (logout env reason reply s)
  = if removeItemThrows env
    then if setItemThrows env
         then localStorage s
         else Some (Snapshot emptyAuthState)
    else None.
Proof.
  unfold logout. rewrite storage_call, storage_clearTimers.
  rewrite storage_clearAuthState.
  destruct (truthy (AuthState.token (authStateSubject s)));
    [destruct reply|]; reflexivity.
Qed.

Lemma tracked_filter_empty s id :
  refreshTimerTracked s ->
  refreshTokenTimer s = Some id ->
  filter (fun e => negb (Pos.eqb (fst e) id)) (timeouts s) = [].
Proof.
  intros Htr Hid. apply filter_none. intros [id' due] Hin. simpl.
  apply Htr in Hin. rewrite Hid in Hin. injection Hin as ->.
  now rewrite Pos.eqb_refl.
Qed.

Lemma tracked_no_handle s :
  refreshTimerTracked s -> refreshTokenTimer s = None -> timeouts s = [].
Proof.
  intros Htr Hnone. destruct (timeouts s) as [|[id due] l] eqn:E; auto.
  specialize (Htr id due). rewrite E in Htr.
  rewrite Htr in Hnone; [discriminate | now left].
Qed.

(** After [logout] of a service that tracked its timer, no timeout is
    pending. *)
Lemma no_timeout_after_logout env reason reply s :
  refreshTimerTracked s -> timeouts (logout env reason reply s) = [].
Proof.
  intros Htr.
  destruct (timers_logout env reason reply s) as [_ Hpending].
  rewrite Hpending.
  destruct (refreshTokenTimer s) as [id|] eqn:Hid.
  - now apply tracked_filter_empty.
  - now apply tracked_no_handle.
Qed.

(** C8 (amended).  For every prior state of the service, every reason and
    every outcome of the remote logout call, after [logout] the in-memory
    state is the empty unauthenticated snapshot and the refresh timer the
    service held is cancelled (its handle is reset and its timeout is no
    longer pending; no timeout at all is pending when the service tracked
    its timer).  Durable storage holds no valid authenticated snapshot
    when [localStorage] accepted the removal or the write of the cleared
    snapshot; when it rejected both, storage holds what it held before the
    [logout]. *)
Theorem logout_clears_session env reason reply s :
  currentState (logout env reason reply s) = emptyAuthState
  /\ AuthState.isAuthenticated (currentState (logout env reason reply s))
     = false
  /\ refreshTokenTimer (logout env reason reply s) = None
  /\ (forall id due,
        refreshTokenTimer s = Some id ->
        ~ In (id, due) (timeouts (logout env reason reply s)))
  /\ (refreshTimerTracked s -> timeouts (logout env reason reply s) = [])
  /\ (removeItemThrows env = false \/ setItemThrows env = false ->
      forall now,
        ~ holdsValidSnapshot now
            (localStorage (logout env reason reply s)))
  /\ (removeItemThrows env = true -> setItemThrows env = true ->
      localStorage (logout env reason reply s) = localStorage s).
Proof.
  unfold currentState. rewrite subject_logout.
  destruct (timers_logout env reason reply s) as [Hhandle Hpending].
  split; [reflexivity|]. split; [reflexivity|]. split; [exact Hhandle|].
  split; [|split; [|split]];
    [| | |intros Hrm Hset; now rewrite storage_logout, Hrm, Hset].
  - intros id due Hid Hin. rewrite Hpending, Hid in Hin.
    apply filter_In in Hin as [_ Hne]. simpl in Hne.
    now rewrite Pos.eqb_refl in Hne.
  - apply no_timeout_after_logout.
  - intros Hok now (a & Hst & Hvalid). rewrite storage_logout in Hst.
    destruct (removeItemThrows env); [|discriminate].
    destruct (setItemThrows env); [destruct Hok; discriminate|].
    injection Hst as <-. discriminate.
Qed.

(** A refresh fails exactly when there is no refresh token, the exchange is
    rejected, it resolves without a body, or the body reports no success. *)
Lemma refreshToken_outcome env now reply s :
  match fst (refreshToken env now reply s) with
  | Returned a =>
      truthy (AuthState.refreshToken (authStateSubject s)) = true
      /\ exists r, reply = Resolves (Some r)
                   /\ RefreshTokenResponse.success r = true
  | Threw e =>
      truthy (AuthState.refreshToken (authStateSubject s)) = false
      \/ reply = Rejects
      \/ reply = Resolves None
      \/ exists r, reply = Resolves (Some r)
                   /\ RefreshTokenResponse.success r = false
  end.
Proof.
  unfold refreshToken. cbv beta zeta.
  destruct (truthy (AuthState.refreshToken (authStateSubject s)));
    cbn [negb fst]; [|now left].
  destruct reply as [|[r|]]; cbn [fst]; auto.
  destruct (RefreshTokenResponse.success r) eqn:E; cbn [fst].
  - split; [reflexivity|]. now exists r.
  - right. right. right. now exists r.
Qed.

Lemma refreshToken_failure_state env now reply s e :
  fst (refreshToken env now reply s) = Threw e ->
  exists s0,
    snd (refreshToken env now reply s) = clearAuthState env s0
    /\ localStorage s0 = localStorage s.
Proof.
  unfold refreshToken. cbv beta zeta.
  destruct (negb (truthy (AuthState.refreshToken (authStateSubject s))));
    cbn [fst snd]; [intros _; eexists; split; reflexivity|].
  destruct reply as [|[r|]]; cbn [fst snd];
    try (intros _; eexists; split; reflexivity).
  destruct (RefreshTokenResponse.success r); cbn [fst snd];
    [discriminate | intros _; eexists; split; reflexivity].
Qed.

(** C10 (amended).  Whenever [refreshToken] fails -- there is no refresh
    token, or the remote exchange is rejected, resolves without a body or
    reports no success -- it throws, and before the error propagates the
    service has replaced the in-memory state by the empty unauthenticated
    snapshot: [currentState().isAuthenticated] is false without any
    [logout].  It has also asked [localStorage] to remove the persisted
    snapshot: the ['auth-state'] item is gone when the storage accepted the
    removal, storage holds no valid authenticated snapshot when it accepted
    the removal or the write of the cleared snapshot, and storage holds
    what it held before when it rejected both. *)
Theorem failed_refresh_clears_session env now reply s :
  (truthy (AuthState.refreshToken (currentState s)) = false
   \/ reply = Rejects
   \/ reply = Resolves None
   \/ (exists r, reply = Resolves (Some r)
                 /\ RefreshTokenResponse.success r = false) ->
   exists e, fst (refreshToken env now reply s) = Threw e)
  /\ (forall e,
        fst (refreshToken env now reply s) = Threw e ->
        let s' := snd (refreshToken env now reply s) in
        currentState s' = emptyAuthState
        /\ AuthState.isAuthenticated (currentState s') = false
        /\ (removeItemThrows env = false -> localStorage s' = None)
        /\ (removeItemThrows env = false \/ setItemThrows env = false ->
            forall now', ~ holdsValidSnapshot now' (localStorage s'))
        /\ (removeItemThrows env = true -> setItemThrows env = true ->
            localStorage s' = localStorage s)).
Proof.
  unfold currentState. split.
  - intros Hcause.
    pose proof (refreshToken_outcome env now reply s) as Hout.
    destruct (fst (refreshToken env now reply s)) as [a|e];
      [|now exists e].
    destruct Hout as (Htok & r & Hreply & Hok). exfalso.
    destruct Hcause as [H|[H|[H|(r' & H & Hno)]]]; try congruence.
  - intros e Hthrew.
    destruct (refreshToken_failure_state env now reply s e Hthrew)
      as (s0 & Hs' & Hst).
    rewrite Hs', subject_clearAuthState.
    split; [reflexivity|]. split; [reflexivity|]. split; [|split].
    + intros Hrm. rewrite storage_clearAuthState. now rewrite Hrm.
    + intros Hok now'. now apply cleared_storage_not_valid.
    + intros Hrm Hset. now rewrite storage_clearAuthState, Hrm, Hset.
Qed.
End ServiceClaims.


(** ** At most one refresh timer is pending *)

Section RefreshTimer.
Import AuthService Spec.
Local Open Scope Z_scope.
Implicit Types (s : AuthService.t) (env : StorageFaults) (now : Z).

Lemma tracked_frame s s' :
  timeouts s' = timeouts s ->
  refreshTokenTimer s' = refreshTokenTimer s ->
  refreshTimerTracked s -> refreshTimerTracked s'.
Proof.
  intros Ht Hh Htr id due Hin. rewrite Ht in Hin. rewrite Hh. eauto.
Qed.

Lemma tracked_nothing_pending s :
  timeouts s = [] -> refreshTimerTracked s.
Proof. intros E id due Hin. rewrite E in Hin. destruct Hin. Qed.

Lemma timers_updateAuthState env a s :
  timeouts (updateAuthState env a s) = timeouts s
  /\ refreshTokenTimer (updateAuthState env a s) = refreshTokenTimer s.
Proof.
  unfold updateAuthState, storeAuthState.
  destruct (setItemThrows env); split; reflexivity.
Qed.

Lemma timers_clearAuthState env s :
  timeouts (clearAuthState env s) = timeouts s
  /\ refreshTokenTimer (clearAuthState env s) = refreshTokenTimer s.
Proof.
  unfold clearAuthState, clearStoredAuth, updateAuthState, storeAuthState.
  destruct (setItemThrows env), (removeItemThrows env); split; reflexivity.
Qed.

Lemma tracked_clearAuthState env s :
  refreshTimerTracked s -> refreshTimerTracked (clearAuthState env s).
Proof.
  destruct (timers_clearAuthState env s) as [Ht Hh].
  now apply tracked_frame.
Qed.

Lemma tracked_clearRefreshTimer s :
  refreshTimerTracked s ->
  timeouts (clearRefreshTimer s) = []
  /\ refreshTokenTimer (clearRefreshTimer s) = None.
Proof.
  intros Htr. unfold clearRefreshTimer.
  destruct (refreshTokenTimer s) as [id|] eqn:Hid; simpl.
  - split; [now apply tracked_filter_empty | reflexivity].
  - split; [now apply tracked_no_handle | exact Hid].
Qed.

Lemma tracked_scheduleTokenRefresh now e s :
  refreshTimerTracked s -> refreshTimerTracked (scheduleTokenRefresh now e s).
Proof.
  intros Htr. destruct (tracked_clearRefreshTimer s Htr) as [Ht Hh].
  unfold scheduleTokenRefresh. destruct e as [e|].
  - destruct (e - now - 10 * 60 * 1000 >? 0).
    + unfold setTimeout. cbv beta iota zeta. intros id due Hin.
      simpl in *. rewrite Ht in Hin. simpl in Hin.
      destruct Hin as [[= <- _]|[]]. reflexivity.
    + now apply tracked_nothing_pending.
  - now apply tracked_nothing_pending.
Qed.

Lemma tracked_clearTimeout id s :
  refreshTimerTracked s -> refreshTimerTracked (clearTimeout id s).
Proof.
  intros Htr id' due Hin. simpl in *.
  apply filter_In in Hin as [Hin _]. eauto.
Qed.

Lemma tracked_logout env reason reply s :
  refreshTimerTracked s -> refreshTimerTracked (logout env reason reply s).
Proof.
  intros Htr. apply tracked_nothing_pending.
  now apply no_timeout_after_logout.
Qed.

Lemma tracked_call (c : Call) s :
  refreshTimerTracked s -> refreshTimerTracked (call c s).
Proof. now apply tracked_frame. Qed.

Lemma tracked_updateAuthState env a s :
  refreshTimerTracked s -> refreshTimerTracked (updateAuthState env a s).
Proof.
  destruct (timers_updateAuthState env a s) as [Ht Hh].
  now apply tracked_frame.
Qed.

Lemma tracked_login env now reply s :
  refreshTimerTracked s -> refreshTimerTracked (snd (login env now reply s)).
Proof.
  intros Htr. unfold login. cbv beta zeta.
  destruct reply as [|[response|]]; cbn [snd];
    try (now repeat apply tracked_call).
  destruct (LoginResponse.success response); cbn [snd];
    [|now repeat apply tracked_call].
  apply tracked_call, tracked_scheduleTokenRefresh, tracked_updateAuthState.
  now repeat apply tracked_call.
Qed.

Lemma tracked_refreshToken env now reply s :
  refreshTimerTracked s ->
  refreshTimerTracked (snd (refreshToken env now reply s)).
Proof.
  intros Htr. unfold refreshToken. cbv beta zeta.
  destruct (negb (truthy (AuthState.refreshToken (authStateSubject s))));
    cbn [snd]; [now apply tracked_clearAuthState, tracked_call|].
  destruct reply as [|[response|]]; cbn [snd];
    try (now repeat first [apply tracked_clearAuthState | apply tracked_call]).
  destruct (RefreshTokenResponse.success response); cbn [snd].
  - apply tracked_call, tracked_scheduleTokenRefresh,
      tracked_updateAuthState.
    now apply tracked_call.
  - now repeat first [apply tracked_clearAuthState | apply tracked_call].
Qed.

Lemma tracked_step env now (op : Op) s :
  refreshTimerTracked s -> refreshTimerTracked (step env now op s).
Proof.
  intros Htr.
  destruct op as [reply|reason reply|reply| | |id reply lreply|id lreply];
    unfold step.
  - now apply tracked_login.
  - now apply tracked_logout.
  - now apply tracked_refreshToken.
  - unfold updateLastActivity.
    destruct (AuthState.isAuthenticated (authStateSubject s)); auto.
  - now apply tracked_clearAuthState.
  - destruct (isPendingAt now id s); auto.
    unfold scheduledRefresh.
    pose proof (tracked_refreshToken env now reply (clearTimeout id s)
                  (tracked_clearTimeout id s Htr)) as Hr.
    destruct (refreshToken env now reply (clearTimeout id s)) as [[a|e] s'];
      cbn [snd] in Hr; cbv beta iota zeta; auto.
    now apply tracked_logout, tracked_call.
  - destruct (existsb (Pos.eqb id) (intervals s)); auto.
    unfold activityCheck.
    destruct (AuthState.isAuthenticated (authStateSubject s)); auto.
    destruct (AuthState.lastActivity (authStateSubject s)) as [l|]; auto.
    cbv zeta. destruct (now - l >? 30 * 60 * 1000); auto.
    now apply tracked_logout, tracked_call.
Qed.

Lemma tracked_construct env now stored :
  refreshTimerTracked (construct env now stored).
Proof.
  unfold construct, setupActivityMonitoring.
  set (s0 := mk _ _ _ _ _ _ _ _).
  assert (H0 : refreshTimerTracked s0) by now apply tracked_nothing_pending.
  assert (Hinit : refreshTimerTracked (initializeAuthState env now s0)).
  { unfold initializeAuthState. cbv beta zeta.
    destruct (getItemThrows env);
      [now apply tracked_clearAuthState, tracked_call|].
    destruct (localStorage s0) as [[| |a]|]; auto;
      try (now apply tracked_clearAuthState, tracked_call).
    destruct (isValidStoredAuth now a).
    - now apply tracked_call, tracked_scheduleTokenRefresh.
    - now apply tracked_call, tracked_clearAuthState. }
  revert Hinit. generalize (initializeAuthState env now s0). intros s1 Htr.
  now apply (tracked_frame s1).
Qed.

(** Along every run of a constructed service, the only timeout that can be
    pending is the one the service holds. *)
Lemma tracked_run env now stored (ops : list (StorageFaults * Z * Op)) :
  refreshTimerTracked (run ops (construct env now stored)).
Proof.
  generalize (tracked_construct env now stored).
  generalize (construct env now stored).
  induction ops as [|[[env' now'] op] ops IH]; intros s Htr; simpl; auto.
  apply IH. now apply tracked_step.
Qed.
End RefreshTimer.


(** ** Concrete runs of the session manager *)

Section ServiceRuns.
Import AuthService Spec.
Local Open Scope string_scope.
Local Open Scope Z_scope.
Local Open Scope list_scope.

Lemma session_invariant_preserved_witness :
  let ann := AuthUser.mk 7 "ann@example.org" ["user"] ["read"] true in
  let response :=
    LoginResponse.mk true None ann "tok" "ref" 7200000 "sid" in
  let s := construct noFaults 0 None in
  SessionInvariant (currentState s)
  /\ SessionInvariant
       (currentState (snd (login noFaults 1000 (Resolves (Some response)) s)))
  /\ AuthState.isAuthenticated
       (currentState (snd (login noFaults 1000 (Resolves (Some response)) s)))
     = true.
Proof.
  intros ann response s.
  destruct session_invariant_preserved as (Hconstruct & Hkeep & _).
  pose proof (Hconstruct noFaults 0 None) as Hs.
  destruct (Hkeep noFaults 1000 s Hs) as (Hlogin & _).
  split; [exact Hs|]. split; [apply Hlogin | reflexivity].
Defined.

Lemma logout_clears_session_witness :
  let ann := AuthUser.mk 7 "ann@example.org" ["user"] ["read"] true in
  let response :=
    LoginResponse.mk true None ann "tok" "ref" 7200000 "sid" in
  let s :=
    run [(noFaults, 1000, OpLogin (Resolves (Some response)))]
      (construct noFaults 0 None) in
  holdsValidSnapshot 2000 (localStorage s)
  /\ timeouts s <> []
  /\ timeouts (logout noFaults user_logout Rejects s) = []
  /\ ~ holdsValidSnapshot 2000
         (localStorage (logout noFaults user_logout Rejects s)).
Proof.
  intros ann response s.
  destruct (logout_clears_session noFaults user_logout Rejects s)
    as (_ & _ & _ & _ & Hpending & Hstorage & _).
  split; [eexists; split; reflexivity|].
  split; [discriminate|]. split.
  - apply Hpending. apply tracked_run.
  - apply Hstorage. left. reflexivity.
Defined.

(** C8, refuted as stated: when the storage rejects both the write of the
    cleared snapshot and the removal, [logout] still empties the in-memory
    state, and the snapshot stored at login stays in storage, valid and
    authenticated. *)
Lemma logout_with_failing_storage :
  let ann := AuthUser.mk 7 "ann@example.org" ["user"] ["read"] true in
  let response :=
    LoginResponse.mk true None ann "tok" "ref" 7200000 "sid" in
  let s :=
    run [(noFaults, 1000, OpLogin (Resolves (Some response)))]
      (construct noFaults 0 None) in
  let s' := logout (mkFaults false true true) user_logout (Resolves None) s in
  currentState s' = emptyAuthState
  /\ localStorage s' = localStorage s
  /\ holdsValidSnapshot 2000 (localStorage s').
Proof.
  simpl. repeat split. eexists. split; reflexivity.
Qed.

(** C10, refuted as stated: when the storage rejects both the write of the
    cleared snapshot and the removal, a failed [refreshToken] still empties
    the in-memory state, and the persisted snapshot is not removed: a
    service constructed later over that storage restores the session. *)
Lemma failed_refresh_with_failing_storage :
  let ann := AuthUser.mk 7 "ann@example.org" ["user"] ["read"] true in
  let response :=
    LoginResponse.mk true None ann "tok" "ref" 7200000 "sid" in
  let s :=
    run [(noFaults, 1000, OpLogin (Resolves (Some response)))]
      (construct noFaults 0 None) in
  let s' := snd (refreshToken (mkFaults false true true) 5000 Rejects s) in
  fst (refreshToken (mkFaults false true true) 5000 Rejects s)
  = Threw HttpFailure
  /\ currentState s' = emptyAuthState
  /\ localStorage s' = localStorage s
  /\ holdsValidSnapshot 6000 (localStorage s')
  /\ AuthState.isAuthenticated
       (currentState (construct noFaults 6000 (localStorage s')))
     = true.
Proof.
  simpl. repeat split. eexists. split; reflexivity.
Qed.

Lemma failed_refresh_clears_session_witness :
  let ann := AuthUser.mk 7 "ann@example.org" ["user"] ["read"] true in
  let response :=
    LoginResponse.mk true None ann "tok" "ref" 7200000 "sid" in
  let s :=
    run [(noFaults, 1000, OpLogin (Resolves (Some response)))]
      (construct noFaults 0 None) in
  AuthState.isAuthenticated (currentState s) = true
  /\ (exists e, fst (refreshToken noFaults 5000 Rejects s) = Threw e)
  /\ AuthState.isAuthenticated
       (currentState (snd (refreshToken noFaults 5000 Rejects s))) = false
  /\ localStorage (snd (refreshToken noFaults 5000 Rejects s)) = None.
Proof.
  intros ann response s.
  destruct (failed_refresh_clears_session noFaults 5000 Rejects s)
    as (Hthrows & Hclears).
  assert (Hcause :
            truthy (AuthState.refreshToken (currentState s)) = false
            \/ @Rejects RefreshTokenResponse.t = Rejects
            \/ @Rejects RefreshTokenResponse.t = Resolves None
            \/ (exists r, @Rejects RefreshTokenResponse.t = Resolves (Some r)
                          /\ RefreshTokenResponse.success r = false))
    by (right; left; reflexivity).
  destruct (Hthrows Hcause) as (e & He).
  destruct (Hclears e He) as (_ & Hauth & Hgone & _).
  split; [reflexivity|]. split; [now exists e|].
  split; [exact Hauth | now apply Hgone].
Defined.
End ServiceRuns.


(* ================================================================== *)
(** * Further properties of the code *)
(* ================================================================== *)

(** ** The cache: [has], [delete], [get], [set] on a present key *)

Section CacheLookups.
Import CacheService.
Context {T : Type}.
Implicit Types (c : Cache T) (cfg : CacheConfig) (k : string) (d : T).

Lemma keys_delete_absent k c :
  ~ In k (JsMap.keys (JsMap.delete k c)).
Proof. apply get_None_notin, get_delete_same. Qed.

Lemma Forall_set_key (P : string * CacheItem T -> Prop) k
    (item : CacheItem T) c :
  P (k, item) -> Forall P c -> Forall P (JsMap.set k item c).
Proof.
  intros Hnew. induction c as [|[k' v'] c IH]; simpl; intros Hall.
  - now constructor.
  - inversion Hall as [|? ? Hx Hc]; subst.
    destruct (String.eqb k k') eqn:E.
    + apply String.eqb_eq in E. subst k'. now constructor.
    + constructor; auto.
Qed.

Lemma keys_set_touch k (item item' : CacheItem T) c :
  JsMap.get k c = Some item ->
  JsMap.keys (JsMap.set k item' c) = JsMap.keys c.
Proof. intros H. apply keys_set_present. congruence. Qed.

(** X1.  [has] answers as [get] would: it is [true] exactly when [get]
    returns a value.  When it is [true] it leaves the cache as it was (no
    access is counted); when it is [false] it leaves the cache as the
    failed [get] does, without the key. *)
Theorem has_agrees_with_get now k c :
  (fst (has now k c) = true <-> exists v, fst (get now k c) = Some v)
  /\ (fst (has now k c) = true -> snd (has now k c) = c)
  /\ (fst (has now k c) = false ->
      snd (has now k c) = snd (get now k c)
      /\ fst (get now k c) = None
      /\ JsMap.get k (snd (has now k c)) = None).
Proof.
  unfold has, get.
  destruct (JsMap.get k c) as [item|] eqn:E; simpl.
  - destruct (isExpired now item); simpl.
    + split; [split; [discriminate | intros [v Hv]; discriminate]|].
      split; [discriminate|]. intros _.
      split; [reflexivity|]. split; [reflexivity | apply get_delete_same].
    + split; [split; [intros _; now exists (data item) | reflexivity]|].
      split; [reflexivity | discriminate].
  - split; [split; [discriminate | intros [v Hv]; discriminate]|].
    split; [discriminate|]. intros _. now repeat split.
Qed.

(** X2.  [delete] returns [true] exactly when the key was in the map.
    Afterwards the key is gone ([get] returns absent at any time), every
    other key holds what it held, a second [delete] returns [false] and
    changes nothing, and a map with unique keys that held the key has one
    entry less. *)
Theorem delete_removes_the_key k c :
  (fst (delete k c) = true <-> JsMap.get k c <> None)
  /\ JsMap.get k (snd (delete k c)) = None
  /\ (forall now, fst (get now k (snd (delete k c))) = None)
  /\ (forall k', k' <> k ->
        JsMap.get k' (snd (delete k c)) = JsMap.get k' c)
  /\ delete k (snd (delete k c)) = (false, snd (delete k c))
  /\ (JsMap.wf c -> fst (delete k c) = true ->
      JsMap.size (snd (delete k c)) = JsMap.size c - 1).
Proof.
  unfold delete, JsMap.has. simpl.
  split; [|split; [|split; [|split; [|split]]]].
  - destruct (JsMap.get k c); split; congruence.
  - apply get_delete_same.
  - intros now. unfold get. now rewrite get_delete_same.
  - intros k' Hne. apply get_delete_other. congruence.
  - rewrite get_delete_same. f_equal. apply delete_absent, get_delete_same.
  - intros Hwf Hin.
    destruct (JsMap.get k c) as [item|] eqn:E; [|discriminate].
    apply get_Some_In in E. apply in_split in E as (m1 & m2 & ->).
    rewrite delete_middle by assumption.
    unfold JsMap.size. rewrite !length_app. simpl. lia.
Qed.

(** X3.  A [get] that finds a live entry returns its data and counts the
    access: the entry keeps its data, creation and expiry times, its
    [accessCount] grows by one and its [lastAccessed] becomes [now]; the
    order of the keys and every other entry stay as they were. *)
Theorem get_hit_counts_the_access now k c item :
  JsMap.get k c = Some item ->
  now <= expiresAt item ->
  fst (get now k c) = Some (data item)
  /\ (exists item',
        JsMap.get k (snd (get now k c)) = Some item'
        /\ data item' = data item
        /\ timestamp item' = timestamp item
        /\ expiresAt item' = expiresAt item
        /\ accessCount item' = accessCount item + 1
        /\ lastAccessed item' = now)
  /\ JsMap.keys (snd (get now k c)) = JsMap.keys c
  /\ (forall k', k' <> k ->
        JsMap.get k' (snd (get now k c)) = JsMap.get k' c).
Proof.
  intros Hk Hlive. unfold get, isExpired. rewrite Hk.
  replace (now >? expiresAt item) with false
    by (symmetry; rewrite Z.gtb_ltb; apply Z.ltb_ge; lia).
  simpl. split; [reflexivity|]. split; [|split].
  - exists (touch now item). rewrite get_set_same. now repeat split.
  - now apply keys_set_touch with (item := item).
  - intros k' Hne. apply get_set_other. congruence.
Qed.

(** X4.  A [set] on a key that is already in a cache within its capacity
    overwrites in place: nothing is evicted, the keys keep their order,
    every other entry stays as it was, and the entry starts afresh with the
    new data, [accessCount = 0] and [timestamp = lastAccessed = now]. *)
Theorem set_on_present_key_overwrites cfg now k d ttl c old :
  JsMap.get k c = Some old ->
  JsMap.size c <= maxSize cfg ->
  JsMap.keys (set cfg now k d ttl c) = JsMap.keys c
  /\ JsMap.get k (set cfg now k d ttl c)
     = Some {| key := k; data := d; timestamp := now;
               expiresAt := now + expirationTime cfg ttl;
               accessCount := 0; lastAccessed := now |}
  /\ (forall k', k' <> k ->
        JsMap.get k' (set cfg now k d ttl c) = JsMap.get k' c).
Proof.
  intros Hk Hsz. unfold set.
  rewrite enforceMaxSize_fits.
  - split; [now apply keys_set_touch with (item := old)|].
    split; [apply get_set_same|].
    intros k' Hne. apply get_set_other. congruence.
  - unfold JsMap.size in *.
    rewrite length_set_present; [assumption | congruence].
Qed.
End CacheLookups.

(** ** The cache: [keys], [size], oldest and newest item *)

Section CacheListing.
Import CacheService CacheQueries.
Context {T : Type}.
Implicit Types (c : Cache T) (cfg : CacheConfig) (k : string).

Lemma cleanup_idempotent now c :
  JsMap.wf c -> cleanup now (cleanup now c) = cleanup now c.
Proof.
  intros Hwf.
  rewrite (cleanup_filter now (cleanup now c)) by now apply wf_cleanup.
  rewrite (cleanup_filter now c) by assumption.
  rewrite filter_twice. apply filter_ext. intros e.
  now destruct (negb (now >? expiresAt (snd e))).
Qed.

(** X5.  [keys()] and [size()] first drop what has expired: in a map with
    unique keys, [keys()] lists, without repetition, exactly the keys whose
    entry has [expiresAt >= now], [size()] is their number, [has] is [true]
    on each of them, and asking again at the same instant gives the same
    answer and changes nothing. *)
Theorem keys_lists_the_live_entries now c :
  JsMap.wf c ->
  NoDup (fst (keys now c))
  /\ (forall k,
        In k (fst (keys now c)) <->
        exists item, JsMap.get k c = Some item /\ now <= expiresAt item)
  /\ fst (size now c) = Z.of_nat (length (fst (keys now c)))
  /\ snd (size now c) = snd (keys now c)
  /\ keys now (snd (keys now c)) = keys now c
  /\ (forall k, In k (fst (keys now c)) ->
        fst (has now k (snd (keys now c))) = true).
Proof.
  intros Hwf. unfold keys, size. simpl.
  pose proof (wf_cleanup now c Hwf) as Hwf'.
  assert (Hlive : forall k,
             In k (JsMap.keys (cleanup now c)) <->
             exists item, JsMap.get k c = Some item /\ now <= expiresAt item).
  { intros k. rewrite cleanup_filter by assumption. unfold JsMap.keys.
    rewrite in_map_iff. split.
    - intros ([k' item] & Hfst & Hin). simpl in Hfst. subst k'.
      apply filter_In in Hin as [Hin Hok]. simpl in Hok.
      exists item. split; [now apply In_get|].
      apply negb_true_iff in Hok. rewrite Z.gtb_ltb in Hok.
      now apply Z.ltb_ge in Hok.
    - intros (item & Hget & Hle). exists (k, item). split; [reflexivity|].
      apply filter_In. split; [now apply get_Some_In|]. simpl.
      apply negb_true_iff. rewrite Z.gtb_ltb. apply Z.ltb_ge. lia. }
  split; [exact Hwf'|]. split; [exact Hlive|].
  split; [unfold JsMap.size, JsMap.keys; now rewrite length_map|].
  split; [reflexivity|].
  split; [now rewrite cleanup_idempotent|].
  intros k Hin. unfold has.
  destruct (JsMap.get k (cleanup now c)) as [item|] eqn:E.
  - assert (Hin' : In (k, item) (cleanup now c)) by now apply get_Some_In.
    rewrite cleanup_filter in Hin' by assumption.
    apply filter_In in Hin' as [_ Hok]. simpl in Hok.
    unfold isExpired. apply negb_true_iff in Hok. now rewrite Hok.
  - apply get_None_notin in E. contradiction.
Qed.

Lemma fold_oldest (first : CacheItem T) (rest : list (CacheItem T)) :
  exists before after,
    first :: rest
    = before
      ++ fold_left
           (fun oldest current =>
              if timestamp current <? timestamp oldest
              then current else oldest) rest first
      :: after
    /\ (forall x, In x before ->
          timestamp
            (fold_left
               (fun oldest current =>
                  if timestamp current <? timestamp oldest
                  then current else oldest) rest first) < timestamp x)
    /\ (forall x, In x after ->
          timestamp
            (fold_left
               (fun oldest current =>
                  if timestamp current <? timestamp oldest
                  then current else oldest) rest first) <= timestamp x).
Proof.
  induction rest as [|y rest IH] using rev_ind.
  - exists [], []. simpl. repeat split; intros ? [].
  - rewrite fold_left_app. simpl.
    set (r := fold_left _ rest first) in *.
    destruct IH as (before & after & Hl & Hb & Ha).
    destruct (timestamp y <? timestamp r) eqn:E.
    + apply Z.ltb_lt in E. exists (first :: rest), [].
      split; [now rewrite app_comm_cons|]. split; [|intros ? []].
      intros x Hx. rewrite Hl in Hx.
      apply in_app_or in Hx as [Hx|[Hx|Hx]].
      * specialize (Hb x Hx). lia.
      * subst x. lia.
      * specialize (Ha x Hx). lia.
    + apply Z.ltb_ge in E. exists before, (after ++ [y]).
      split; [|split; [exact Hb|]].
      * rewrite app_comm_cons, Hl, <- app_assoc. reflexivity.
      * intros x Hx. apply in_app_or in Hx as [Hx|[<-|[]]]; auto.
Qed.

Lemma fold_newest (first : CacheItem T) (rest : list (CacheItem T)) :
  exists before after,
    first :: rest
    = before
      ++ fold_left
           (fun newest current =>
              if timestamp current >? timestamp newest
              then current else newest) rest first
      :: after
    /\ (forall x, In x before ->
          timestamp x
          < timestamp
              (fold_left
                 (fun newest current =>
                    if timestamp current >? timestamp newest
                    then current else newest) rest first))
    /\ (forall x, In x after ->
          timestamp x
          <= timestamp
               (fold_left
                  (fun newest current =>
                     if timestamp current >? timestamp newest
                     then current else newest) rest first)).
Proof.
  induction rest as [|y rest IH] using rev_ind.
  - exists [], []. simpl. repeat split; intros ? [].
  - rewrite fold_left_app. simpl.
    set (r := fold_left _ rest first) in *.
    destruct IH as (before & after & Hl & Hb & Ha).
    destruct (timestamp y >? timestamp r) eqn:E; rewrite Z.gtb_ltb in E.
    + apply Z.ltb_lt in E. exists (first :: rest), [].
      split; [now rewrite app_comm_cons|]. split; [|intros ? []].
      intros x Hx. rewrite Hl in Hx.
      apply in_app_or in Hx as [Hx|[Hx|Hx]].
      * specialize (Hb x Hx). lia.
      * subst x. lia.
      * specialize (Ha x Hx). lia.
    + apply Z.ltb_ge in E. exists before, (after ++ [y]).
      split; [|split; [exact Hb|]].
      * rewrite app_comm_cons, Hl, <- app_assoc. reflexivity.
      * intros x Hx. apply in_app_or in Hx as [Hx|[<-|[]]]; auto.
Qed.

(** X6.  [getOldestItem] and [getNewestItem] return nothing exactly on an
    empty cache.  Otherwise the oldest item is the first value of the map,
    in insertion order, whose [timestamp] is least (every value before it is
    strictly younger, every value after it is not older), and the newest
    item is the first value whose [timestamp] is greatest. *)
Theorem oldest_and_newest_item c :
  (getOldestItem c = None <-> c = [])
  /\ (getNewestItem c = None <-> c = [])
  /\ (forall oldest,
        getOldestItem c = Some oldest ->
        exists before after,
          map snd c = before ++ oldest :: after
          /\ (forall x, In x before -> timestamp oldest < timestamp x)
          /\ (forall x, In x after -> timestamp oldest <= timestamp x))
  /\ (forall newest,
        getNewestItem c = Some newest ->
        exists before after,
          map snd c = before ++ newest :: after
          /\ (forall x, In x before -> timestamp x < timestamp newest)
          /\ (forall x, In x after -> timestamp x <= timestamp newest)).
Proof.
  unfold getOldestItem, getNewestItem.
  destruct c as [|[k item] c]; simpl.
  - repeat split; try discriminate; reflexivity.
  - split; [split; discriminate|]. split; [split; discriminate|]. split.
    + intros oldest [= <-]. apply fold_oldest.
    + intros newest [= <-]. apply fold_newest.
Qed.
End CacheListing.

(** ** The cache: persistence *)

Section CachePersistence.
Import CacheService CacheQueries.
Context {T : Type}.
Implicit Types (c : Cache T) (cfg : CacheConfig) (k : string).

Lemma load_fold_keeps (P : string * CacheItem T -> Prop) now
    (entries : list (string * CacheItem T)) c :
  (forall e, In e entries -> expiresAt (snd e) > now -> P e) ->
  JsMap.wf c -> Forall P c ->
  JsMap.wf
    (fold_left
       (fun m e =>
          if expiresAt (snd e) >? now then JsMap.set (fst e) (snd e) m
          else m) entries c)
  /\ Forall P
       (fold_left
          (fun m e =>
             if expiresAt (snd e) >? now then JsMap.set (fst e) (snd e) m
             else m) entries c).
Proof.
  revert c. induction entries as [|e entries IH]; intros c HP Hwf Hall; simpl.
  - now split.
  - apply IH.
    + intros e' He'. apply HP. now right.
    + destruct (expiresAt (snd e) >? now); auto using wf_set.
    + destruct (expiresAt (snd e) >? now) eqn:E; auto.
      apply Forall_set_key; auto.
      rewrite <- surjective_pairing. apply HP; [now left|].
      rewrite Z.gtb_ltb in E. apply Z.ltb_lt in E. lia.
Qed.

(** X7.  What the constructor loads from storage: only entries taken from
    the stored ones that expire strictly after [now], under pairwise
    distinct keys, each of which [get] returns at [now]; nothing at all
    when persistence is off, when the item is absent or does not parse, or
    when every stored entry has [expiresAt <= now]. *)
Theorem loaded_entries_are_live cfg now
    (entries : list (string * CacheItem T)) :
  JsMap.wf (construct cfg now (Some entries))
  /\ (forall k item,
        JsMap.get k (construct cfg now (Some entries)) = Some item ->
        In (k, item) entries
        /\ now < expiresAt item
        /\ fst (get now k (construct cfg now (Some entries)))
           = Some (data item))
  /\ (enablePersistence cfg = false ->
      construct cfg now (Some entries) = JsMap.empty)
  /\ construct cfg now (@None (list (string * CacheItem T))) = JsMap.empty
  /\ (Forall (fun e => expiresAt (snd e) <= now) entries ->
      construct cfg now (Some entries) = JsMap.empty).
Proof.
  unfold construct, loadFromStorage.
  split; [|split; [|split; [|split]]].
  - destruct (negb (enablePersistence cfg)); [constructor|].
    apply (load_fold_keeps (fun _ => True)); auto; constructor.
  - intros k item Hget.
    destruct (negb (enablePersistence cfg)); [discriminate|].
    destruct (load_fold_keeps
                (fun e => In e entries /\ now < expiresAt (snd e))
                now entries JsMap.empty) as [_ Hall].
    { intros e He Hgt. split; [assumption | lia]. }
    { constructor. }
    { constructor. }
    pose proof (get_Some_In _ _ _ Hget) as Hin.
    rewrite Forall_forall in Hall. destruct (Hall _ Hin) as [Hsrc Hlt].
    simpl in Hlt. split; [exact Hsrc|]. split; [exact Hlt|].
    unfold get, isExpired. rewrite Hget.
    replace (now >? expiresAt item) with false; [reflexivity|].
    symmetry. rewrite Z.gtb_ltb. apply Z.ltb_ge. lia.
  - intros Hoff. now rewrite Hoff.
  - now destruct (negb (enablePersistence cfg)).
  - intros Hold. destruct (negb (enablePersistence cfg)); [reflexivity|].
    generalize (@JsMap.empty (CacheItem T)).
    induction Hold as [|e entries He _ IH]; intros m; simpl.
    + reflexivity.
    + replace (expiresAt (snd e) >? now) with false; [apply IH|].
      symmetry. rewrite Z.gtb_ltb. apply Z.ltb_ge. lia.
Qed.

Lemma load_fold_distinct now (l : list (string * CacheItem T)) c :
  JsMap.wf (c ++ l) ->
  fold_left
    (fun m e =>
       if expiresAt (snd e) >? now then JsMap.set (fst e) (snd e) m else m)
    l c
  = c ++ filter (fun e => expiresAt (snd e) >? now) l.
Proof.
  revert c. induction l as [|[k item] l IH]; intros c Hwf; simpl.
  - now rewrite app_nil_r.
  - destruct (expiresAt item >? now).
    + assert (Hk : JsMap.get k c = None).
      { apply get_None_notin. unfold JsMap.wf, JsMap.keys in *.
        rewrite map_app in Hwf. simpl in Hwf.
        apply NoDup_remove_2 in Hwf. intros Hin. apply Hwf.
        apply in_or_app. now left. }
      rewrite set_absent by assumption.
      rewrite IH; [now rewrite <- app_assoc|].
      now rewrite <- app_assoc.
    + apply IH. unfold JsMap.wf, JsMap.keys in *.
      rewrite map_app in *. simpl in Hwf.
      now apply NoDup_remove_1 in Hwf.
Qed.

(** X8.  [loadFromStorage] loses nothing that is live and keeps the
    stored order: with persistence on, from parsed entries whose keys are
    pairwise distinct the constructor builds exactly the entries with
    [expiresAt > now], in the order in which they were stored; when every
    stored entry is live, the cache is the stored list itself. *)
Theorem stored_entries_load_in_order cfg now
    (entries : list (string * CacheItem T)) :
  enablePersistence cfg = true ->
  JsMap.wf entries ->
  construct cfg now (Some entries)
  = filter (fun e => expiresAt (snd e) >? now) entries
  /\ (Forall (fun e => now < expiresAt (snd e)) entries ->
      construct cfg now (Some entries) = entries).
Proof.
  intros Hon Hwf. unfold construct, loadFromStorage.
  rewrite Hon. cbn [negb].
  assert (Hload :
            fold_left
              (fun m e =>
                 if expiresAt (snd e) >? now
                 then JsMap.set (fst e) (snd e) m else m) entries JsMap.empty
            = filter (fun e => expiresAt (snd e) >? now) entries).
  { now rewrite load_fold_distinct. }
  split; [exact Hload|].
  intros Hlive. rewrite Hload. apply forallb_filter_id.
  apply forallb_forall. rewrite Forall_forall in Hlive.
  intros e He. specialize (Hlive e He).
  rewrite Z.gtb_ltb. apply Z.ltb_lt. exact Hlive.
Qed.
End CachePersistence.

(** ** The cache: what its entries look like, and [getOrSet] *)

Section CacheEntries.
Import CacheService CacheQueries.
Context {T : Type}.
Implicit Types (c : Cache T) (cfg : CacheConfig) (k : string).

Lemma coherent_later start now now' (e : string * CacheItem T) :
  now <= now' -> coherentEntry start now e -> coherentEntry start now' e.
Proof. unfold coherentEntry. intuition lia. Qed.

Lemma step_coherent cfg start now c (op : Op T) :
  start <= now ->
  Forall (coherentEntry start now) c ->
  (forall t, opTime op = Some t -> now <= t) ->
  Forall (coherentEntry start
            (match opTime op with Some t => t | None => now end))
    (step cfg c op).
Proof.
  intros Hstart Hall Hclock.
  destruct op as [t k d ttl|t k|t k|k| |t|t|t]; simpl;
    try (specialize (Hclock t eq_refl);
         assert (Hall' : Forall (coherentEntry start t) c)
           by (eapply Forall_impl; [|exact Hall];
               intros e; now apply coherent_later)).
  - unfold set. apply Forall_enforceMaxSize. apply Forall_set_key; auto.
    unfold coherentEntry. simpl. repeat split; lia.
  - unfold get. destruct (JsMap.get k c) as [item|] eqn:E; simpl; auto.
    destruct (isExpired t item); simpl.
    + now apply Forall_filter.
    + apply Forall_set_key; auto.
      apply get_Some_In in E. rewrite Forall_forall in Hall.
      destruct (Hall _ E) as (Hkey & Hs & Hla & Hnow & Hcount).
      unfold coherentEntry. simpl in *. repeat split; lia || assumption.
  - unfold has. destruct (JsMap.get k c) as [item|]; simpl; auto.
    destruct (isExpired t item); simpl; auto. now apply Forall_filter.
  - now apply Forall_filter.
  - constructor.
  - unfold cleanup. rewrite deleteAll_filter. now apply Forall_filter.
  - unfold cleanup. rewrite deleteAll_filter. now apply Forall_filter.
  - unfold cleanup. rewrite deleteAll_filter. now apply Forall_filter.
Qed.

Lemma endTime_after now (ops : list (Op T)) :
  clockMonotonic now ops -> now <= endTime now ops.
Proof.
  revert now. induction ops as [|op ops IH]; intros now H; simpl; [lia|].
  simpl in H. destruct (opTime op) as [t|].
  - destruct H as [Hle H]. specialize (IH t H). lia.
  - now apply IH.
Qed.

(** X9.  In every run of cache operations from the empty cache under a
    clock that never goes back, every entry of the map is stored under its
    own [key], was created at or after the start, has
    [timestamp <= lastAccessed <= ] the last clock reading, and a
    non-negative [accessCount]; the keys stay pairwise distinct. *)
Theorem entries_stay_coherent cfg (ops : list (Op T)) start :
  clockMonotonic start ops ->
  Forall (coherentEntry start (endTime start ops))
    (run cfg ops JsMap.empty)
  /\ JsMap.wf (run cfg ops (@JsMap.empty (CacheItem T))).
Proof.
  intros Hclock. split.
  - assert (Hgen : forall (l : list (Op T)) now c,
               start <= now -> clockMonotonic now l ->
               Forall (coherentEntry start now) c ->
               Forall (coherentEntry start (endTime now l)) (run cfg l c)).
    { unfold run. induction l as [|op l IH]; intros now c Hs Hcl Hall;
        simpl; auto.
      simpl in Hcl. apply IH.
      - destruct (opTime op) as [t|]; [destruct Hcl; lia | assumption].
      - destruct (opTime op); tauto.
      - apply step_coherent; auto.
        intros t Ht. rewrite Ht in Hcl. tauto. }
    apply Hgen; [lia | assumption | constructor].
  - assert (Hgen : forall (l : list (Op T)) c,
               JsMap.wf c -> JsMap.wf (run cfg l c)).
    { unfold run. induction l as [|op l IH]; intros c Hwf; simpl; auto.
      apply IH.
      destruct op as [t k d ttl|t k|t k|k| |t|t|t]; simpl;
        auto using wf_cleanup, wf_delete.
      - unfold set. now apply wf_enforceMaxSize, wf_set.
      - unfold get. destruct (JsMap.get k c) as [item|]; simpl; auto.
        destruct (isExpired t item); simpl; auto using wf_delete, wf_set.
      - unfold has. destruct (JsMap.get k c) as [item|]; simpl; auto.
        destruct (isExpired t item); simpl; auto using wf_delete.
      - constructor. }
    apply Hgen. constructor.
Qed.

Lemma last_default_irrelevant (x : Z) (l : list Z) (d d' : Z) :
  last (x :: l) d = last (x :: l) d'.
Proof.
  revert x. induction l as [|y l IH]; intros x; [reflexivity|].
  change (last (y :: l) d = last (y :: l) d'). apply IH.
Qed.

(** X10.  [accessCount] counts the hits: after [get] was called on a key at
    clock readings none of which is past the entry's expiry, the entry has
    its data and expiry unchanged and its [accessCount] has grown by the
    number of calls. *)
Theorem accessCount_counts_the_hits cfg k (times : list Z) c item :
  JsMap.get k c = Some item ->
  Forall (fun t => t <= expiresAt item) times ->
  exists item',
    JsMap.get k (run cfg (map (fun t => OpGet t k) times) c) = Some item'
    /\ accessCount item' = accessCount item + Z.of_nat (length times)
    /\ data item' = data item
    /\ expiresAt item' = expiresAt item
    /\ lastAccessed item' = last times (lastAccessed item).
Proof.
  intros Hk Hlive. revert c item Hk Hlive. unfold run.
  induction times as [|t times IH]; intros c item Hk Hlive.
  - exists item. simpl. repeat split; [assumption | lia].
  - inversion Hlive as [|? ? Ht Hrest]; subst. simpl.
    unfold get. rewrite Hk. unfold isExpired.
    replace (t >? expiresAt item) with false
      by (symmetry; rewrite Z.gtb_ltb; apply Z.ltb_ge; lia).
    simpl snd.
    destruct (IH (JsMap.set k (touch t item) c) (touch t item))
      as (item' & Hget & Hcount & Hdata & Hexp & Hlast).
    { apply get_set_same. }
    { exact Hrest. }
    exists item'. split; [exact Hget|]. simpl in *.
    split; [lia|]. split; [assumption|]. split; [assumption|].
    rewrite Hlast. destruct times as [|z times]; [reflexivity|].
    change (last (t :: z :: times) (lastAccessed item))
      with (last (z :: times) (lastAccessed item)).
    apply last_default_irrelevant.
Qed.

End CacheEntries.

(** ** The session manager: [login] *)

Section ServiceLogin.
Import AuthService Spec.
Local Open Scope string_scope.
Local Open Scope Z_scope.
Local Open Scope list_scope.
Implicit Types (s : AuthService.t) (env : StorageFaults) (now : Z).

Lemma timers_call (c : Call) s :
  timeouts (call c s) = timeouts s
  /\ refreshTokenTimer (call c s) = refreshTokenTimer s.
Proof. split; reflexivity. Qed.

(** A delay that fits 31 bits is taken as it is; a larger one is cut
    short, and one between [2^31] and [2^32 - 1] counts as no delay. *)
Lemma timerDelay_fits (x : Z) : 0 <= x <= 2 ^ 31 - 1 -> timerDelay x = x.
Proof.
  intros H. unfold timerDelay, toInt32.
  change (2 ^ 31) with 2147483648 in *. change (2 ^ 32) with 4294967296.
  rewrite Z.mod_small by lia. lia.
Qed.

Lemma timerDelay_bounds (x : Z) : 0 <= x -> 0 <= timerDelay x <= x.
Proof.
  intros H. unfold timerDelay, toInt32.
  change (2 ^ 31) with 2147483648. change (2 ^ 32) with 4294967296.
  pose proof (Z.mod_le (x + 2147483648) 4294967296). lia.
Qed.

Lemma timerDelay_wraps (x : Z) : 2 ^ 31 <= x < 2 ^ 32 -> timerDelay x = 0.
Proof.
  intros H. unfold timerDelay, toInt32.
  change (2 ^ 31) with 2147483648 in *. change (2 ^ 32) with 4294967296 in *.
  replace ((x + 2147483648) mod 4294967296) with (x + 2147483648 - 4294967296).
  - lia.
  - apply Z.mod_unique with (q := 1); lia.
Qed.

(** The refresh timer after [scheduleTokenRefresh] on a service that
    tracked its timer. *)
Lemma schedule_outcome now (e : option Z) s :
  refreshTimerTracked s ->
  match e with
  | Some e =>
      if e - now - 10 * 60 * 1000 >? 0
      then exists id,
          refreshTokenTimer (scheduleTokenRefresh now (Some e) s) = Some id
          /\ timeouts (scheduleTokenRefresh now (Some e) s)
             = [(id, now + timerDelay (e - now - 10 * 60 * 1000))]
      else refreshTokenTimer (scheduleTokenRefresh now (Some e) s) = None
           /\ timeouts (scheduleTokenRefresh now (Some e) s) = []
  | None =>
      refreshTokenTimer (scheduleTokenRefresh now None s) = None
      /\ timeouts (scheduleTokenRefresh now None s) = []
  end.
Proof.
  intros Htr. destruct (tracked_clearRefreshTimer s Htr) as [Ht Hh].
  unfold scheduleTokenRefresh. destruct e as [e|]; [|now split].
  destruct (e - now - 10 * 60 * 1000 >? 0); [|now split].
  unfold setTimeout. cbv beta iota zeta.
  exists (nextTimerId (clearRefreshTimer s)). cbn [refreshTokenTimer
    setRefreshTokenTimer timeouts]. rewrite Ht. split; reflexivity.
Qed.

(** X12.  A [login] that does not succeed -- the request is rejected, it
    resolves without a body, or the body reports no success -- throws the
    one fixed error message, whatever message the server sent, and leaves
    the session, the stored snapshot and the timers exactly as they were. *)
Theorem failed_login_changes_nothing env now
    (reply : Reply LoginResponse.t) s :
  reply = Rejects \/ reply = Resolves None
  \/ (exists r, reply = Resolves (Some r)
                /\ LoginResponse.success r = false) ->
  fst (login env now reply s)
  = Threw (Thrown "Login failed. Please check your credentials.")
  /\ currentState (snd (login env now reply s)) = currentState s
  /\ localStorage (snd (login env now reply s)) = localStorage s
  /\ refreshTokenTimer (snd (login env now reply s)) = refreshTokenTimer s
  /\ timeouts (snd (login env now reply s)) = timeouts s
  /\ calls (snd (login env now reply s))
     = calls s ++ [LogInfo "Login attempt started";
                   HttpPost "/api/auth/login"; LogError "Login failed"].
Proof.
  intros [->|[->|(r & -> & Hno)]]; unfold login; cbv beta zeta;
    rewrite ?Hno; simpl; rewrite <- ?app_assoc; now repeat split.
Qed.

(** X13.  A successful [login] at [now] returns and installs the snapshot
    built from the response, with [loginTime = lastActivity = now].  The
    snapshot, tokens included, is what storage holds afterwards unless the
    write throws, in which case storage keeps what it held.  In a service
    that tracked its timer, no refresh is scheduled when the token lives
    ten minutes or less; otherwise exactly one is, with the delay
    [expiresAt - now - 10 min] as [window.setTimeout] takes it, a 32-bit
    signed integer: the timer is due ten minutes before the token expires
    when that delay is at most [2^31 - 1] ms (about 24.8 days), it is never
    due later than that, and for a delay from [2^31] to [2^32 - 1] ms it
    is due at once. *)
Theorem successful_login_installs_session env now (r : LoginResponse.t) s :
  LoginResponse.success r = true ->
  fst (login env now (Resolves (Some r)) s)
  = Returned (currentState (snd (login env now (Resolves (Some r)) s)))
  /\ currentState (snd (login env now (Resolves (Some r)) s))
     = {| AuthState.isAuthenticated := true;
          AuthState.user := Some (LoginResponse.user r);
          AuthState.token := Some (LoginResponse.token r);
          AuthState.refreshToken := Some (LoginResponse.refreshToken r);
          AuthState.expiresAt := Some (LoginResponse.expiresAt r);
          AuthState.loginTime := Some now;
          AuthState.lastActivity := Some now |}
  /\ (setItemThrows env = false ->
      localStorage (snd (login env now (Resolves (Some r)) s))
      = Some (Snapshot
                (currentState (snd (login env now (Resolves (Some r)) s)))))
  /\ (setItemThrows env = true ->
      localStorage (snd (login env now (Resolves (Some r)) s))
      = localStorage s)
  /\ (refreshTimerTracked s ->
      (10 * 60 * 1000 < LoginResponse.expiresAt r - now ->
       let refreshTime := LoginResponse.expiresAt r - now - 10 * 60 * 1000 in
       exists id due,
         refreshTokenTimer (snd (login env now (Resolves (Some r)) s))
         = Some id
         /\ timeouts (snd (login env now (Resolves (Some r)) s))
            = [(id, due)]
         /\ due = now + timerDelay refreshTime
         /\ now <= due <= LoginResponse.expiresAt r - 10 * 60 * 1000
         /\ (refreshTime <= 2 ^ 31 - 1 ->
             due = LoginResponse.expiresAt r - 10 * 60 * 1000)
         /\ (2 ^ 31 <= refreshTime < 2 ^ 32 -> due = now))
      /\ (LoginResponse.expiresAt r - now <= 10 * 60 * 1000 ->
          refreshTokenTimer (snd (login env now (Resolves (Some r)) s))
          = None
          /\ timeouts (snd (login env now (Resolves (Some r)) s)) = [])).
Proof.
  intros Hok. unfold login. cbv beta zeta. rewrite Hok. cbn [fst snd].
  unfold currentState.
  rewrite subject_call, subject_scheduleTokenRefresh,
    subject_updateAuthState.
  split; [reflexivity|]. split; [reflexivity|].
  split; [|split].
  - intros Hset. unfold scheduleTokenRefresh, clearRefreshTimer,
      updateAuthState, storeAuthState. rewrite Hset. cbn [AuthState.expiresAt].
    simpl. destruct (refreshTokenTimer s);
      destruct (LoginResponse.expiresAt r - now - 600000 >? 0); reflexivity.
  - intros Hset. unfold scheduleTokenRefresh, clearRefreshTimer,
      updateAuthState, storeAuthState. rewrite Hset. cbn [AuthState.expiresAt].
    simpl. destruct (refreshTokenTimer s);
      destruct (LoginResponse.expiresAt r - now - 600000 >? 0); reflexivity.
  - intros Htr.
    set (s1 := updateAuthState env _ _).
    assert (Htr1 : refreshTimerTracked s1).
    { apply tracked_updateAuthState. now repeat apply tracked_call. }
    pose proof (schedule_outcome now
                  (Some (LoginResponse.expiresAt r)) s1 Htr1) as Hsch.
    cbv beta iota in Hsch. cbn [AuthState.expiresAt].
    destruct (timers_call (LogInfo "Login successful")
                (scheduleTokenRefresh now
                   (Some (LoginResponse.expiresAt r)) s1)) as [-> ->].
    destruct (LoginResponse.expiresAt r - now - 10 * 60 * 1000 >? 0) eqn:E;
      rewrite Z.gtb_ltb in E.
    + apply Z.ltb_lt in E. split; [|intros H; lia].
      intros _. destruct Hsch as (id & Hid & Hts).
      set (refreshTime := LoginResponse.expiresAt r - now - 10 * 60 * 1000)
        in *.
      exists id, (now + timerDelay refreshTime).
      pose proof (timerDelay_bounds refreshTime) as Hb.
      split; [exact Hid|]. split; [exact Hts|]. split; [reflexivity|].
      split; [unfold refreshTime in *; lia|]. split.
      * intros Hfit. rewrite timerDelay_fits; unfold refreshTime in *; lia.
      * intros Hbig. rewrite timerDelay_wraps by exact Hbig. lia.
    + apply Z.ltb_ge in E. split; [intros H; lia | intros _; exact Hsch].
Qed.

(** X14.  [login] followed by the guard: right after a successful login of
    an active user whose token expires more than five minutes later, the
    guard admits the session on every route whose required roles and
    permissions the user holds, also on routes that require secure
    access, and makes no call on the logger or the notifier. *)
Theorem login_then_guard_allows env now (r : LoginResponse.t) s
    (routeData : option RouteData.t) :
  LoginResponse.success r = true ->
  AuthUser.isActive (LoginResponse.user r) = true ->
  now < LoginResponse.expiresAt r - 5 * 60 * 1000 ->
  AuthGuard.lacksRoles (LoginResponse.user r) routeData = false ->
  AuthGuard.lacksPermissions (LoginResponse.user r) routeData = false ->
  AuthGuard.validateAuthState now
    (currentState (snd (login env now (Resolves (Some r)) s))) routeData
  = (true, []).
Proof.
  intros Hok Hact Htok Hrol Hper. unfold login. cbv beta zeta.
  rewrite Hok. cbn [snd]. unfold currentState.
  rewrite subject_call, subject_scheduleTokenRefresh,
    subject_updateAuthState.
  unfold AuthGuard.validateAuthState. cbn [AuthState.isAuthenticated
    AuthState.user AuthState.expiresAt AuthState.lastActivity].
  rewrite Hact, Hrol, Hper. cbn [negb].
  unfold AuthGuard.isTokenExpired, AuthGuard.isSessionExpired. cbv zeta.
  replace (now >=? LoginResponse.expiresAt r - 5 * 60 * 1000) with false
    by (symmetry; rewrite Z.geb_leb; apply Z.leb_gt; lia).
  replace (now - now >? 30 * 60 * 1000) with false
    by (symmetry; rewrite Z.gtb_ltb; apply Z.ltb_ge; lia).
  unfold AuthGuard.lacksSecureAccess, AuthGuard.hasSecureAccess.
  cbn [AuthState.loginTime]. cbv zeta.
  replace (now - now <? 60 * 60 * 1000) with true
    by (symmetry; apply Z.ltb_lt; lia).
  destruct routeData as [rd|]; [|reflexivity].
  destruct (RouteData.requiresSecureAccess rd); reflexivity.
Qed.

(** The constructor over the storage a successful [login] left. *)
Lemma restore_login_snapshot env env' now now'
    (r : LoginResponse.t) s :
  LoginResponse.success r = true ->
  setItemThrows env = false ->
  getItemThrows env' = false ->
  (now' < LoginResponse.expiresAt r ->
   LoginResponse.token r <> "" ->
   currentState
     (construct env' now'
        (localStorage (snd (login env now (Resolves (Some r)) s))))
   = currentState (snd (login env now (Resolves (Some r)) s)))
  /\ (LoginResponse.expiresAt r <= now' \/ LoginResponse.token r = "" ->
      currentState
        (construct env' now'
           (localStorage (snd (login env now (Resolves (Some r)) s))))
      = emptyAuthState
      /\ (removeItemThrows env' = false ->
          localStorage
            (construct env' now'
               (localStorage (snd (login env now (Resolves (Some r)) s))))
          = None)).
Proof.
  intros Hok Hset Hget.
  assert (Hst : localStorage (snd (login env now (Resolves (Some r)) s))
                = Some (Snapshot
                          (currentState
                             (snd (login env now (Resolves (Some r)) s))))).
  { unfold login. cbv beta zeta. rewrite Hok. cbn [snd].
    unfold currentState, scheduleTokenRefresh, clearRefreshTimer,
      updateAuthState, storeAuthState. rewrite Hset.
    cbn [AuthState.expiresAt]. simpl.
    destruct (refreshTokenTimer s);
      destruct (LoginResponse.expiresAt r - now - 600000 >? 0); reflexivity. }
  assert (Hcs : currentState (snd (login env now (Resolves (Some r)) s))
                = {| AuthState.isAuthenticated := true;
                     AuthState.user := Some (LoginResponse.user r);
                     AuthState.token := Some (LoginResponse.token r);
                     AuthState.refreshToken :=
                       Some (LoginResponse.refreshToken r);
                     AuthState.expiresAt := Some (LoginResponse.expiresAt r);
                     AuthState.loginTime := Some now;
                     AuthState.lastActivity := Some now |}).
  { unfold login. cbv beta zeta. rewrite Hok. cbn [snd].
    unfold currentState.
    now rewrite subject_call, subject_scheduleTokenRefresh,
      subject_updateAuthState. }
  rewrite Hst, Hcs. clear Hst Hcs.
  unfold construct, setupActivityMonitoring, initializeAuthState.
  cbv beta zeta. rewrite Hget. cbn [localStorage].
  unfold isValidStoredAuth. cbn [AuthState.isAuthenticated AuthState.user
    AuthState.token AuthState.expiresAt isSome andb].
  split.
  - intros Hlive Htok.
    replace (truthy (Some (LoginResponse.token r))) with true
      by (destruct (LoginResponse.token r); [congruence | reflexivity]).
    replace (LoginResponse.expiresAt r >? now') with true
      by (symmetry; rewrite Z.gtb_ltb; apply Z.ltb_lt; lia).
    cbn [andb]. unfold currentState, setInterval. cbv beta iota zeta. simpl.
    unfold scheduleTokenRefresh. simpl.
    destruct (LoginResponse.expiresAt r - now' - 600000 >? 0); reflexivity.
  - intros Hdead.
    replace (truthy (Some (LoginResponse.token r))
             && (LoginResponse.expiresAt r >? now')) with false.
    + unfold currentState, setInterval. cbv beta iota zeta.
      unfold clearAuthState, clearStoredAuth, updateAuthState,
        storeAuthState.
      destruct (setItemThrows env'), (removeItemThrows env'); simpl;
        split; try reflexivity; intros; discriminate.
    + symmetry. destruct Hdead as [Hexp|Htok].
      * apply andb_false_iff. right. rewrite Z.gtb_ltb. apply Z.ltb_ge. lia.
      * rewrite Htok. reflexivity.
Qed.

(** X15.  Persisting and restoring a session round trip: the snapshot a
    successful [login] wrote to storage is restored by the constructor of a
    later service exactly when it is still valid -- the token is not empty
    and [expiresAt] is after the new [now] -- and then the restored state
    is the state the login installed.  Otherwise the constructor starts
    from the empty state and removes the item from storage. *)
Theorem login_snapshot_is_restored env env' now now'
    (r : LoginResponse.t) s :
  LoginResponse.success r = true ->
  setItemThrows env = false ->
  getItemThrows env' = false ->
  (now' < LoginResponse.expiresAt r ->
   LoginResponse.token r <> "" ->
   currentState
     (construct env' now'
        (localStorage (snd (login env now (Resolves (Some r)) s))))
   = currentState (snd (login env now (Resolves (Some r)) s)))
  /\ (LoginResponse.expiresAt r <= now' \/ LoginResponse.token r = "" ->
      currentState
        (construct env' now'
           (localStorage (snd (login env now (Resolves (Some r)) s))))
      = emptyAuthState
      /\ (removeItemThrows env' = false ->
          localStorage
            (construct env' now'
               (localStorage (snd (login env now (Resolves (Some r)) s))))
          = None)).
Proof. apply restore_login_snapshot. Qed.
End ServiceLogin.

(** ** The session manager: refresh, activity and timers *)

Section ServiceLifecycle.
Import AuthService Spec.
Local Open Scope string_scope.
Local Open Scope Z_scope.
Local Open Scope list_scope.
Implicit Types (s : AuthService.t) (env : StorageFaults) (now : Z).

(** X16.  A successful [refreshToken] replaces the access token and its
    expiry and sets [lastActivity] to [now]; it keeps who is logged in, the
    refresh token and the login time, so it never reopens the secure-access
    window of the guard. *)
Theorem successful_refresh_keeps_the_login env now
    (r : RefreshTokenResponse.t) s :
  truthy (AuthState.refreshToken (currentState s)) = true ->
  RefreshTokenResponse.success r = true ->
  fst (refreshToken env now (Resolves (Some r)) s)
  = Returned (currentState (snd (refreshToken env now (Resolves (Some r)) s)))
  /\ currentState (snd (refreshToken env now (Resolves (Some r)) s))
     = {| AuthState.isAuthenticated :=
            AuthState.isAuthenticated (currentState s);
          AuthState.user := AuthState.user (currentState s);
          AuthState.token := Some (RefreshTokenResponse.token r);
          AuthState.refreshToken := AuthState.refreshToken (currentState s);
          AuthState.expiresAt := Some (RefreshTokenResponse.expiresAt r);
          AuthState.loginTime := AuthState.loginTime (currentState s);
          AuthState.lastActivity := Some now |}
  /\ (forall t,
        AuthGuard.hasSecureAccess t
          (currentState (snd (refreshToken env now (Resolves (Some r)) s)))
        = AuthGuard.hasSecureAccess t (currentState s)).
Proof.
  unfold currentState. intros Htok Hok.
  unfold refreshToken. cbv beta zeta. rewrite Htok, Hok. cbn [negb fst snd].
  rewrite subject_call, subject_scheduleTokenRefresh,
    subject_updateAuthState.
  repeat split.
Qed.

Lemma length_timeouts_logout env reason reply s :
  refreshTimerTracked s ->
  (length (timeouts (logout env reason reply s)) <= 1)%nat.
Proof.
  intros Htr. rewrite no_timeout_after_logout by assumption. simpl. lia.
Qed.

Lemma length_timeouts_schedule now e s :
  refreshTimerTracked s ->
  (length (timeouts (scheduleTokenRefresh now e s)) <= 1)%nat.
Proof.
  intros Htr. pose proof (schedule_outcome now e s Htr) as H.
  destruct e as [e|].
  - destruct (e - now - 10 * 60 * 1000 >? 0).
    + destruct H as (id & _ & ->). simpl. lia.
    + destruct H as [_ ->]. simpl. lia.
  - destruct H as [_ ->]. simpl. lia.
Qed.

Lemma length_timeouts_refreshToken env now reply s :
  refreshTimerTracked s ->
  (length (timeouts s) <= 1)%nat ->
  (length (timeouts (snd (refreshToken env now reply s))) <= 1)%nat.
Proof.
  intros Htr Hlen. unfold refreshToken. cbv beta zeta.
  assert (Hfail : forall s0,
             timeouts s0 = timeouts s ->
             (length (timeouts (clearAuthState env s0)) <= 1)%nat).
  { intros s0 H0. destruct (timers_clearAuthState env s0) as [-> _].
    now rewrite H0. }
  destruct (negb (truthy (AuthState.refreshToken (authStateSubject s))));
    cbn [snd]; [now apply Hfail|].
  destruct reply as [|[response|]]; cbn [snd]; try (now apply Hfail).
  destruct (RefreshTokenResponse.success response); cbn [snd];
    [|now apply Hfail].
  destruct (timers_call (LogInfo "Token refresh successful")
              (scheduleTokenRefresh now
                 (Some (RefreshTokenResponse.expiresAt response))
                 (updateAuthState env
                    {| AuthState.isAuthenticated :=
                         AuthState.isAuthenticated (authStateSubject s);
                       AuthState.user := AuthState.user (authStateSubject s);
                       AuthState.token :=
                         Some (RefreshTokenResponse.token response);
                       AuthState.refreshToken :=
                         AuthState.refreshToken (authStateSubject s);
                       AuthState.expiresAt :=
                         Some (RefreshTokenResponse.expiresAt response);
                       AuthState.loginTime :=
                         AuthState.loginTime (authStateSubject s);
                       AuthState.lastActivity := Some now |}
                    (call (HttpPost "/api/auth/refresh") s)))) as [Ht _].
  cbn [AuthState.expiresAt]. rewrite Ht.
  apply length_timeouts_schedule, tracked_updateAuthState.
  now apply tracked_call.
Qed.

Lemma length_timeouts_step env now (op : Op) s :
  refreshTimerTracked s ->
  (length (timeouts s) <= 1)%nat ->
  (length (timeouts (step env now op s)) <= 1)%nat.
Proof.
  intros Htr Hlen.
  destruct op as [reply|reason reply|reply| | |id reply lreply|id lreply];
    unfold step.
  - unfold login. cbv beta zeta.
    destruct reply as [|[response|]]; cbn [snd]; auto.
    destruct (LoginResponse.success response); cbn [snd]; auto.
    cbn [AuthState.expiresAt].
    change (timeouts (call ?c ?x)) with (timeouts x).
    apply length_timeouts_schedule, tracked_updateAuthState.
    now repeat apply tracked_call.
  - now apply length_timeouts_logout.
  - now apply length_timeouts_refreshToken.
  - unfold updateLastActivity.
    destruct (AuthState.isAuthenticated (authStateSubject s)); auto.
  - destruct (timers_clearAuthState env s) as [-> _]. exact Hlen.
  - destruct (isPendingAt now id s); auto.
    unfold scheduledRefresh.
    assert (Hlen' : (length (timeouts (clearTimeout id s)) <= 1)%nat).
    { simpl. pose proof (filter_length_le
                           (fun e => negb (Pos.eqb (fst e) id)) (timeouts s)).
      lia. }
    pose proof (tracked_clearTimeout id s Htr) as Htr'.
    pose proof (length_timeouts_refreshToken env now reply _ Htr' Hlen')
      as Hr.
    pose proof (tracked_refreshToken env now reply _ Htr') as Hrt.
    destruct (refreshToken env now reply (clearTimeout id s)) as [[a|e] s'];
      cbn [snd] in Hr, Hrt; cbv beta iota zeta; auto.
    apply length_timeouts_logout. now apply tracked_call.
  - destruct (existsb (Pos.eqb id) (intervals s)); auto.
    unfold activityCheck.
    destruct (AuthState.isAuthenticated (authStateSubject s)); auto.
    destruct (AuthState.lastActivity (authStateSubject s)) as [l|]; auto.
    cbv zeta. destruct (now - l >? 30 * 60 * 1000); auto.
    apply length_timeouts_logout. now apply tracked_call.
Qed.

(** X17.  At most one refresh timer is ever pending: after the constructor
    and after every run of operations and timer callbacks, the window holds
    no pending timeout or exactly one, and that one is the timeout whose
    identifier the service keeps in [refreshTokenTimer]. *)
Theorem at_most_one_refresh_timer env now stored
    (ops : list (StorageFaults * Z * Op)) :
  (length (timeouts (run ops (construct env now stored))) <= 1)%nat
  /\ (forall id due,
        In (id, due) (timeouts (run ops (construct env now stored))) ->
        refreshTokenTimer (run ops (construct env now stored)) = Some id).
Proof.
  assert (Hgen : forall (l : list (StorageFaults * Z * Op)) s,
             refreshTimerTracked s -> (length (timeouts s) <= 1)%nat ->
             refreshTimerTracked (run l s)
             /\ (length (timeouts (run l s)) <= 1)%nat).
  { induction l as [|[[env' now'] op] l IH]; intros s Htr Hlen; simpl;
      [now split|].
    apply IH; [now apply tracked_step | now apply length_timeouts_step]. }
  assert (Hc : (length (timeouts (construct env now stored)) <= 1)%nat).
  { unfold construct, setupActivityMonitoring, setInterval.
    cbv beta iota zeta. cbn [timeouts]. unfold initializeAuthState.
    cbv beta zeta.
    destruct (getItemThrows env).
    - destruct (timers_clearAuthState env
                  (call (LogError "Failed to initialize auth state")
                     (mk emptyAuthState None None stored [] [] 1%positive
                        []))) as [-> _]. simpl. lia.
    - cbn [localStorage].
      destruct stored as [[| |a]|]; try (simpl; lia).
      + destruct (timers_clearAuthState env
                    (call (LogError "Failed to initialize auth state")
                       (mk emptyAuthState None None (Some Unparsable) [] []
                          1%positive []))) as [-> _]. simpl. lia.
      + destruct (isValidStoredAuth now a).
        * change (timeouts (call ?c ?x)) with (timeouts x).
          apply length_timeouts_schedule. now apply tracked_nothing_pending.
        * change (timeouts (call ?c ?x)) with (timeouts x).
          destruct (timers_clearAuthState env
                      (mk emptyAuthState None None (Some (Snapshot a)) [] []
                         1%positive [])) as [-> _]. simpl. lia. }
  destruct (Hgen ops (construct env now stored)
              (tracked_construct env now stored) Hc) as [Htr Hlen].
  split; [exact Hlen | exact Htr].
Qed.

(** X18.  The inactivity monitor uses the threshold of the guard: its check
    logs the session out exactly when the session is authenticated and the
    guard's [isSessionExpired] holds at that instant (more than thirty
    minutes since [lastActivity]); in every other case it leaves the
    service untouched. *)
Theorem inactivity_check_agrees_with_guard env now (lreply : Reply unit) s :
  (AuthState.isAuthenticated (currentState s) = true
   /\ AuthGuard.isSessionExpired now
        (AuthState.lastActivity (currentState s)) = true ->
   activityCheck env now lreply s
   = logout env session_timeout lreply
       (call (ShowWarning "Session Expired"
                "Your session has expired due to inactivity.") s)
   /\ currentState (activityCheck env now lreply s) = emptyAuthState)
  /\ (AuthState.isAuthenticated (currentState s) = false
      \/ AuthGuard.isSessionExpired now
           (AuthState.lastActivity (currentState s)) = false ->
      activityCheck env now lreply s = s).
Proof.
  unfold currentState, activityCheck, AuthGuard.isSessionExpired.
  destruct (AuthState.isAuthenticated (authStateSubject s)).
  - destruct (AuthState.lastActivity (authStateSubject s)) as [l|];
      cbv zeta.
    + destruct (now - l >? 30 * 60 * 1000).
      * split; [|intros [H|H]; discriminate].
        intros _. split; [reflexivity | apply subject_logout].
      * split; [intros [_ H]; discriminate | reflexivity].
    + split; [intros [_ H]; discriminate | reflexivity].
  - split; [intros [H _]; discriminate | reflexivity].
Qed.

(** [updateLastActivity] rebuilds the snapshot and touches nothing else. *)
Lemma updateLastActivity_frame now s :
  (AuthState.isAuthenticated (currentState s) = true ->
   currentState (updateLastActivity now s)
   = {| AuthState.isAuthenticated := true;
        AuthState.user := AuthState.user (currentState s);
        AuthState.token := AuthState.token (currentState s);
        AuthState.refreshToken := AuthState.refreshToken (currentState s);
        AuthState.expiresAt := AuthState.expiresAt (currentState s);
        AuthState.loginTime := AuthState.loginTime (currentState s);
        AuthState.lastActivity := Some now |}
   /\ AuthGuard.isSessionExpired now
        (AuthState.lastActivity (currentState (updateLastActivity now s)))
      = false)
  /\ (AuthState.isAuthenticated (currentState s) = false ->
      updateLastActivity now s = s)
  /\ localStorage (updateLastActivity now s) = localStorage s
  /\ timeouts (updateLastActivity now s) = timeouts s
  /\ refreshTokenTimer (updateLastActivity now s) = refreshTokenTimer s
  /\ calls (updateLastActivity now s) = calls s.
Proof.
  unfold currentState, updateLastActivity.
  destruct (AuthState.isAuthenticated (authStateSubject s)) eqn:E; simpl.
  - split; [|split; [discriminate | now repeat split]].
    intros _. split; [reflexivity|].
    rewrite Z.gtb_ltb. apply Z.ltb_ge. lia.
  - split; [discriminate | now repeat split].
Qed.

(** X19.  Activity is recorded in memory only: after a successful [login]
    at [now] and an [updateLastActivity] at [t], the current snapshot has
    [lastActivity = t] but storage still holds the snapshot of the login, so
    a service constructed later over that storage, while the token is valid,
    restores the session with [lastActivity = now]. *)
Theorem activity_updates_are_not_persisted env env' now t now'
    (r : LoginResponse.t) s :
  LoginResponse.success r = true ->
  setItemThrows env = false ->
  getItemThrows env' = false ->
  now' < LoginResponse.expiresAt r ->
  LoginResponse.token r <> "" ->
  AuthState.lastActivity
    (currentState
       (updateLastActivity t (snd (login env now (Resolves (Some r)) s))))
  = Some t
  /\ localStorage
       (updateLastActivity t (snd (login env now (Resolves (Some r)) s)))
     = localStorage (snd (login env now (Resolves (Some r)) s))
  /\ AuthState.lastActivity
       (currentState
          (construct env' now'
             (localStorage
                (updateLastActivity t
                   (snd (login env now (Resolves (Some r)) s))))))
     = Some now.
Proof.
  intros Hok Hset Hget Hlive Htok.
  set (s1 := snd (login env now (Resolves (Some r)) s)).
  destruct (updateLastActivity_frame t s1) as (Hauth & _ & Hst & _).
  assert (Hcs : currentState s1
                = {| AuthState.isAuthenticated := true;
                     AuthState.user := Some (LoginResponse.user r);
                     AuthState.token := Some (LoginResponse.token r);
                     AuthState.refreshToken :=
                       Some (LoginResponse.refreshToken r);
                     AuthState.expiresAt := Some (LoginResponse.expiresAt r);
                     AuthState.loginTime := Some now;
                     AuthState.lastActivity := Some now |}).
  { unfold s1, login. cbv beta zeta. rewrite Hok. cbn [snd].
    unfold currentState.
    now rewrite subject_call, subject_scheduleTokenRefresh,
      subject_updateAuthState. }
  split; [|split].
  - destruct Hauth as [-> _]; [now rewrite Hcs | reflexivity].
  - exact Hst.
  - rewrite Hst.
    destruct (restore_login_snapshot env env' now now' r s Hok Hset Hget)
      as [Hrestore _].
    fold s1 in Hrestore. rewrite (Hrestore Hlive Htok), Hcs. reflexivity.
Qed.

(** X20.  The refresh timer armed by [scheduleTokenRefresh] is never due
    later than ten minutes before [expiresAt], and the guard's buffer is
    five minutes: at every instant up to the time the timer is due, the
    guard does not take the token for expired.  The timer is due exactly
    ten minutes before [expiresAt], and after [now], when the delay
    [expiresAt - now - 10 min] is at most [2^31 - 1] ms; [window.setTimeout]
    takes a longer delay modulo [2^32], so a delay from [2^31] to
    [2^32 - 1] ms makes the timer due at once. *)
Theorem guard_accepts_token_until_refresh_is_due now (e : Z) s :
  refreshTimerTracked s ->
  forall id due,
    In (id, due) (timeouts (scheduleTokenRefresh now (Some e) s)) ->
    let refreshTime := e - now - 10 * 60 * 1000 in
    due = now + timerDelay refreshTime
    /\ now <= due <= e - 10 * 60 * 1000
    /\ (forall t, t <= due -> AuthGuard.isTokenExpired t (Some e) = false)
    /\ (refreshTime <= 2 ^ 31 - 1 -> due = e - 10 * 60 * 1000 /\ now < due)
    /\ (2 ^ 31 <= refreshTime < 2 ^ 32 -> due = now).
Proof.
  intros Htr id due Hin refreshTime.
  pose proof (schedule_outcome now (Some e) s Htr) as H. cbv beta iota in H.
  destruct (e - now - 10 * 60 * 1000 >? 0) eqn:E.
  - destruct H as (id' & _ & Ht). rewrite Ht in Hin.
    destruct Hin as [[= <- <-]|[]].
    rewrite Z.gtb_ltb in E. apply Z.ltb_lt in E.
    fold refreshTime in E |- *.
    pose proof (timerDelay_bounds refreshTime) as Hb.
    assert (Hdue : now <= now + timerDelay refreshTime <= e - 10 * 60 * 1000)
      by (unfold refreshTime in *; lia).
    split; [reflexivity|]. split; [exact Hdue|]. split; [|split].
    + intros t Ht'.
      assert (Hlate : t <= e - 10 * 60 * 1000)
        by (etransitivity; [exact Ht' | exact (proj2 Hdue)]).
      unfold AuthGuard.isTokenExpired. cbv zeta.
      rewrite Z.geb_leb. apply Z.leb_gt. lia.
    + intros Hfit. rewrite timerDelay_fits by lia.
      unfold refreshTime in *. lia.
    + intros Hbig. rewrite timerDelay_wraps by exact Hbig. lia.
  - destruct H as [_ Ht]. rewrite Ht in Hin. destruct Hin.
Qed.
End ServiceLifecycle.

(** ** The session manager: the activity monitor and the scheduled refresh *)

Section ServiceMonitor.
Import AuthService Spec.
Local Open Scope string_scope.
Local Open Scope Z_scope.
Local Open Scope list_scope.
Implicit Types (s : AuthService.t) (env : StorageFaults) (now : Z).

Lemma monitor_updateAuthState env a s :
  intervals (updateAuthState env a s) = intervals s
  /\ activityCheckTimer (updateAuthState env a s) = activityCheckTimer s.
Proof.
  unfold updateAuthState, storeAuthState.
  destruct (setItemThrows env); split; reflexivity.
Qed.

Lemma monitor_clearAuthState env s :
  intervals (clearAuthState env s) = intervals s
  /\ activityCheckTimer (clearAuthState env s) = activityCheckTimer s.
Proof.
  unfold clearAuthState, clearStoredAuth, updateAuthState, storeAuthState.
  destruct (setItemThrows env), (removeItemThrows env); split; reflexivity.
Qed.

Lemma monitor_scheduleTokenRefresh now e s :
  intervals (scheduleTokenRefresh now e s) = intervals s
  /\ activityCheckTimer (scheduleTokenRefresh now e s) = activityCheckTimer s.
Proof.
  unfold scheduleTokenRefresh, clearRefreshTimer, setTimeout.
  destruct (refreshTokenTimer s); destruct e as [e|]; simpl;
    try destruct (e - now - 600000 >? 0); split; reflexivity.
Qed.

Lemma monitor_login env now reply s :
  intervals (snd (login env now reply s)) = intervals s
  /\ activityCheckTimer (snd (login env now reply s)) = activityCheckTimer s.
Proof.
  unfold login. cbv beta zeta.
  destruct reply as [|[response|]]; cbn [snd]; try (split; reflexivity).
  destruct (LoginResponse.success response); cbn [snd];
    [|split; reflexivity].
  change (intervals (call ?c ?x)) with (intervals x).
  change (activityCheckTimer (call ?c ?x)) with (activityCheckTimer x).
  match goal with
  | |- context [scheduleTokenRefresh ?n ?e ?x] =>
      destruct (monitor_scheduleTokenRefresh n e x) as [-> ->]
  end.
  match goal with
  | |- context [updateAuthState ?v ?a ?x] =>
      destruct (monitor_updateAuthState v a x) as [-> ->]
  end.
  split; reflexivity.
Qed.

Lemma monitor_refreshToken env now reply s :
  intervals (snd (refreshToken env now reply s)) = intervals s
  /\ activityCheckTimer (snd (refreshToken env now reply s))
     = activityCheckTimer s.
Proof.
  unfold refreshToken. cbv beta zeta.
  assert (Hfail : forall s0,
             intervals s0 = intervals s ->
             activityCheckTimer s0 = activityCheckTimer s ->
             intervals (clearAuthState env s0) = intervals s
             /\ activityCheckTimer (clearAuthState env s0)
                = activityCheckTimer s).
  { intros s0 H1 H2. destruct (monitor_clearAuthState env s0) as [-> ->].
    now split. }
  destruct (negb (truthy (AuthState.refreshToken (authStateSubject s))));
    cbn [snd]; [now apply Hfail|].
  destruct reply as [|[response|]]; cbn [snd]; try (now apply Hfail).
  destruct (RefreshTokenResponse.success response); cbn [snd];
    [|now apply Hfail].
  change (intervals (call ?c ?x)) with (intervals x).
  change (activityCheckTimer (call ?c ?x)) with (activityCheckTimer x).
  match goal with
  | |- context [scheduleTokenRefresh ?n ?e ?x] =>
      destruct (monitor_scheduleTokenRefresh n e x) as [-> ->]
  end.
  match goal with
  | |- context [updateAuthState ?v ?a ?x] =>
      destruct (monitor_updateAuthState v a x) as [-> ->]
  end.
  split; reflexivity.
Qed.

(** [logout] stops the activity interval the service holds. *)
Lemma monitor_logout env reason reply s :
  activityCheckTimer (logout env reason reply s) = None
  /\ intervals (logout env reason reply s)
     = match activityCheckTimer s with
       | Some id => filter (fun i => negb (Pos.eqb i id)) (intervals s)
       | None => intervals s
       end.
Proof.
  unfold logout, clearAuthState, clearStoredAuth, updateAuthState,
    storeAuthState, clearTimers, clearActivityTimer, clearRefreshTimer.
  destruct (truthy (AuthState.token (authStateSubject s)));
    destruct reply; destruct (setItemThrows env);
    destruct (removeItemThrows env); simpl;
    destruct (refreshTokenTimer s) eqn:Hh; simpl;
    destruct (activityCheckTimer s) eqn:Ha; simpl;
    rewrite ?Hh, ?Ha; simpl; rewrite ?Ha; split; reflexivity.
Qed.

(** Every step leaves the activity interval as it is, or stops it as
    [logout] does. *)
Lemma monitor_step env now (op : Op) s :
  (intervals (step env now op s) = intervals s
   /\ activityCheckTimer (step env now op s) = activityCheckTimer s)
  \/ (activityCheckTimer (step env now op s) = None
      /\ intervals (step env now op s)
         = match activityCheckTimer s with
           | Some id => filter (fun i => negb (Pos.eqb i id)) (intervals s)
           | None => intervals s
           end).
Proof.
  destruct op as [reply|reason reply|reply| | |id reply lreply|id lreply];
    unfold step.
  - left. apply monitor_login.
  - right. apply monitor_logout.
  - left. apply monitor_refreshToken.
  - left. unfold updateLastActivity.
    destruct (AuthState.isAuthenticated (authStateSubject s));
      split; reflexivity.
  - left. apply monitor_clearAuthState.
  - destruct (isPendingAt now id s); [|left; split; reflexivity].
    unfold scheduledRefresh.
    pose proof (monitor_refreshToken env now reply (clearTimeout id s))
      as [Hi Ha].
    destruct (refreshToken env now reply (clearTimeout id s)) as [[a|e] s'];
      cbn [snd] in Hi, Ha; cbv beta iota zeta.
    + left. now split.
    + right.
      destruct (monitor_logout env session_timeout lreply
                  (call (LogError "Scheduled token refresh failed") s'))
        as [-> ->].
      split; [reflexivity|].
      change (activityCheckTimer (call ?c ?x)) with (activityCheckTimer x).
      change (intervals (call ?c ?x)) with (intervals x).
      now rewrite Ha, Hi.
  - destruct (existsb (Pos.eqb id) (intervals s));
      [|left; split; reflexivity].
    unfold activityCheck.
    destruct (AuthState.isAuthenticated (authStateSubject s));
      [|left; split; reflexivity].
    destruct (AuthState.lastActivity (authStateSubject s)) as [l|];
      [|left; split; reflexivity].
    cbv zeta. destruct (now - l >? 30 * 60 * 1000);
      [|left; split; reflexivity].
    right.
    match goal with
    | |- context [logout ?v ?r ?y ?x] =>
        destruct (monitor_logout v r y x) as [-> ->]
    end.
    split; reflexivity.
Qed.

Lemma monitor_tracked_run (ops : list (StorageFaults * Z * Op)) s :
  (forall id, In id (intervals s) -> activityCheckTimer s = Some id) ->
  forall id, In id (intervals (run ops s)) ->
             activityCheckTimer (run ops s) = Some id.
Proof.
  revert s. induction ops as [|[[env now] op] ops IH]; intros s Htr; simpl;
    [exact Htr|].
  apply IH. intros id Hin.
  destruct (monitor_step env now op s) as [[Hi Ha]|[Ha Hi]].
  - rewrite Ha. apply Htr. now rewrite <- Hi.
  - rewrite Hi in Hin. exfalso.
    destruct (activityCheckTimer s) as [id0|] eqn:E.
    + apply filter_In in Hin as [Hin Hne].
      specialize (Htr id Hin). injection Htr as <-.
      now rewrite Pos.eqb_refl in Hne.
    + specialize (Htr id Hin). discriminate.
Qed.

Lemma monitor_off_run (ops : list (StorageFaults * Z * Op)) s :
  activityCheckTimer s = None -> intervals s = [] ->
  activityCheckTimer (run ops s) = None /\ intervals (run ops s) = [].
Proof.
  revert s. induction ops as [|[[env now] op] ops IH]; intros s Ha Hi; simpl;
    [now split|].
  destruct (monitor_step env now op s) as [[Hi' Ha']|[Ha' Hi']];
    apply IH; try congruence.
  rewrite Hi', Ha. exact Hi.
Qed.

(** X21.  [logout] also stops the inactivity monitor, and nothing starts it
    again: in every state a constructed service reaches after a [logout],
    also after later logins, no activity interval is set, and a tick of the
    former interval changes nothing. *)
Theorem no_inactivity_monitor_after_logout env0 now0 stored
    (before after : list (StorageFaults * Z * Op)) env reason
    (reply : Reply unit) :
  activityCheckTimer
    (run after
       (logout env reason reply (run before (construct env0 now0 stored))))
  = None
  /\ intervals
       (run after
          (logout env reason reply (run before (construct env0 now0 stored))))
     = []
  /\ (forall env' now' id lreply,
        step env' now' (OpIntervalFires id lreply)
          (run after
             (logout env reason reply
                (run before (construct env0 now0 stored))))
        = run after
            (logout env reason reply
               (run before (construct env0 now0 stored)))).
Proof.
  set (s1 := run before (construct env0 now0 stored)).
  assert (Htr : forall id, In id (intervals s1) ->
                           activityCheckTimer s1 = Some id).
  { apply monitor_tracked_run.
    unfold construct, setupActivityMonitoring, setInterval.
    cbv beta iota zeta. simpl. intros id Hin.
    assert (Hinit : intervals
                      (initializeAuthState env0 now0
                         (mk emptyAuthState None None stored [] []
                            1%positive [])) = []).
    { unfold initializeAuthState. cbv beta zeta.
      destruct (getItemThrows env0).
      - now destruct (monitor_clearAuthState env0
                        (call (LogError "Failed to initialize auth state")
                           (mk emptyAuthState None None stored [] []
                              1%positive []))) as [-> _].
      - cbn [localStorage]. destruct stored as [[| |a]|]; try reflexivity.
        + now destruct (monitor_clearAuthState env0
                          (call (LogError "Failed to initialize auth state")
                             (mk emptyAuthState None None (Some Unparsable)
                                [] [] 1%positive []))) as [-> _].
        + destruct (isValidStoredAuth now0 a).
          * change (intervals (call ?c ?x)) with (intervals x).
            now destruct (monitor_scheduleTokenRefresh now0
                            (AuthState.expiresAt a)
                            (next a
                               (mk emptyAuthState None None
                                  (Some (Snapshot a)) [] [] 1%positive [])))
              as [-> _].
          * change (intervals (call ?c ?x)) with (intervals x).
            now destruct (monitor_clearAuthState env0
                            (mk emptyAuthState None None (Some (Snapshot a))
                               [] [] 1%positive [])) as [-> _]. }
    rewrite Hinit in Hin. simpl in Hin. destruct Hin as [<-|[]].
    reflexivity. }
  destruct (monitor_logout env reason reply s1) as [Ha Hi].
  assert (Hoff : intervals (logout env reason reply s1) = []).
  { rewrite Hi. destruct (activityCheckTimer s1) as [id0|] eqn:E.
    - apply filter_none. intros i Hin. specialize (Htr i Hin).
      injection Htr as <-. now rewrite Pos.eqb_refl.
    - destruct (intervals s1) as [|i l] eqn:El; [reflexivity|].
      specialize (Htr i (or_introl eq_refl)). discriminate. }
  destruct (monitor_off_run after _ Ha Hoff) as [Ha' Hi'].
  split; [exact Ha'|]. split; [exact Hi'|].
  intros env' now' id lreply. unfold step. now rewrite Hi'.
Qed.

(** X22.  The scheduled refresh: when the refresh succeeds, the callback
    does what [refreshToken] does and nothing more; when it fails, the
    callback logs the session out -- the state is the empty one, both timer
    handles are reset and the last call is the navigation to [/login]. *)
Theorem failed_scheduled_refresh_logs_out env now
    (reply : Reply RefreshTokenResponse.t) (lreply : Reply unit) s :
  (forall a,
      fst (refreshToken env now reply s) = Returned a ->
      scheduledRefresh env now reply lreply s
      = snd (refreshToken env now reply s))
  /\ (forall e,
        fst (refreshToken env now reply s) = Threw e ->
        currentState (scheduledRefresh env now reply lreply s)
        = emptyAuthState
        /\ refreshTokenTimer (scheduledRefresh env now reply lreply s) = None
        /\ activityCheckTimer (scheduledRefresh env now reply lreply s)
           = None
        /\ exists earlier,
            calls (scheduledRefresh env now reply lreply s)
            = earlier ++ [Navigate "/login"]).
Proof.
  unfold scheduledRefresh, currentState.
  destruct (refreshToken env now reply s) as [[a|e] s']; cbn [fst snd].
  - split; [reflexivity | discriminate].
  - split; [discriminate|]. intros e' _.
    rewrite subject_logout.
    destruct (timers_logout env session_timeout lreply
                (call (LogError "Scheduled token refresh failed") s'))
      as [Hh _].
    destruct (monitor_logout env session_timeout lreply
                (call (LogError "Scheduled token refresh failed") s'))
      as [Ha _].
    split; [reflexivity|]. split; [exact Hh|]. split; [exact Ha|].
    unfold logout at 1. cbv zeta. eexists. reflexivity.
Qed.
End ServiceMonitor.

(** ** The guard: required roles and what follows a decision *)

Section GuardRoutingFacts.
Import AuthGuard GuardRouting.
Local Open Scope string_scope.
Local Open Scope Z_scope.
Local Open Scope list_scope.

Lemma member_In (x : string) (l : list string) :
  Spec.member x l = true <-> In x l.
Proof.
  unfold Spec.member. destruct (in_dec string_dec x l); split; auto.
  discriminate.
Qed.

(** X23.  [hasRequiredRoles] holds exactly when every required role is
    among the roles of the user, and [hasRequiredPermissions] exactly when
    every required permission is among the user's permissions; order and
    repetition in either list do not matter, and an empty requirement
    always holds. *)
Theorem required_roles_must_all_be_held (u : AuthUser.t)
    (requiredRoles requiredPermissions : list string) :
  (hasRequiredRoles u requiredRoles = true
   <-> incl requiredRoles (AuthUser.roles u))
  /\ (hasRequiredPermissions u requiredPermissions = true
      <-> incl requiredPermissions (AuthUser.permissions u)).
Proof.
  rewrite hasRequiredRoles_forallb, hasRequiredPermissions_forallb.
  rewrite !forallb_forall. unfold incl.
  split; split; intros H x Hx; apply member_In; auto.
Qed.


End GuardRoutingFacts.

(** ** The notifications of the state management service *)

Section NotificationFacts.
Import StateManagementService.
Context {UserState UiState DataState : Type}.
Local Open Scope Z_scope.
Implicit Types (st : AppState UserState UiState DataState).



Lemma applyOp_keeps_count st (op : NotificationOp) :
  unreadCount (notifications st) = unread st ->
  match op with OpAdd _ n => newRead n = false | _ => True end ->
  unreadCount (notifications (applyOp st op)) = unread (applyOp st op).
Proof.
  intros Hinv Hop. destruct op as [gid n| |]; simpl.
  - unfold unread in *. simpl. rewrite Hop. simpl. rewrite Hinv. lia.
  - reflexivity.
  - reflexivity.
Qed.

(** X26.  [unreadCount] is the number of unread notifications as long as
    notifications are added unread: from a state where the two agree (the
    initial state is one), they agree after every sequence of
    [addNotification] of unread notifications, [markNotificationAsRead]
    and [clearAllNotifications].  Adding a notification that is already
    read still adds one to [unreadCount], while the number of unread
    notifications stays the same. *)
Theorem unreadCount_counts_the_unread (ops : list NotificationOp) st :
  unreadCount (notifications st) = unread st ->
  (Forall (fun op =>
             match op with OpAdd _ n => newRead n = false | _ => True end)
     ops ->
   unreadCount (notifications (fold_left applyOp ops st))
   = unread (fold_left applyOp ops st))
  /\ (forall generatedId n,
        newRead n = true ->
        unreadCount (notifications (addNotification generatedId n st))
        = unread st + 1
        /\ unread (addNotification generatedId n st) = unread st).
Proof.
  intros Hinv. split.
  - intros Hops. revert st Hinv.
    induction Hops as [|op ops Hop _ IH]; intros st Hinv; simpl; auto.
    apply IH. now apply applyOp_keeps_count.
  - intros gid n Hread. unfold unread in *. simpl. rewrite Hread. simpl.
    split; [now rewrite Hinv | reflexivity].
Qed.
End NotificationFacts.

(** ** Concrete runs for the further properties *)

Section FurtherRuns.
Import CacheService CacheQueries.
Local Open Scope string_scope.
Local Open Scope Z_scope.
Local Open Scope list_scope.

Lemma delete_removes_the_key_witness :
  let c := set config 0 "k" 7 (Some 1000) JsMap.empty in
  fst (delete "k" c) = true
  /\ JsMap.size (snd (delete "k" c)) = JsMap.size c - 1.
Proof.
  intros c.
  destruct (delete_removes_the_key "k" c) as (_ & _ & _ & _ & _ & Hsize).
  assert (Hwf : JsMap.wf c) by (repeat constructor; simpl; tauto).
  split; [reflexivity | now apply Hsize].
Defined.

Lemma get_hit_counts_the_access_witness :
  let c := set config 0 "k" 7 (Some 1000) JsMap.empty in
  fst (get 500 "k" c) = Some 7
  /\ JsMap.keys (snd (get 500 "k" c)) = JsMap.keys c.
Proof.
  intros c.
  assert (Hk : JsMap.get "k" c = Some (newItem config 0 "k" 7 (Some 1000)))
    by reflexivity.
  assert (Hlive : 500 <= expiresAt (newItem config 0 "k" 7 (Some 1000)))
    by ground.
  destruct (get_hit_counts_the_access 500 "k" c _ Hk Hlive)
    as (Hdata & _ & Hkeys & _).
  split; [exact Hdata | exact Hkeys].
Defined.

Lemma set_on_present_key_overwrites_witness :
  let c := set config 0 "k" 7 (Some 1000) JsMap.empty in
  JsMap.keys (set config 10 "k" 9 None c) = JsMap.keys c
  /\ JsMap.get "k" (set config 10 "k" 9 None c)
     = Some (mkItem "k" 9 10 300010 0 10).
Proof.
  intros c.
  assert (Hk : JsMap.get "k" c = Some (newItem config 0 "k" 7 (Some 1000)))
    by reflexivity.
  assert (Hsz : JsMap.size c <= maxSize config) by ground.
  destruct (set_on_present_key_overwrites config 10 "k" 9 None c _ Hk Hsz)
    as (Hkeys & Hget & _).
  split; [exact Hkeys | exact Hget].
Defined.

Lemma keys_lists_the_live_entries_witness :
  let c :=
    set config 0 "a" 1 (Some 10) (set config 0 "b" 2 (Some 1000) JsMap.empty)
  in
  NoDup (fst (keys 500 c))
  /\ fst (size 500 c) = Z.of_nat (length (fst (keys 500 c)))
  /\ fst (keys 500 c) = ["b"].
Proof.
  intros c.
  assert (Hwf : JsMap.wf c)
    by (repeat constructor; simpl; intuition discriminate).
  destruct (keys_lists_the_live_entries 500 c Hwf) as (Hnd & _ & Hsize & _).
  split; [exact Hnd|]. split; [exact Hsize | reflexivity].
Defined.

Lemma stored_entries_load_in_order_witness :
  let entries :=
    [("a", mkItem "a" 1 0 10 0 0); ("b", mkItem "b" 2 0 1000 3 400);
     ("c", mkItem "c" 3 5 900 0 5)] in
  construct config 500 (Some entries)
  = [("b", mkItem "b" 2 0 1000 3 400); ("c", mkItem "c" 3 5 900 0 5)]
  /\ construct config 5 (Some entries) = entries.
Proof.
  intros entries.
  assert (Hon : enablePersistence config = true) by reflexivity.
  assert (Hwf : JsMap.wf entries)
    by (repeat constructor; simpl; intuition discriminate).
  destruct (stored_entries_load_in_order config 500 entries Hon Hwf)
    as [Hload _].
  destruct (stored_entries_load_in_order config 5 entries Hon Hwf)
    as [_ Hall].
  split; [rewrite Hload; reflexivity|].
  apply Hall. repeat constructor; ground.
Defined.

Lemma entries_stay_coherent_witness :
  Forall (coherentEntry 0 5)
    (run config [OpSet 0 "a" 1 None; OpGet 5 "a"] JsMap.empty)
  /\ JsMap.wf
       (run config [OpSet 0 "a" 1 None; OpGet 5 "a"]
          (@JsMap.empty (CacheItem Z))).
Proof.
  assert (Hclock : clockMonotonic 0 [OpSet 0 "a" 1 None; OpGet 5 "a"])
    by (simpl; repeat split; lia).
  exact (entries_stay_coherent config [OpSet 0 "a" 1 None; OpGet 5 "a"] 0
           Hclock).
Defined.

Lemma accessCount_counts_the_hits_witness :
  let c := set config 0 "k" 7 (Some 1000) JsMap.empty in
  exists item',
    JsMap.get "k" (run config (map (fun t => OpGet t "k") [1; 2; 3]) c)
    = Some item'
    /\ accessCount item' = 0 + 3.
Proof.
  intros c.
  assert (Hk : JsMap.get "k" c = Some (newItem config 0 "k" 7 (Some 1000)))
    by reflexivity.
  assert (Hlive : Forall
                    (fun t => t <= expiresAt
                                      (newItem config 0 "k" 7 (Some 1000)))
                    [1; 2; 3])
    by (repeat constructor; ground).
  destruct (accessCount_counts_the_hits config "k" [1; 2; 3] c _ Hk Hlive)
    as (item' & Hget & Hcount & _).
  exists item'. split; [exact Hget | exact Hcount].
Defined.

End FurtherRuns.

Section FurtherServiceRuns.
Import AuthService Spec.
Local Open Scope string_scope.
Local Open Scope Z_scope.
Local Open Scope list_scope.

Lemma failed_login_changes_nothing_witness :
  let s := construct noFaults 0 None in
  fst (login noFaults 1000 Rejects s)
  = Threw (Thrown "Login failed. Please check your credentials.")
  /\ currentState (snd (login noFaults 1000 Rejects s)) = currentState s.
Proof.
  intros s.
  assert (Hcause : @Rejects LoginResponse.t = Rejects
                   \/ @Rejects LoginResponse.t = Resolves None
                   \/ (exists r, @Rejects LoginResponse.t = Resolves (Some r)
                                 /\ LoginResponse.success r = false))
    by (left; reflexivity).
  destruct (failed_login_changes_nothing noFaults 1000 Rejects s Hcause)
    as (Hthrows & Hsame & _).
  split; [exact Hthrows | exact Hsame].
Defined.

Lemma successful_login_installs_session_witness :
  let ann := AuthUser.mk 7 "ann@example.org" ["user"] ["read"] true in
  let r := LoginResponse.mk true None ann "tok" "ref" 7200000 "sid" in
  let s := construct noFaults 0 None in
  AuthState.loginTime
    (currentState (snd (login noFaults 1000 (Resolves (Some r)) s)))
  = Some 1000
  /\ (exists id,
        refreshTokenTimer (snd (login noFaults 1000 (Resolves (Some r)) s))
        = Some id
        /\ timeouts (snd (login noFaults 1000 (Resolves (Some r)) s))
           = [(id, 7200000 - 10 * 60 * 1000)]).
Proof.
  intros ann r s.
  destruct (successful_login_installs_session noFaults 1000 r s eq_refl)
    as (_ & Hcs & _ & _ & Htimer).
  split; [now rewrite Hcs|].
  destruct (Htimer (tracked_construct noFaults 0 None)) as [Hlong _].
  assert (Hlives : 10 * 60 * 1000 < LoginResponse.expiresAt r - 1000)
    by ground.
  pose proof (Hlong Hlives) as Hone. cbv zeta in Hone.
  destruct Hone as (id & due & Hid & Hts & _ & _ & Hfit & _).
  assert (Hshort : LoginResponse.expiresAt r - 1000 - 10 * 60 * 1000
                   <= 2 ^ 31 - 1) by ground.
  exists id. split; [exact Hid|].
  rewrite Hts, (Hfit Hshort). reflexivity.
Defined.

Lemma login_then_guard_allows_witness :
  let ann := AuthUser.mk 7 "ann@example.org" ["user"] ["read"] true in
  let r := LoginResponse.mk true None ann "tok" "ref" 7200000 "sid" in
  let s := construct noFaults 0 None in
  AuthGuard.validateAuthState 1000
    (currentState (snd (login noFaults 1000 (Resolves (Some r)) s)))
    (Some (RouteData.mk (Some ["user"]) None true))
  = (true, []).
Proof.
  intros ann r s.
  apply (login_then_guard_allows noFaults 1000 r s); try reflexivity.
Defined.

Lemma login_snapshot_is_restored_witness :
  let ann := AuthUser.mk 7 "ann@example.org" ["user"] ["read"] true in
  let r := LoginResponse.mk true None ann "tok" "ref" 7200000 "sid" in
  let s := snd (login noFaults 1000 (Resolves (Some r))
                  (construct noFaults 0 None)) in
  currentState (construct noFaults 5000 (localStorage s)) = currentState s
  /\ currentState (construct noFaults 7200000 (localStorage s))
     = emptyAuthState.
Proof.
  intros ann r s.
  destruct (login_snapshot_is_restored noFaults noFaults 1000 5000 r
              (construct noFaults 0 None) eq_refl eq_refl eq_refl)
    as [Hlive _].
  destruct (login_snapshot_is_restored noFaults noFaults 1000 7200000 r
              (construct noFaults 0 None) eq_refl eq_refl eq_refl)
    as [_ Hdead].
  split.
  - apply Hlive; [ground | discriminate].
  - apply Hdead. left. ground.
Defined.

Lemma successful_refresh_keeps_the_login_witness :
  let ann := AuthUser.mk 7 "ann@example.org" ["user"] ["read"] true in
  let r := LoginResponse.mk true None ann "tok" "ref" 7200000 "sid" in
  let s := snd (login noFaults 1000 (Resolves (Some r))
                  (construct noFaults 0 None)) in
  let r' := RefreshTokenResponse.mk true "tok2" 9000000 "sid" in
  AuthState.loginTime
    (currentState (snd (refreshToken noFaults 6000000 (Resolves (Some r')) s)))
  = Some 1000
  /\ AuthState.token
       (currentState
          (snd (refreshToken noFaults 6000000 (Resolves (Some r')) s)))
     = Some "tok2".
Proof.
  intros ann r s r'.
  destruct (successful_refresh_keeps_the_login noFaults 6000000 r' s
              eq_refl eq_refl) as (_ & Hcs & _).
  rewrite Hcs. split; reflexivity.
Defined.

Lemma activity_updates_are_not_persisted_witness :
  let ann := AuthUser.mk 7 "ann@example.org" ["user"] ["read"] true in
  let r := LoginResponse.mk true None ann "tok" "ref" 7200000 "sid" in
  let s :=
    updateLastActivity 3000
      (snd (login noFaults 1000 (Resolves (Some r))
              (construct noFaults 0 None))) in
  AuthState.lastActivity (currentState s) = Some 3000
  /\ AuthState.lastActivity
       (currentState (construct noFaults 5000 (localStorage s)))
     = Some 1000.
Proof.
  intros ann r s.
  assert (Hlive : 5000 < LoginResponse.expiresAt r) by ground.
  assert (Htok : LoginResponse.token r <> "") by discriminate.
  destruct (activity_updates_are_not_persisted noFaults noFaults 1000 3000
              5000 r (construct noFaults 0 None) eq_refl eq_refl eq_refl
              Hlive Htok) as (Hmem & _ & Hrestored).
  split; [exact Hmem | exact Hrestored].
Defined.

Lemma guard_accepts_token_until_refresh_is_due_witness :
  let s := construct noFaults 0 None in
  timeouts (scheduleTokenRefresh 0 (Some 7200000) s) = [(2%positive, 6600000)]
  /\ AuthGuard.isTokenExpired 6600000 (Some 7200000) = false
  /\ timeouts (scheduleTokenRefresh 0 (Some 2592000000) s)
     = [(2%positive, 0)].
Proof.
  intros s.
  assert (Hin : In (2%positive, 6600000)
                  (timeouts (scheduleTokenRefresh 0 (Some 7200000) s)))
    by (left; reflexivity).
  pose proof (guard_accepts_token_until_refresh_is_due 0 7200000 s
                (tracked_construct noFaults 0 None) 2%positive 6600000 Hin)
    as Hdue.
  cbv zeta in Hdue. destruct Hdue as (_ & _ & Hok & _).
  split; [reflexivity|]. split; [|reflexivity]. apply Hok. lia.
Defined.
End FurtherServiceRuns.

Section FurtherNotificationRuns.
Import StateManagementService.
Local Open Scope string_scope.
Local Open Scope Z_scope.
Local Open Scope list_scope.

Lemma unreadCount_counts_the_unread_witness :
  let st := @mkState unit unit unit tt tt tt initialNotifications in
  let note := mkNew info "Saved" "Your changes were saved." false 100 in
  unreadCount
    (notifications
       (fold_left applyOp
          [OpAdd "n1" note; OpAdd "n2" note; OpMarkRead "n1"] st))
  = 1
  /\ unread
       (fold_left applyOp
          [OpAdd "n1" note; OpAdd "n2" note; OpMarkRead "n1"] st)
     = 1.
Proof.
  intros st note.
  assert (Hinit : unreadCount (notifications st) = unread st) by reflexivity.
  destruct (unreadCount_counts_the_unread
              [OpAdd "n1" note; OpAdd "n2" note; OpMarkRead "n1"] st Hinit)
    as [Hagree _].
  assert (Hops : Forall
                   (fun op =>
                      match op with
                      | OpAdd _ n => newRead n = false
                      | _ => True
                      end)
                   [OpAdd "n1" note; OpAdd "n2" note; OpMarkRead "n1"])
    by (repeat constructor).
  specialize (Hagree Hops). split; [reflexivity|].
  rewrite <- Hagree. reflexivity.
Defined.
End FurtherNotificationRuns.
